(** * moviemodel: genre encoding, label binning and the regression endpoint

    A shallow embedding of
      - [backend/transformers.py]   (class [GenresBinarizer]),
      - [backend/train_model_reg.py] (functions [make_bins], [load_data],
        [make_one_hot_encoder], [compute_meta]),
      - [backend/server_reg.py]     (the module body, handlers [predict]
        and [meta]),
    together with the properties the specification states about them.

    Conventions of the embedding.
      - A Python [str] is a list of Unicode code points ([list N]).
      - A finite Python [float] is the rational it denotes ([Q]), kept
        in lowest terms; order comparisons are exact on such values.
        The arithmetic of the handler is that of doubles: the exact
        operation followed by rounding ([Binary64]). The quantile
        edges of [pd.qcut], whose rounding depends on the release of
        numpy and pandas, are what a routine given as a parameter
        returns; [make_bins] itself stands for the edges free of
        rounding error. NaN, the infinities and the sign of zero are
        outside the model, except where a definition says how the code
        treats them.
      - A method that reads or writes [self] is a computation in a small
        state-and-exception monad over the object. *)

From Stdlib Require Import ZArith QArith Qround Qabs Qminmax Lia Lqa String Ascii DecimalString.
From stdpp Require Import gmap strings list sorting.

Local Open Scope list_scope.
Local Close Scope Q_scope.

(** ** Python strings *)

Module PyStr.

(** A string is its sequence of code points. *)
Definition str := list N.

(** A literal of the development, read as code points (one per byte,
    so the literal has to be ASCII). *)
Definition py (s : string) : str :=
  List.map N_of_ascii (list_ascii_of_string s).

(** [str.isspace] on one code point: the characters [str.strip()]
    removes when called without an argument. *)
Definition isspace (c : N) : bool :=
  ((9 <=? c) && (c <=? 13) || (28 <=? c) && (c <=? 32)
   || (c =? 133) || (c =? 160) || (c =? 5760)
   || (8192 <=? c) && (c <=? 8202)
   || (c =? 8232) || (c =? 8233) || (c =? 8239) || (c =? 8287)
   || (c =? 12288))%N.

Fixpoint lstrip (s : str) : str :=
  match s with
  | [] => []
  | c :: s' => if isspace c then lstrip s' else s
  end.

Definition rstrip (s : str) : str := rev (lstrip (rev s)).

(** [s.strip()] *)
Definition strip (s : str) : str := rstrip (lstrip s).

(** [s.split(sep)] for a separator of one character. *)
Fixpoint split (sep : N) (s : str) : list str :=
  match s with
  | [] => [[]]
  | c :: s' =>
      if (c =? sep)%N then [] :: split sep s'
      else match split sep s' with
           | [] => [[c]]
           | w :: ws => (c :: w) :: ws
           end
  end.

(** [sep.join(l)] *)
Fixpoint join (sep : str) (l : list str) : str :=
  match l with
  | [] => []
  | [x] => x
  | x :: l' => x ++ sep ++ join sep l'
  end.

(** Truthiness of a string: [if s] holds for the non-empty ones. *)
Definition truthy (s : str) : bool :=
  match s with [] => false | _ => true end.

Definition pipe : N := 124.

End PyStr.
Import PyStr.

(** ** Exceptions and the method monad *)

Inductive exn : Type :=
| RuntimeError (msg : string)
| ValueError (msg : string)
| IndexError
| KeyError (key : string)
| AssertionError
| ValidationError (field : string)
| HTTPException (status : Z) (detail : str).

Inductive result (A : Type) : Type :=
| Ok (a : A)
| Raise (e : exn).
Arguments Ok {A} a.
Arguments Raise {A} e.

(** A computation over a mutable object (or a log) of type [S]: it ends
    with a value or an exception, and leaves a state behind. *)
Definition M (S A : Type) : Type := S -> result A * S.

Definition ret {S A} (a : A) : M S A := fun s => (Ok a, s).
Definition raise {S A} (e : exn) : M S A := fun s => (Raise e, s).
Definition bind {S A B} (m : M S A) (k : A -> M S B) : M S B :=
  fun s => match m s with
           | (Ok a, s') => k a s'
           | (Raise e, s') => (Raise e, s')
           end.
Definition get {S} : M S S := fun s => (Ok s, s).
Definition put {S} (s : S) : M S unit := fun _ => (Ok tt, s).
Definition lift {S A} (r : result A) : M S A := fun s => (r, s).

(** [try: m  except Exception: h] *)
Definition try_except {S A} (m : M S A) (h : M S A) : M S A :=
  fun s => match m s with
           | (Ok a, s') => (Ok a, s')
           | (Raise _, s') => h s'
           end.

Notation "'do' x <- m ; k" := (bind m (fun x => k))
  (at level 10, x name, m at level 100, k at level 200).

Fixpoint mapM {S A B} (f : A -> M S B) (l : list A) : M S (list B) :=
  match l with
  | [] => ret []
  | a :: l' => do b <- f a; do bs <- mapM f l'; ret (b :: bs)
  end.

(** The same for code without state. *)
Definition rbind {A B} (r : result A) (k : A -> result B) : result B :=
  match r with Ok a => k a | Raise e => Raise e end.

Fixpoint rmap {A B} (f : A -> result B) (l : list A) : result (list B) :=
  match l with
  | [] => Ok []
  | a :: l' => rbind (f a) (fun b => rbind (rmap f l') (fun bs => Ok (b :: bs)))
  end.

(** ** backend/transformers.py *)

Module Transformers.

(** A cell of the genres column: a string, or missing ([None]/NaN). *)
Definition cell := option str.

(** The shapes [_to_1d] accepts. A frame is given by its columns. (The
    message of its [ValueError] ends with the shape of the frame, left
    out here.) *)
Inductive array_like : Type :=
| DataFrame (columns : list (list cell))
| Series (values : list cell)
| NdArray (values : list cell).

Record GenresBinarizer : Type := {
  vocab : option (list str);
  top_k : Z;
  classes_ : option (list str)
}.

(** [__init__(self, vocab=None, top_k=30)] *)
Definition init (vocab : option (list str)) (top_k : Z) : GenresBinarizer :=
  {| vocab := vocab; top_k := top_k; classes_ := None |}.

Definition set_classes_ (c : list str) : M GenresBinarizer unit :=
  do self <- get;
  put {| vocab := vocab self; top_k := top_k self; classes_ := Some c |}.

Definition _to_1d (X : array_like) : result (list cell) :=
  match X with
  | DataFrame cols =>
      match cols with
      | [c] => Ok c
      | _ => Raise (ValueError "Expected single-column DataFrame, got shape ...")
      end
  | Series v => Ok v
  | NdArray v => Ok v
  end.

(** [.fillna("")] on one cell *)
Definition fillna (c : cell) : str := default [] c.

(** [Series.value_counts()]: the distinct values with their number of
    occurrences, most frequent first. The distinct values are met in
    order of first appearance and the sort is taken stable; pandas
    does not promise an order among equal counts, and no property
    below depends on it. *)
Fixpoint first_seen (l : list str) : list str :=
  match l with
  | [] => []
  | x :: l' => x :: filter (fun y => y <> x) (first_seen l')
  end.

Definition count_of (x : str) (l : list str) : nat :=
  length (filter (fun y => y = x) l).

Fixpoint insert_desc (p : str * nat) (l : list (str * nat)) : list (str * nat) :=
  match l with
  | [] => [p]
  | q :: l' => if (snd q <=? snd p)%nat then p :: l
               else q :: insert_desc p l'
  end.

Definition sort_desc (l : list (str * nat)) : list (str * nat) :=
  foldr insert_desc [] l.

Definition value_counts (l : list str) : list (str * nat) :=
  sort_desc (List.map (fun x => (x, count_of x l)) (first_seen l)).

(** [.head(n)]: the first [n] rows; for a negative [n], all rows but
    the last [-n]. *)
Definition pd_head {A} (n : Z) (l : list A) : list A :=
  if (0 <=? n)%Z then take (Z.to_nat n) l
  else take (length l - Z.to_nat (- n)) l.

(** [s.str.split("|").explode().str.strip()], then the rows that are
    not the empty string. *)
Definition exploded_tokens (s : list str) : list str :=
  filter (fun t => t <> []) (List.map strip (List.concat (List.map (split pipe) s))).

Definition fit (X : array_like) : M GenresBinarizer unit :=
  do vals <- lift (_to_1d X);
  let s := List.map fillna vals in
  let exploded := exploded_tokens s in
  let counts := value_counts exploded in
  do self <- get;
  match vocab self with
  | None => set_classes_ (pd_head (top_k self) (List.map fst counts))
  | Some v => set_classes_ v
  end.

(** [[x.strip() for x in xs if x and x.strip()]] over the split cell *)
Definition tags_of (x : str) : list str :=
  List.map strip
    (filter (fun x => truthy x && truthy (strip x)) (split pipe x)).

(** [np.zeros((rows, cols))] *)
Definition zeros (rows cols : nat) : list (list Q) :=
  replicate rows (replicate cols 0%Q).

(** [{g: i for i, g in enumerate(classes)}]: a later position of a
    token overwrites an earlier one. *)
Definition idx_map_from (classes : list str) : gmap str nat :=
  foldl (fun (m : gmap str nat) (ig : nat * str) => <[ig.2 := ig.1]> m)
        ∅ (imap (fun i g => (i, g)) classes).

(** [out[row, i] = v] *)
Definition set_entry (out : list (list Q)) (row i : nat) (v : Q) : list (list Q) :=
  alter (fun r => <[i := v]> r) row out.

(** The inner loop, [for g in glist]. *)
Definition mark_row (idx_map : gmap str nat) (row : nat)
           (out : list (list Q)) (glist : list str) : list (list Q) :=
  foldl (fun out g =>
           match idx_map !! g with
           | Some i => set_entry out row i 1%Q
           | None => out
           end) out glist.

Definition transform (X : array_like) : M GenresBinarizer (list (list Q)) :=
  do self <- get;
  match classes_ self with
  | None => raise (RuntimeError "GenresBinarizer is not fitted.")
  | Some classes =>
      do vals <- lift (_to_1d X);
      let s := List.map fillna vals in
      let lists := List.map tags_of s in
      let out := zeros (length lists) (length classes) in
      let idx_map := idx_map_from classes in
      ret (foldl (fun out (rg : nat * list str) => mark_row idx_map rg.1 out rg.2)
                 out (imap (fun row glist => (row, glist)) lists))
  end.

End Transformers.
Import Transformers.

(** ** backend/train_model_reg.py: [make_bins] *)

Module TrainModel.

Definition N_CLASSES : Z := 5.
Definition FIXED_EDGES : option (list Q) :=
  Some [0; 5; 13 # 2; 15 # 2; 17 # 2; 10]%Q.

(** *** numpy and pandas primitives, on arrays of finite floats *)

Definition Qleb (a b : Q) : bool := Qle_bool a b.
Definition Qltb (a b : Q) : bool := negb (Qle_bool b a).
Definition Qeqb (a b : Q) : bool := Qeq_bool a b.

(** [np.searchsorted(a, x, side)] on a sorted array [a]: the number
    of elements below [x] (side left), or not above it (side right). *)
Definition searchsorted_left (a : list Q) (x : Q) : nat :=
  length (filter (fun b => Qltb b x) a).
Definition searchsorted_right (a : list Q) (x : Q) : nat :=
  length (filter (fun b => Qleb b x) a).

Fixpoint nondecreasing (l : list Q) : bool :=
  match l with
  | a :: ((b :: _) as t) => Qleb a b && nondecreasing t
  | _ => true
  end.

Fixpoint nonincreasing (l : list Q) : bool :=
  match l with
  | a :: ((b :: _) as t) => Qleb b a && nonincreasing t
  | _ => true
  end.

(** numpy's check of the bins: 1 for non-decreasing (also when all
    are equal), -1 for non-increasing, 0 otherwise. *)
Definition monotonicity (bins : list Q) : Z :=
  if nondecreasing bins then 1
  else if nonincreasing bins then (-1)
  else 0.

(** [np.digitize(x, bins, right=False)] *)
Definition digitize (x : list Q) (bins : list Q) : result (list Z) :=
  let mono := monotonicity bins in
  if (mono =? 0)%Z then
    Raise (ValueError "bins must be monotonically increasing or decreasing")
  else if (mono =? -1)%Z then
    Ok (List.map (fun v => (Z.of_nat (length bins)
                            - Z.of_nat (searchsorted_right (rev bins) v))%Z) x)
  else
    Ok (List.map (fun v => Z.of_nat (searchsorted_right bins v)) x).

(** Sorting a sample, as the quantile computation does. *)
Fixpoint insert_sorted (x : Q) (l : list Q) : list Q :=
  match l with
  | [] => [x]
  | y :: l' => if Qleb x y then x :: l else y :: insert_sorted x l'
  end.

Definition sort (l : list Q) : list Q := foldr insert_sorted [] l.

(** The points of [np.linspace(0, 1, q + 1)] free of rounding error:
    the fractions [k / q]. *)
Definition linspace01 (q : nat) : list Q :=
  match q with
  | O => [0%Q]
  | _ => List.map (fun k => (inject_Z (Z.of_nat k) / inject_Z (Z.of_nat q))%Q)
                  (seq 0 (S q))
  end.

(** One quantile of a sorted, non-empty sample by linear interpolation
    between the two neighbours of the position [p * (n - 1)], free of
    rounding error; the value is kept in lowest terms. *)
Definition quantile_sorted (v : list Q) (p : Q) : Q :=
  let n := length v in
  let pos := (p * inject_Z (Z.of_nat (n - 1)))%Q in
  let lo := Z.to_nat (Qfloor pos) in
  let hi := Nat.min (S lo) (n - 1) in
  let frac := (pos - inject_Z (Qfloor pos))%Q in
  let a := nth lo v 0%Q in
  let b := nth hi v 0%Q in
  Qred (a + (b - a) * frac)%Q.

(** [algos.unique]: first occurrences, in order. *)
Fixpoint unique (l : list Q) : list Q :=
  match l with
  | [] => []
  | x :: l' => x :: filter (fun y => negb (Qeqb y x)) (unique l')
  end.

(** The bin number [pd.qcut] gives one value: intervals are closed on
    the right, the lowest edge belongs to the first one, and a value
    in no interval gets -1. *)
Definition qcut_code (bins : list Q) (x : Q) : Z :=
  let ids := searchsorted_left bins x in
  let ids := match bins with
             | b0 :: _ => if Qeqb x b0 then 1%nat else ids
             | [] => ids
             end in
  if (ids =? length bins)%nat || (ids =? 0)%nat then (-1)%Z
  else (Z.of_nat ids - 1)%Z.

(** [pd.qcut] computes its bin edges with [np.quantile] at
    [np.linspace(0, 1, q + 1)], by interpolation in double arithmetic;
    how the result is rounded depends on the position formula and the
    order of operations of the library at hand. The routine is a
    parameter: [quantile_edges s q] is the array of edges it returns
    for the sample [s]. What [pd.qcut] does with the edges is
    comparisons only. *)
Section Quantiles.

Variable quantile_edges : list Q -> nat -> list Q.

(** [pd.qcut(s, q, retbins=True, duplicates="drop")] for an integer
    [q] and a sample without missing values: the codes of the
    resulting categorical and the bin edges. An empty sample has only
    NaN quantiles, which this development does not represent: it is
    refused with [None]. *)
Definition qcut_with (s : list Q) (q : Z) : option (result (list Z * list Q)) :=
  match s with
  | [] => None
  | _ =>
    Some (
      if (q <? -1)%Z then
        Raise (ValueError "Number of samples must be non-negative")
      else if (q =? -1)%Z then Raise IndexError
      else
        let bins := quantile_edges s (Z.to_nat q) in
        let unique_bins := unique bins in
        let bins :=
          if (length unique_bins <? length bins)%nat
             && negb (length bins =? 2)%nat
          then unique_bins else bins in
        Ok (List.map (qcut_code bins) s, bins))
  end.

End Quantiles.

(** The edges without rounding error: the quantiles of the sorted
    sample at the exact fractions [k / q]. Double arithmetic gives
    these very edges where every step of the interpolation is exact,
    as on a constant sample or on dyadic values at dyadic positions. *)
Definition exact_edges (s : list Q) (q : nat) : list Q :=
  List.map (quantile_sorted (sort s)) (linspace01 q).

Definition qcut (s : list Q) (q : Z) : option (result (list Z * list Q)) :=
  qcut_with exact_edges s q.

(** *** Rendering [f"{a:.1f}"] *)

(** Rounding to the nearest integer, ties to the even one. *)
Definition round_half_even (q : Q) : Z :=
  let f := Qfloor q in
  match ((q - inject_Z f) ?= (1 # 2))%Q with
  | Lt => f
  | Gt => (f + 1)%Z
  | Eq => if Z.even f then f else (f + 1)%Z
  end.

Definition decimal (n : Z) : str :=
  py (DecimalString.NilZero.string_of_uint (N.to_uint (Z.to_N n))).

(** [f"{a:.1f}"] *)
Definition format_1f (a : Q) : str :=
  let t := round_half_even (Qabs a * 10)%Q in
  (if Qltb a 0 then py "-" else [])
    ++ decimal (t / 10) ++ py "." ++ decimal (t mod 10).

(** *** [make_bins] *)

(** [edges[i]] *)
Definition getitem (edges : list Q) (i : nat) : result Q :=
  match edges !! i with
  | Some e => Ok e
  | None => Raise IndexError
  end.

(** The loop that renders the labels, shared by both modes. *)
Definition render_labels (edges : list Q) (n : Z) : result (list str) :=
  rmap (fun i =>
          rbind (getitem edges i) (fun a =>
          rbind (getitem edges (i + 1)) (fun b =>
          let right_br := if (Z.of_nat i <? n - 1)%Z then py ")" else py "]" in
          Ok (py "[" ++ format_1f a ++ py ", " ++ format_1f b ++ right_br))))
       (seq 0 (Z.to_nat n)).

(** [edges[1:-1]] *)
Definition interior (edges : list Q) : list Q :=
  take (length edges - 2) (drop 1 edges).

(** [make_bins(y, mode, n_classes, fixed_edges)], over the routine
    that computes the quantile edges. The result is [None] only where
    [qcut_with] is (an empty sample in quantile mode). *)
Definition make_bins_with (quantile_edges : list Q -> nat -> list Q)
           (y : list Q) (mode : str) (n_classes : Z)
           (fixed_edges : option (list Q))
  : option (result (list Z * list Q * list str)) :=
  if bool_decide (mode = py "fixed") then
    Some (
      match fixed_edges with
      | Some ((_ :: _) as fe) =>
          if bool_decide (Z.of_nat (length fe) = n_classes + 1)%Z then
            let edges := fe in
            rbind (digitize y (interior edges)) (fun cls =>
            rbind (render_labels edges n_classes) (fun labels =>
            Ok (cls, edges, labels)))
          else Raise AssertionError
      | _ => Raise AssertionError
      end)
  else
    match qcut_with quantile_edges y n_classes with
    | None => None
    | Some r =>
        Some (
          rbind r (fun '(codes, edges) =>
          let real_classes := (Z.of_nat (length edges) - 1)%Z in
          rbind (render_labels edges real_classes) (fun labels =>
          Ok (codes, edges, labels))))
    end.

(** [make_bins] with the quantile edges free of rounding error. *)
Definition make_bins (y : list Q) (mode : str) (n_classes : Z)
           (fixed_edges : option (list Q))
  : option (result (list Z * list Q * list str)) :=
  make_bins_with exact_edges y mode n_classes fixed_edges.

End TrainModel.
Import TrainModel.

(** ** Double arithmetic *)

(** Python and numpy floats are IEEE 754 binary64 numbers. A finite one
    is kept as the rational it denotes, and an arithmetic operation is
    the exact operation followed by rounding to the nearest double,
    ties to the even significand. Overflow to infinity is outside this
    development. *)
Module Binary64.

Definition pow2 (e : Z) : Q :=
  if (0 <=? e)%Z then inject_Z (2 ^ e) else 1 # Z.to_pos (2 ^ (- e)).

(** The binade of a positive [q]: the [e] with [2^e <= q < 2^(e+1)]. *)
Definition binade (q : Q) : Z :=
  let e := (Z.log2 (Qnum q) - Z.log2 (Z.pos (Qden q)))%Z in
  if Qle_bool (pow2 e) q then e else (e - 1)%Z.

(** The nearest double: 53 significant bits; below the least normal
    binade, -1022, the spacing stays [2^-1074]. *)
Definition fl (q : Q) : Q :=
  if Qeq_bool q 0 then 0%Q
  else
    let e := Z.max (binade (Qabs q)) (-1022) in
    let ulp := pow2 (e - 52) in
    Qred (inject_Z (round_half_even (q / ulp)) * ulp).

Definition fadd (a b : Q) : Q := fl (a + b).
Definition fsub (a b : Q) : Q := fl (a - b).
Definition fmul (a b : Q) : Q := fl (a * b).
Definition fdiv (a b : Q) : Q := fl (a / b).

End Binary64.
Import Binary64.

(** *** A quantile routine in doubles *)

(** [np.linspace(0, 1, q + 1)]: the multiples of the step [1 / q], the
    last one set to 1. *)
Definition linspace_f64 (q : nat) : list Q :=
  match q with
  | O => [0%Q]
  | _ => List.map (fun k => if (k =? q)%nat then 1%Q
                            else fmul (inject_Z (Z.of_nat k))
                                      (fdiv 1 (inject_Z (Z.of_nat q))))
                  (seq 0 (S q))
  end.

(** numpy's method "linear" on a sorted, non-empty sample: at the
    position [(n - 1) * p], between the neighbours [a] and [b] with
    weight [t], the value [a + (b - a) * t], and [b - (b - a) * (1 - t)]
    from [t = 0.5] on. Releases of numpy and pandas differ in the
    formula of the position and the order of the operations, and so in
    the last place of an edge: the statements about quantile mode hold
    for every routine, and this one serves for runs on concrete
    samples. *)
Definition quantile_f64 (v : list Q) (p : Q) : Q :=
  let n := length v in
  let pos := fmul (inject_Z (Z.of_nat (n - 1))) p in
  let lo := Z.to_nat (Qfloor pos) in
  let hi := Nat.min (S lo) (n - 1) in
  let t := fsub pos (inject_Z (Qfloor pos)) in
  let a := nth lo v 0%Q in
  let b := nth hi v 0%Q in
  if Qltb t (1 # 2) then fadd a (fmul (fsub b a) t)
  else fsub b (fmul (fsub b a) (fsub 1 t)).

Definition f64_edges (s : list Q) (q : nat) : list Q :=
  List.map (quantile_f64 (sort s)) (linspace_f64 q).

(** ** backend/server_reg.py: the [/predict] handler *)

Module ServerReg.

Record PredictRequest : Type := {
  duration : Z;
  budget : Z;
  title_year : Z;
  genres : list str;
  content_rating : str
}.

(** The one-row frame handed to the pipeline. *)
Record row : Type := {
  row_duration : Z;
  row_budget : Z;
  row_title_year : Z;
  row_content_rating : str;
  row_genres : str
}.

Record PredictResponse : Type := {
  predicted_score : Q;
  confidence : Q;
  explanation : string
}.

(** The unpickled pipeline, as far as the handler looks into it: its
    [predict], and the step named "model", which may or may not have
    an [estimators_] attribute. *)
Record estimator : Type := { est_predict : row -> result Q }.
Record model : Type := { estimators_ : option (list estimator) }.
Record pipeline : Type := {
  pipe_predict : row -> result Q;
  named_steps : gmap string model
}.

(** What the handler asks of the loaded objects, in order. *)
Inductive event : Type :=
| PipePredict (X : row)
| EstimatorPredict (i : nat) (X : row).

(** Python's two-argument [min] and [max] on finite floats. *)
Definition py_min (a b : Q) : Q := if Qltb b a then b else a.
Definition py_max (a b : Q) : Q := if Qltb a b then b else a.

(** [round(x, 2)]: the nearest multiple of 0.01, ties to even. *)
Definition round2 (x : Q) : Q :=
  Qred (inject_Z (round_half_even (x * 100)) / 100)%Q.

(** [[g.strip() for g in genres if g.strip()]] *)
Definition clean_genres (genres : list str) : list str :=
  List.map strip (filter (fun g => truthy (strip g)) genres).

Definition make_row (req : PredictRequest) : row :=
  {| row_duration := duration req;
     row_budget := budget req;
     row_title_year := title_year req;
     row_content_rating := content_rating req;
     row_genres := join (py "|") (clean_genres (genres req)) |}.

(** The constructor of the response model with its declared bounds. *)
Definition make_response (score conf : Q) (expl : string) : result PredictResponse :=
  if negb (Qleb 0 score && Qleb score 10) then Raise (ValidationError "predicted_score")
  else if negb (Qleb 0 conf && Qleb conf 1) then Raise (ValidationError "confidence")
  else Ok {| predicted_score := score; confidence := conf; explanation := expl |}.

Section Handler.

(** The module globals set when the artifacts are loaded, and
    [np.std]. *)
Variable ALLOWED_CONTENT_RATINGS : gset str.
Variable pipe : pipeline.
Variable np_std : list Q -> Q.

Definition call_pipe (X : row) : M (list event) Q :=
  fun log => (pipe_predict pipe X, log ++ [PipePredict X]).

Definition call_estimator (X : row) (ie : nat * estimator) : M (list event) Q :=
  fun log => (est_predict ie.2 X, log ++ [EstimatorPredict ie.1 X]).

(** The body of the second [try]; the value is the confidence it
    assigns, or the one set before it when the step has no
    [estimators_]. [1.0 - std / 2.5] is a division and a subtraction
    of doubles. With no member at all [np.std] is NaN, every
    comparison with it is false, and [max(0.0, min(1.0, nan))] is
    1.0. *)
Definition member_confidence (X : row) : M (list event) Q :=
  do model <- lift (match named_steps pipe !! "model"%string with
                    | Some m => Ok m
                    | None => Raise (KeyError "model")
                    end);
  match estimators_ model with
  | None => ret (1 # 2)%Q
  | Some ests =>
      do indiv <- mapM (call_estimator X) (imap (fun i e => (i, e)) ests);
      match indiv with
      | [] => ret 1%Q
      | _ =>
          let std := np_std indiv in
          ret (py_max 0 (py_min 1 (fsub 1 (fdiv std (5 # 2)))))%Q
      end
  end.

Definition predict (req : PredictRequest) : M (list event) PredictResponse :=
  if bool_decide (content_rating req ∉ ALLOWED_CONTENT_RATINGS) then
    raise (HTTPException 400
             (py "content_rating '" ++ content_rating req ++ py "' not allowed"))
  else
    let row := make_row req in
    let X := row in
    do score <- try_except (call_pipe X) (call_pipe row);
    let score_clamped := py_max 0 (py_min 10 score) in
    do confidence <- try_except (member_confidence X) (ret (1 # 2)%Q);
    let explanation :=
      "Features used: duration, budget, title_year, content_rating, genres (multi-hot)."%string in
    lift (make_response (round2 score_clamped) (round2 confidence) explanation).

End Handler.

(** A numerical stand-in for [np.std] on concrete data: the population
    standard deviation with the square root taken to six decimals. *)
Definition Qsum (l : list Q) : Q := foldr Qplus 0%Q l.
Definition mean (l : list Q) : Q := (Qsum l / inject_Z (Z.of_nat (length l)))%Q.
Definition sqrt6 (q : Q) : Q :=
  Qred (inject_Z (Z.sqrt (Qfloor (q * 1000000000000))) / 1000000)%Q.
Definition std6 (l : list Q) : Q :=
  sqrt6 (mean (List.map (fun x => (x - mean l) * (x - mean l))%Q l)).

End ServerReg.
Import ServerReg.

(** ** Vocabulary of the statements *)

(** A string of whitespace only (the empty one included). *)
Definition blank (s : str) : Prop := Forall (fun c => isspace c = true) s.

(** [padded l l']: the list [l'] is [l] with whitespace-only entries
    added and whitespace put around entries. *)
Inductive padded : list str -> list str -> Prop :=
| padded_nil : padded [] []
| padded_extra w l l' : blank w -> padded l l' -> padded l (w :: l')
| padded_around w1 g w2 l l' :
    blank w1 -> blank w2 -> padded l l' -> padded (g :: l) ((w1 ++ g ++ w2) :: l').

(** The vector the inner loop of [transform] leaves in one row. *)
Definition mark_vec (idx_map : gmap str nat) (glist : list str) (v : list Q) : list Q :=
  foldl (fun v g => match idx_map !! g with
                    | Some i => <[i := 1%Q]> v
                    | None => v
                    end) v glist.

(** A sample whose values increase strictly. *)
Fixpoint strictly_increasing (l : list Q) : bool :=
  match l with
  | a :: ((b :: _) as t) => Qltb a b && strictly_increasing t
  | _ => true
  end.

(** The edges [qcut] computes before dropping duplicates. *)
Definition raw_bins (v : list Q) (q : nat) : list Q :=
  List.map (quantile_sorted v) (linspace01 q).

(** The member predictions, when the step named "model" has an
    [estimators_] attribute and every member predicts without raising. *)
Fixpoint all_ok {A} (l : list (result A)) : option (list A) :=
  match l with
  | [] => Some []
  | Ok a :: l' => match all_ok l' with Some r => Some (a :: r) | None => None end
  | Raise _ :: _ => None
  end.

Definition member_predictions (pipe : pipeline) (X : row) : option (list Q) :=
  match named_steps pipe !! "model"%string with
  | Some m =>
      match estimators_ m with
      | Some ests => all_ok (List.map (fun e => est_predict e X) ests)
      | None => None
      end
  | None => None
  end.

(** The request with another list of genres. *)
Definition set_genres (req : PredictRequest) (gs : list str) : PredictRequest :=
  {| duration := duration req; budget := budget req; title_year := title_year req;
     genres := gs; content_rating := content_rating req |}.

(** The request with another content rating. *)
Definition set_rating (req : PredictRequest) (cr : str) : PredictRequest :=
  {| duration := duration req; budget := budget req; title_year := title_year req;
     genres := genres req; content_rating := cr |}.

(** ** Concrete data *)

Definition demo_enc : GenresBinarizer :=
  snd (fit (Series [Some (py "Drama|Comedy"); Some (py "Drama| Action"); None;
                    Some (py "Drama|Comedy")])
           (init None 30)).

Definition demo_forest : pipeline :=
  {| pipe_predict := fun X => Ok (if (row_duration X <? 100)%Z then 6.4321 else 10.7)%Q;
     named_steps := {[ "model"%string :=
       {| estimators_ := Some [ {| est_predict := fun _ => Ok 6%Q |};
                                {| est_predict := fun _ => Ok 7%Q |} ] |} ]} |}.

(** Two members that predict 6.0 and 6.03125: the deviation is
    0.015625, exactly. *)
Definition close_forest : pipeline :=
  {| pipe_predict := fun _ => Ok (385 # 64)%Q;
     named_steps := {[ "model"%string :=
       {| estimators_ := Some [ {| est_predict := fun _ => Ok 6%Q |};
                                {| est_predict := fun _ => Ok (193 # 32)%Q |} ] |} ]} |}.

(** Two members that predict 0.0 and 0.125: the deviation is 0.0625,
    and [1 - 0.0625 / 2.5] is 0.975 but for the rounding. *)
Definition tie_forest : pipeline :=
  {| pipe_predict := fun _ => Ok (1 # 16)%Q;
     named_steps := {[ "model"%string :=
       {| estimators_ := Some [ {| est_predict := fun _ => Ok 0%Q |};
                                {| est_predict := fun _ => Ok (1 # 8)%Q |} ] |} ]} |}.

Definition demo_req : PredictRequest :=
  {| duration := 90; budget := 1000; title_year := 2015;
     genres := [py " Action"; py "  "; py "Drama "]; content_rating := py "PG-13" |}.

(** * The rest of the three files *)

(** An exception of a class the part above does not need, next to the
    ones it has. *)
Inductive py_exn : Type :=
| Exn (e : exn)
| TypeError (msg : string).

Inductive py_result (A : Type) : Type :=
| Return (a : A)
| Throw (e : py_exn).
Arguments Return {A} a.
Arguments Throw {A} e.

(** ** transformers.py: [get_feature_names_out] *)

(** [[f"genre__{g}" for g in self.classes_]]; iterating over [None]
    raises. *)
Definition get_feature_names_out (self : GenresBinarizer) : py_result (list str) :=
  match classes_ self with
  | None => Throw (TypeError "'NoneType' object is not iterable")
  | Some c => Return (List.map (fun g => py "genre__" ++ g) c)
  end.

(** ** train_model_reg.py: [load_data], the content rating column *)

(** The dictionary [replacements]. *)
Definition replacements : gmap str str :=
  <[py "M" := py "PG"]> (<[py "GP" := py "PG"]> (<[py "TV-14 " := py "TV-14"]>
    (<[py "TV MA" := py "TV-MA"]> ∅))).

(** [Series.replace(d)] on one value: a value that is a key becomes the
    value stored under it, any other stays. *)
Definition series_replace (d : gmap str str) (v : str) : str :=
  default v (d !! v).

(** [df["content_rating"].fillna("Unrated").astype(str).str.strip()],
    then [.replace(replacements)], on one cell. *)
Definition clean_content_rating (c : cell) : str :=
  series_replace replacements (strip (default (py "Unrated") c)).

(** ** train_model_reg.py: [make_one_hot_encoder] *)

Inductive kwval : Type :=
| KStr (s : string)
| KBool (b : bool).

(** Keyword arguments, in the order they are written. *)
Definition kwargs := list (string * kwval).

(** The list the loop goes through. *)
Definition ohe_specs : list kwargs :=
  [ [("handle_unknown", KStr "ignore"); ("sparse_output", KBool false)];
    [("handle_unknown", KStr "ignore"); ("sparse", KBool false)];
    [("sparse", KBool false)];
    [] ]%string.

Section OneHot.

(** The constructor of the installed scikit-learn. *)
Variable encoder : Type.
Variable OneHotEncoder : kwargs -> py_result encoder.

(** The [for] loop: a [TypeError] moves on to the next spec, anything
    else leaves the function; after the loop, [OneHotEncoder()]. *)
Fixpoint try_specs (specs : list kwargs) : py_result encoder :=
  match specs with
  | [] => OneHotEncoder []
  | spec :: rest =>
      match OneHotEncoder spec with
      | Return e => Return e
      | Throw (TypeError _) => try_specs rest
      | Throw e => Throw e
      end
  end.

Definition make_one_hot_encoder : py_result encoder := try_specs ohe_specs.

(** The constructor does not take the arguments of [spec]. *)
Definition refused (spec : kwargs) : Prop :=
  exists m, OneHotEncoder spec = Throw (TypeError m).

End OneHot.

(** ** train_model_reg.py: [compute_meta] *)

Definition BIN_MODE : str := py "quantile".
Definition MODE : str := py "MULTICLASS".
Definition ALGO : str := py "xgb".

(** The columns of the loaded frame that [compute_meta] reads. A numeric
    cell is a number or missing (NaN). *)
Record frame : Type := {
  df_duration : list (option Q);
  df_budget : list (option Q);
  df_title_year : list (option Q);
  df_content_rating : list str
}.

(** [Series.min(skipna=True)] and [Series.max(skipna=True)]: the least
    and the greatest of the numbers present, NaN ([None]) when there is
    none. *)
Definition series_min (col : list (option Q)) : option Q :=
  foldr (fun c acc =>
           match c, acc with
           | Some x, Some m => Some (if Qltb x m then x else m)
           | Some x, None => Some x
           | None, _ => acc
           end) None col.

Definition series_max (col : list (option Q)) : option Q :=
  foldr (fun c acc =>
           match c, acc with
           | Some x, Some m => Some (if Qltb m x then x else m)
           | Some x, None => Some x
           | None, _ => acc
           end) None col.

(** [int(x)]: the integer towards zero; NaN raises. (On an infinity,
    which is not among the cells here, [int] raises [OverflowError].) *)
Definition py_int (x : option Q) : result Z :=
  match x with
  | Some q => Ok (Z.quot (Qnum q) (Z.pos (Qden q)))
  | None => Raise (ValueError "cannot convert float NaN to integer")
  end.

(** [x or 0]: zero is false, every other float, NaN too, is true. *)
Definition or_zero (x : option Q) : option Q :=
  match x with
  | Some q => if Qeqb q 0 then Some 0%Q else Some q
  | None => None
  end.

Record meta_doc : Type := {
  meta_allowed_content_ratings : list str;
  meta_genres_vocab : list str;
  meta_numeric_ranges : (Z * Z) * (Z * Z) * (Z * Z);
  meta_class_edges : list Q;
  meta_class_labels : list str;
  meta_bin_mode : str;
  meta_mode : str;
  meta_algo : str
}.

Definition compute_meta (df : frame) (genres_vocab : list str)
           (class_edges : list Q) (class_labels : list str) : result meta_doc :=
  let rating_counts := value_counts (df_content_rating df) in
  let allowed_ratings := List.map fst rating_counts in
  rbind (py_int (series_min (df_duration df))) (fun dmin =>
  rbind (py_int (series_max (df_duration df))) (fun dmax =>
  rbind (py_int (or_zero (series_min (df_budget df)))) (fun bmin =>
  rbind (py_int (or_zero (series_max (df_budget df)))) (fun bmax =>
  rbind (py_int (series_min (df_title_year df))) (fun ymin =>
  rbind (py_int (series_max (df_title_year df))) (fun ymax =>
  Ok {| meta_allowed_content_ratings := allowed_ratings;
        meta_genres_vocab := genres_vocab;
        meta_numeric_ranges := ((dmin, dmax), (bmin, bmax), (ymin, ymax));
        meta_class_edges := class_edges;
        meta_class_labels := class_labels;
        meta_bin_mode := BIN_MODE;
        meta_mode := MODE;
        meta_algo := ALGO |})))))).

(** ** server_reg.py: loading the artifacts, [/meta] and [/health] *)

(** The metadata document, as far as the module reads it; a field is
    [None] when the key is absent. *)
Record META_doc : Type := {
  META_allowed_content_ratings : option (list str);
  META_genres_vocab : option (list str);
  META_target_range_observed : option (list Q);
  META_numeric_ranges : option (list (str * (Z * Z)))
}.

(** The module globals. *)
Record globals (metrics_doc : Type) : Type := {
  g_pipe : pipeline;
  g_META : META_doc;
  g_metrics : option metrics_doc;
  g_ALLOWED_CONTENT_RATINGS : gset str;
  g_GENRES_VOCAB : list str;
  g_OBSERVED_MIN : Q;
  g_OBSERVED_MAX : Q
}.
Arguments g_pipe {metrics_doc} _.
Arguments g_META {metrics_doc} _.
Arguments g_metrics {metrics_doc} _.
Arguments g_ALLOWED_CONTENT_RATINGS {metrics_doc} _.
Arguments g_GENRES_VOCAB {metrics_doc} _.
Arguments g_OBSERVED_MIN {metrics_doc} _.
Arguments g_OBSERVED_MAX {metrics_doc} _.

(** The module body, given what the three paths hold ([None]: the file
    does not exist), once [load] and [json.load] have read it and with
    the metadata of the types the module expects; what reading a
    damaged file or an ill-typed document raises is not represented.
    [g_metrics] is [None] for the empty dictionary the module starts
    with. *)
Definition load_artifacts {metrics_doc : Type}
           (model_file : option pipeline) (meta_file : option META_doc)
           (metrics_file : option metrics_doc) : result (globals metrics_doc) :=
  match model_file, meta_file with
  | Some pipe, Some META =>
      let allowed := list_to_set (default [] (META_allowed_content_ratings META)) in
      let vocab := default [] (META_genres_vocab META) in
      match default [0; 10]%Q (META_target_range_observed META) with
      | [lo; hi] =>
          Ok {| g_pipe := pipe; g_META := META; g_metrics := metrics_file;
                g_ALLOWED_CONTENT_RATINGS := allowed; g_GENRES_VOCAB := vocab;
                g_OBSERVED_MIN := lo; g_OBSERVED_MAX := hi |}
      | [] | [_] => Raise (ValueError "not enough values to unpack")
      | _ => Raise (ValueError "too many values to unpack")
      end
  | _, _ => Raise (RuntimeError "Regression artifacts missing.")
  end.

(** The order of [str]: by code points, a proper prefix first. *)
Fixpoint str_leb (a b : str) : bool :=
  match a, b with
  | [], _ => true
  | _ :: _, [] => false
  | x :: a', y :: b' =>
      if (x <? y)%N then true
      else if (y <? x)%N then false
      else str_leb a' b'
  end.

(** [sorted(s)] for a set of strings. *)
Definition sorted (s : gset str) : list str :=
  merge_sort (fun a b => str_leb a b) (elements s).

Record meta_response (metrics_doc : Type) : Type := {
  resp_mode : str;
  resp_allowed_content_ratings : list str;
  resp_genres_vocab : list str;
  resp_numeric_ranges : list (str * (Z * Z));
  resp_observed_score_range : list Q;
  resp_metrics : option metrics_doc
}.
Arguments resp_mode {metrics_doc} _.
Arguments resp_allowed_content_ratings {metrics_doc} _.
Arguments resp_genres_vocab {metrics_doc} _.
Arguments resp_numeric_ranges {metrics_doc} _.
Arguments resp_observed_score_range {metrics_doc} _.
Arguments resp_metrics {metrics_doc} _.

(** [meta()] *)
Definition meta {metrics_doc : Type} (g : globals metrics_doc) : meta_response metrics_doc :=
  {| resp_mode := py "REGRESSION";
     resp_allowed_content_ratings := sorted (g_ALLOWED_CONTENT_RATINGS g);
     resp_genres_vocab := g_GENRES_VOCAB g;
     resp_numeric_ranges := default [] (META_numeric_ranges (g_META g));
     resp_observed_score_range := [g_OBSERVED_MIN g; g_OBSERVED_MAX g];
     resp_metrics := g_metrics g |}.

(** [health()] *)
Definition health : str * str := (py "ok", py "REGRESSION").

(** The handler of a loaded module. *)
Definition serve {metrics_doc : Type} (g : globals metrics_doc) (np_std : list Q -> Q)
  : PredictRequest -> M (list event) PredictResponse :=
  predict (g_ALLOWED_CONTENT_RATINGS g) (g_pipe g) np_std.

(** ** Vocabulary of the statements about quantile mode *)

(** What the statements ask of the array of edges the quantile routine
    returns for a sample: one edge per quantile, in non-decreasing
    order, the first not above and the last not below any value of the
    sample (numpy returns the least value of the sample at quantile 0
    and the greatest at quantile 1). *)
Definition edges_fit (raw y : list Q) (q : nat) : bool :=
  (length raw =? S q)%nat && nondecreasing raw &&
  match raw, last raw with
  | lo :: _, Some hi => forallb (fun x => Qleb lo x && Qleb x hi) y
  | _, _ => false
  end.

(** ** Vocabulary of the statements about the handlers *)

(** The number of leading results that are no exception. *)
Fixpoint ok_prefix {A} (l : list (result A)) : nat :=
  match l with
  | Ok _ :: l' => S (ok_prefix l')
  | _ => 0%nat
  end.

(** The members of the step named "model": none without such a step
    or without [estimators_]. *)
Definition members (pipe : pipeline) : list estimator :=
  match named_steps pipe !! "model"%string with
  | Some m => default [] (estimators_ m)
  | None => []
  end.

(** How many members are asked for a prediction on [X]: all of them,
    or those up to the first one that raises. *)
Definition asked (pipe : pipeline) (X : row) : nat :=
  Nat.min (length (members pipe))
          (S (ok_prefix (List.map (fun e => est_predict e X) (members pipe)))).

(** A pipeline whose [predict] raises. *)
Definition broken_pipe : pipeline :=
  {| pipe_predict := fun _ => Raise (ValueError "could not convert string to float");
     named_steps := {[ "model"%string :=
       {| estimators_ := Some [ {| est_predict := fun _ => Ok 6%Q |} ] |} ]} |}.

(** A forest whose second member raises. *)
Definition failing_forest : pipeline :=
  {| pipe_predict := fun _ => Ok (13 # 2)%Q;
     named_steps := {[ "model"%string :=
       {| estimators_ := Some [ {| est_predict := fun _ => Ok 6%Q |};
                                {| est_predict := fun _ => Raise IndexError |};
                                {| est_predict := fun _ => Ok 7%Q |} ] |} ]} |}.

(** ** Vocabulary of the statements about the metadata *)

(** The column holds a number. *)
Definition has_number (col : list (option Q)) : Prop := exists x, Some x ∈ col.

(** [lo] and [hi] are what [int] makes of two numbers of the column,
    and what it makes of any number of the column lies between them. *)
Definition covers (col : list (option Q)) (lo hi : Z) : Prop :=
  (lo <= hi)%Z /\
  (exists x, Some x ∈ col /\ py_int (Some x) = Ok lo) /\
  (exists x, Some x ∈ col /\ py_int (Some x) = Ok hi) /\
  forall x, Some x ∈ col -> exists t, py_int (Some x) = Ok t /\ (lo <= t <= hi)%Z.

(** A small frame: one budget is missing, one rating is missing and
    one is spelt the old way. *)
Definition demo_frame : frame :=
  {| df_duration := [Some 90; Some (241 # 2); None]%Q;
     df_budget := [None; Some 0; Some 1500000]%Q;
     df_title_year := [Some 1999; Some 2015; Some 2004]%Q;
     df_content_rating :=
       List.map clean_content_rating [Some (py "PG-13"); None; Some (py " GP ")] |}.

(** A metadata document as the server reads it. *)
Definition demo_META : META_doc :=
  {| META_allowed_content_ratings := Some [py "R"; py "PG-13"; py "G"; py "PG-13"];
     META_genres_vocab := Some [py "Drama"; py "Comedy"];
     META_target_range_observed := Some [(8 # 5); (93 # 10)]%Q;
     META_numeric_ranges := None |}.

(** * Properties *)

(** ** Runs on concrete data *)

Example split_demo :
  split pipe (py "Action| Drama ||x") = [py "Action"; py " Drama "; py ""; py "x"].
Proof. vm_compute. reflexivity. Qed.

Example strip_demo : strip (py "  Sci-Fi ") = py "Sci-Fi".
Proof. vm_compute. reflexivity. Qed.

Example fit_demo : classes_ demo_enc = Some [py "Drama"; py "Comedy"; py "Action"].
Proof. vm_compute. reflexivity. Qed.

Example transform_demo :
  fst (transform (Series [Some (py "Comedy|Comedy|Western"); None; Some (py " Action |Drama")]) demo_enc)
  = Ok [[0;1;0];[0;0;0];[1;0;1]]%Q.
Proof. vm_compute. reflexivity. Qed.

Example make_bins_fixed_demo :
  make_bins [3; 5; 13 # 2; 7; 10; 11; -1]%Q (py "fixed") N_CLASSES FIXED_EDGES
  = Some (Ok ([0; 1; 2; 2; 4; 4; 0]%Z,
              [0; 5; 13 # 2; 15 # 2; 17 # 2; 10]%Q,
              [py "[0.0, 5.0)"; py "[5.0, 6.5)"; py "[6.5, 7.5)"; py "[7.5, 8.5)"; py "[8.5, 10.0]"])).
Proof. vm_compute. reflexivity. Qed.

(** 0.1 is the double 0x1.999999999999ap-4, and 0.1 + 0.2 is the
    double above 0.3. *)
Example fl_demo :
  fl (1 # 10) = (3602879701896397 # 36028797018963968)%Q /\
  fadd (fl (1 # 10)) (fl (2 # 10)) = (1351079888211149 # 4503599627370496)%Q /\
  fl (3 # 10) = (5404319552844595 # 18014398509481984)%Q /\
  fl (1351079888211149 # 4503599627370496) = (1351079888211149 # 4503599627370496)%Q.
Proof. repeat split; vm_compute; reflexivity. Qed.

Example predict_demo :
  predict {[ py "PG-13" ]} demo_forest std6 demo_req []
  = (Ok {| predicted_score := 6.43; confidence := 4 # 5;
           explanation := "Features used: duration, budget, title_year, content_rating, genres (multi-hot)." |},
     [PipePredict (make_row demo_req); EstimatorPredict 0 (make_row demo_req);
      EstimatorPredict 1 (make_row demo_req)]).
Proof. vm_compute. reflexivity. Qed.

(** ** Strings *)

Section StringFacts.

Lemma lstrip_blank_app w s : blank w -> lstrip (w ++ s) = lstrip s.
Proof.
  induction 1 as [|c w Hc _ IH]; simpl; [reflexivity|].
  rewrite Hc. exact IH.
Qed.

Lemma lstrip_blank w : blank w -> lstrip w = [].
Proof.
  intros H. rewrite <- (app_nil_r w). rewrite lstrip_blank_app by assumption.
  reflexivity.
Qed.

Lemma lstrip_app_not_blank s w : ~ blank s -> lstrip (s ++ w) = lstrip s ++ w.
Proof.
  induction s as [|c s IH]; intros Hnb.
  - exfalso. apply Hnb. constructor.
  - simpl. destruct (isspace c) eqn:Hc; [|reflexivity].
    apply IH. intros Hb. apply Hnb. constructor; assumption.
Qed.

Lemma blank_dec s : {blank s} + {~ blank s}.
Proof. apply Forall_dec. intros c. destruct (isspace c); [left|right]; congruence. Qed.

Lemma blank_rev w : blank w -> blank (rev w).
Proof. apply Forall_rev. Qed.

Lemma blank_app w1 w2 : blank w1 -> blank w2 -> blank (w1 ++ w2).
Proof. unfold blank. intros. apply Forall_app. split; assumption. Qed.

Lemma lstrip_prefix s : exists w, blank w /\ s = w ++ lstrip s.
Proof.
  induction s as [|c s [w [Hw Hs]]].
  - exists []. split; [constructor | reflexivity].
  - simpl. destruct (isspace c) eqn:Hc.
    + exists (c :: w). split; [constructor; assumption|]. simpl. congruence.
    + exists []. split; [constructor | reflexivity].
Qed.

Lemma rstrip_suffix s : exists w, blank w /\ s = rstrip s ++ w.
Proof.
  destruct (lstrip_prefix (rev s)) as [w [Hw Hs]].
  exists (rev w). split; [apply blank_rev; assumption|].
  unfold rstrip. rewrite <- rev_app_distr, <- Hs, rev_involutive. reflexivity.
Qed.

Lemma rstrip_app_blank s w : blank w -> rstrip (s ++ w) = rstrip s.
Proof.
  intros Hw. unfold rstrip. rewrite rev_app_distr.
  rewrite lstrip_blank_app by (apply blank_rev; assumption). reflexivity.
Qed.

Lemma strip_blank w : blank w -> strip w = [].
Proof. intros Hw. unfold strip. rewrite lstrip_blank by assumption. reflexivity. Qed.

(** Whitespace around a string does not change what [strip] returns. *)
Lemma strip_around w1 s w2 : blank w1 -> blank w2 -> strip (w1 ++ s ++ w2) = strip s.
Proof.
  intros H1 H2. unfold strip. rewrite lstrip_blank_app by assumption.
  destruct (blank_dec s) as [Hs|Hs].
  - rewrite lstrip_blank_app, (lstrip_blank w2), (lstrip_blank s) by assumption.
    reflexivity.
  - rewrite lstrip_app_not_blank by assumption.
    apply rstrip_app_blank. assumption.
Qed.

Lemma strip_decompose s : exists w1 w2, blank w1 /\ blank w2 /\ s = w1 ++ strip s ++ w2.
Proof.
  destruct (lstrip_prefix s) as [w1 [H1 Hs]].
  destruct (rstrip_suffix (lstrip s)) as [w2 [H2 Hl]].
  exists w1, w2. repeat split; try assumption.
  unfold strip. rewrite <- Hl. exact Hs.
Qed.

Lemma strip_idemp s : strip (strip s) = strip s.
Proof.
  destruct (strip_decompose s) as [w1 [w2 [H1 [H2 Hs]]]].
  rewrite Hs at 2. rewrite strip_around by assumption. reflexivity.
Qed.

Lemma strip_nil_blank s : strip s = [] <-> blank s.
Proof.
  split.
  - intros H. destruct (strip_decompose s) as [w1 [w2 [H1 [H2 Hs]]]].
    rewrite Hs, H. simpl. apply blank_app; assumption.
  - apply strip_blank.
Qed.

Lemma truthy_strip_blank s : truthy (strip s) = false <-> blank s.
Proof.
  rewrite <- strip_nil_blank. destruct (strip s); simpl; split; congruence.
Qed.

Lemma split_not_nil sep s : split sep s <> [].
Proof.
  destruct s as [|c s]; simpl; [discriminate|].
  destruct (c =? sep)%N; [discriminate|].
  destruct (split sep s); discriminate.
Qed.

(** Splitting on both sides of a separator. *)
Lemma split_app sep a b : split sep (a ++ sep :: b) = split sep a ++ split sep b.
Proof.
  induction a as [|c a IH]; simpl.
  - rewrite N.eqb_refl. reflexivity.
  - destruct (c =? sep)%N.
    + rewrite IH. reflexivity.
    + rewrite IH. destruct (split sep a) eqn:Ha.
      * exfalso. eapply split_not_nil; eassumption.
      * reflexivity.
Qed.

End StringFacts.

(** ** GenresBinarizer *)

Section EncoderFacts.

Lemma idx_map_from_snoc (c : list str) (x : str) :
  idx_map_from (c ++ [x]) = <[x := length c]> (idx_map_from c).
Proof.
  unfold idx_map_from. rewrite imap_app, foldl_app. simpl.
  rewrite Nat.add_0_r. reflexivity.
Qed.

(** The dictionary sends a token to its last position in the
    vocabulary. *)
Lemma idx_map_from_lookup (c : list str) (g : str) (i : nat) :
  idx_map_from c !! g = Some i <-> c !! i = Some g /\ g ∉ drop (S i) c.
Proof.
  revert i. induction c as [|x c IH] using rev_ind; intros i.
  - unfold idx_map_from. simpl. rewrite lookup_empty. split; [discriminate|].
    intros [H _]. discriminate.
  - rewrite idx_map_from_snoc.
    destruct (decide (x = g)) as [->|Hne].
    + rewrite lookup_insert_eq. split.
      * intros [= <-]. split.
        -- rewrite lookup_app_r by lia. rewrite Nat.sub_diag. reflexivity.
        -- rewrite drop_ge; [apply not_elem_of_nil|]. rewrite length_app. simpl. lia.
      * intros [Hi Hlast]. f_equal.
        destruct (decide (i = length c)) as [|Hi']; [congruence|].
        exfalso. apply Hlast.
        assert (i < length (c ++ [g])) by (eapply lookup_lt_Some; eassumption).
        rewrite length_app in H. simpl in H.
        rewrite drop_app_le by lia. apply elem_of_app. right. apply list_elem_of_singleton.
        reflexivity.
    + rewrite lookup_insert_ne by assumption. rewrite IH. split.
      * intros [Hi Hlast].
        assert (i < length c) by (eapply lookup_lt_Some; eassumption).
        split; [rewrite lookup_app_l by assumption; assumption|].
        rewrite drop_app_le by lia. intros Hin. apply elem_of_app in Hin.
        destruct Hin as [Hin|Hin]; [tauto|].
        apply list_elem_of_singleton in Hin. congruence.
      * intros [Hi Hlast].
        assert (i < length (c ++ [x])) by (eapply lookup_lt_Some; eassumption).
        rewrite length_app in H. simpl in H.
        destruct (decide (i = length c)) as [->|Hi'].
        -- rewrite lookup_app_r in Hi by lia. rewrite Nat.sub_diag in Hi.
           simpl in Hi. congruence.
        -- rewrite lookup_app_l in Hi by lia. split; [assumption|].
           intros Hin. apply Hlast. rewrite drop_app_le by lia.
           apply elem_of_app. left. assumption.
Qed.

Lemma idx_map_from_lt (c : list str) (g : str) (i : nat) :
  idx_map_from c !! g = Some i -> i < length c.
Proof.
  intros H. apply idx_map_from_lookup in H. destruct H as [H _].
  eapply lookup_lt_Some; eassumption.
Qed.

Lemma mark_vec_cons idx g gl v :
  mark_vec idx (g :: gl) v
  = mark_vec idx gl (match idx !! g with Some i => <[i := 1%Q]> v | None => v end).
Proof. reflexivity. Qed.

Lemma mark_vec_length idx gl v : length (mark_vec idx gl v) = length v.
Proof.
  revert v. induction gl as [|g gl IH]; intros v; [reflexivity|].
  rewrite mark_vec_cons, IH.
  destruct (idx !! g); [apply length_insert | reflexivity].
Qed.

(** An entry of the row is set exactly when some tag of the row is
    mapped to its position; other entries keep their value. *)
Lemma mark_vec_lookup idx gl (v : list Q) (i : nat) :
  i < length v ->
  mark_vec idx gl v !! i
  = if decide (Exists (fun g => idx !! g = Some i) gl) then Some 1%Q else v !! i.
Proof.
  revert v. induction gl as [|g gl IH]; intros v Hi.
  - rewrite decide_False by (intros H; inversion H). reflexivity.
  - rewrite mark_vec_cons.
    destruct (idx !! g) as [j|] eqn:Hg.
    + rewrite IH by (rewrite length_insert; assumption).
      destruct (decide (j = i)) as [->|Hne].
      * rewrite list_lookup_insert_eq by assumption.
        rewrite (decide_True (P := Exists _ (g :: gl)))
          by (constructor; assumption).
        case_decide; reflexivity.
      * rewrite list_lookup_insert_ne by assumption.
        destruct (decide (Exists (fun g => idx !! g = Some i) gl)) as [H|H].
        -- rewrite decide_True by (apply Exists_cons_tl; assumption). reflexivity.
        -- rewrite decide_False; [reflexivity|].
           intros H'. inversion H'; subst; [congruence | tauto].
    + rewrite IH by assumption.
      destruct (decide (Exists (fun g => idx !! g = Some i) gl)) as [H|H].
      * rewrite decide_True by (apply Exists_cons_tl; assumption). reflexivity.
      * rewrite decide_False; [reflexivity|].
        intros H'. inversion H'; subst; [congruence | tauto].
Qed.

Lemma mark_row_alter idx row out gl :
  mark_row idx row out gl = alter (mark_vec idx gl) row out.
Proof.
  revert out. induction gl as [|g gl IH]; intros out.
  - simpl. symmetry. apply list_alter_id. intros v. reflexivity.
  - unfold mark_row in *. simpl. rewrite IH.
    destruct (idx !! g) as [j|] eqn:Hg.
    + unfold set_entry. rewrite list_alter_alter_eq.
      apply list_alter_ext; [|reflexivity]. intros v _.
      rewrite mark_vec_cons, Hg. reflexivity.
    + apply list_alter_ext; [|reflexivity]. intros v _.
      rewrite mark_vec_cons, Hg. reflexivity.
Qed.

(** The outer loop: row [r] of the result is the marking of row [r]
    of the matrix it starts from. *)
Lemma rows_loop idx (lists : list (list str)) (pre rest : list (list Q)) :
  length rest = length lists ->
  foldl (fun out (rg : nat * list str) => mark_row idx rg.1 out rg.2)
        (pre ++ rest)
        (imap (fun row glist => (length pre + row, glist)) lists)
  = pre ++ zip_with (mark_vec idx) lists rest.
Proof.
  revert pre rest. induction lists as [|gl lists IH]; intros pre rest Hlen.
  - destruct rest; [reflexivity | discriminate].
  - destruct rest as [|r rest]; [discriminate|]. simpl in Hlen.
    simpl. rewrite mark_row_alter. rewrite alter_app_r. simpl.
    replace (pre ++ mark_vec idx gl r :: rest)
      with ((pre ++ [mark_vec idx gl r]) ++ rest)
      by (rewrite <- app_assoc; reflexivity).
    rewrite (imap_ext _ (fun row glist => (length (pre ++ [mark_vec idx gl r]) + row, glist))).
    + rewrite IH by lia. rewrite <- app_assoc. reflexivity.
    + intros i x _. simpl. rewrite length_app. simpl. f_equal. lia.
Qed.

(** What [transform] computes on a fitted encoder: one marked row of
    zeros per cell, and the encoder as it was. *)
Lemma transform_fitted (X : array_like) (self : GenresBinarizer)
      (c : list str) (vals : list cell) :
  classes_ self = Some c ->
  _to_1d X = Ok vals ->
  transform X self
  = (Ok (List.map (fun x => mark_vec (idx_map_from c) (tags_of (fillna x))
                                     (replicate (length c) 0%Q)) vals),
     self).
Proof.
  intros Hc HX. unfold transform, bind, get, lift, ret, raise.
  rewrite Hc, HX. f_equal. f_equal.
  pose proof (rows_loop (idx_map_from c) (List.map tags_of (List.map fillna vals)) []
                        (zeros (length (List.map tags_of (List.map fillna vals))) (length c)))
    as H.
  simpl in H. rewrite H by (unfold zeros; rewrite length_replicate; reflexivity).
  clear H HX. unfold zeros. rewrite !length_map.
  induction vals as [|x vals IH]; simpl; [reflexivity|].
  f_equal. exact IH.
Qed.

End EncoderFacts.

Section EncoderProperties.

Lemma row_entry (c gl : list str) (i : nat) (g : str) :
  c !! i = Some g ->
  mark_vec (idx_map_from c) gl (replicate (length c) 0%Q) !! i
  = Some (if decide (g ∈ gl /\ g ∉ drop (S i) c) then 1%Q else 0%Q).
Proof.
  intros Hi.
  assert (Hlt : i < length c) by (eapply lookup_lt_Some; eassumption).
  rewrite mark_vec_lookup by (rewrite length_replicate; assumption).
  rewrite lookup_replicate_2 by assumption.
  destruct (decide (g ∈ gl /\ g ∉ drop (S i) c)) as [[Hin Hlast]|Hno].
  - rewrite decide_True; [reflexivity|].
    apply Exists_exists. exists g. split; [assumption|].
    apply idx_map_from_lookup. split; assumption.
  - rewrite decide_False; [reflexivity|].
    intros Hex. apply Exists_exists in Hex. destruct Hex as [g' [Hin Hg']].
    apply idx_map_from_lookup in Hg'. destruct Hg' as [Hg' Hlast].
    assert (g' = g) by congruence. subst g'. tauto.
Qed.

Lemma NoDup_not_later (c : list str) (i : nat) (g : str) :
  NoDup c -> c !! i = Some g -> g ∉ drop (S i) c.
Proof.
  intros Hnd Hi Hin. apply list_elem_of_lookup in Hin. destruct Hin as [k Hk].
  rewrite lookup_drop in Hk.
  pose proof (NoDup_lookup _ _ _ _ Hnd Hi Hk). lia.
Qed.

Lemma split_no_sep sep s : sep ∉ s -> split sep s = [s].
Proof.
  induction s as [|ch s IH]; intros Hs; [reflexivity|].
  simpl. destruct (N.eqb_spec ch sep) as [->|Hne].
  - exfalso. apply Hs. left.
  - rewrite IH; [reflexivity|]. intros Hin. apply Hs. right. assumption.
Qed.

Lemma blank_no_pipe s : blank s -> pipe ∉ s.
Proof.
  intros Hb Hin. unfold blank in Hb. rewrite Forall_forall in Hb.
  specialize (Hb _ Hin). vm_compute in Hb. discriminate.
Qed.

(** A cell of whitespace only, the empty and the missing one included,
    has no tag. *)
Lemma tags_of_blank s : blank s -> tags_of s = [].
Proof.
  intros Hb. unfold tags_of. rewrite split_no_sep by (apply blank_no_pipe; assumption).
  rewrite filter_cons_False; [reflexivity|].
  apply truthy_strip_blank in Hb. rewrite Hb, andb_false_r. auto.
Qed.

Lemma tags_of_twice s : tags_of (s ++ pipe :: s) = tags_of s ++ tags_of s.
Proof. unfold tags_of. rewrite split_app, filter_app, map_app. reflexivity. Qed.

(** The row depends on the set of its tags only. *)
Lemma mark_vec_same_tags idx (l1 l2 : list str) (v : list Q) :
  (forall g, g ∈ l1 <-> g ∈ l2) -> mark_vec idx l1 v = mark_vec idx l2 v.
Proof.
  intros Hsame. apply list_eq. intros i.
  destruct (decide (i < length v)) as [Hi|Hi].
  - rewrite !mark_vec_lookup by assumption.
    destruct (decide (Exists (fun g => idx !! g = Some i) l1)) as [H1|H1].
    + rewrite decide_True; [reflexivity|].
      apply Exists_exists in H1. destruct H1 as [g [Hin Hg]].
      apply Exists_exists. exists g. split; [apply Hsame|]; assumption.
    + rewrite decide_False; [reflexivity|].
      intros H2. apply H1.
      apply Exists_exists in H2. destruct H2 as [g [Hin Hg]].
      apply Exists_exists. exists g. split; [apply Hsame|]; assumption.
  - rewrite !lookup_ge_None_2 by (rewrite ?mark_vec_length; lia). reflexivity.
Qed.

(** C1, as amended. On a fitted encoder [transform] returns, for every
    row, a vector as long as the vocabulary; its entry [i] is 1.0
    exactly when the token at position [i] of the vocabulary is among
    the tags of the row and does not occur again at a later position
    of the vocabulary, and 0.0 otherwise. For a vocabulary without
    repeated tokens this is: exactly when the token is among the tags.
    Tags outside the vocabulary raise nothing, and a row without tags
    (an empty, missing or whitespace-only cell) gives the zero
    vector. *)
Theorem transform_multi_hot (self : GenresBinarizer) (c : list str)
        (X : array_like) (vals : list cell) :
  classes_ self = Some c ->
  _to_1d X = Ok vals ->
  exists out,
    transform X self = (Ok out, self) /\
    length out = length vals /\
    forall r x, vals !! r = Some x ->
      exists v,
        out !! r = Some v /\
        length v = length c /\
        (forall i g, c !! i = Some g ->
           v !! i = Some (if decide (g ∈ tags_of (fillna x) /\ g ∉ drop (S i) c)
                          then 1%Q else 0%Q)) /\
        (NoDup c -> forall i g, c !! i = Some g ->
           v !! i = Some (if decide (g ∈ tags_of (fillna x)) then 1%Q else 0%Q)) /\
        (blank (fillna x) -> v = replicate (length c) 0%Q).
Proof.
  intros Hc HX. eexists. split; [apply transform_fitted; eassumption|].
  split; [apply length_map|].
  intros r x Hr. eexists. split.
  { rewrite list_lookup_fmap, Hr. reflexivity. }
  split; [rewrite mark_vec_length; apply length_replicate|].
  split; [intros i g Hi; apply row_entry; assumption|].
  split.
  - intros Hnd i g Hi. rewrite (row_entry _ _ _ _ Hi).
    pose proof (NoDup_not_later _ _ _ Hnd Hi) as Hlast.
    destruct (decide (g ∈ tags_of (fillna x))) as [Hin|Hin].
    + rewrite decide_True by tauto. reflexivity.
    + rewrite decide_False by tauto. reflexivity.
  - intros Hb. rewrite tags_of_blank by assumption. reflexivity.
Qed.

Lemma transform_multi_hot_witness :
  exists out,
    transform (Series [Some (py "Comedy|Western"); None]) demo_enc = (Ok out, demo_enc) /\
    length out = 2%nat.
Proof.
  destruct (transform_multi_hot demo_enc [py "Drama"; py "Comedy"; py "Action"]
              (Series [Some (py "Comedy|Western"); None])
              [Some (py "Comedy|Western"); None])
    as [out [H1 [H2 _]]].
  - vm_compute. reflexivity.
  - reflexivity.
  - exists out. split; assumption.
Defined.

(** C1 as stated fails when the vocabulary repeats a token: an encoder
    built with the vocabulary ["A", "A"] and fit on the column ["A|B"]
    encodes the row "A" as [0.0, 1.0], although the token at position 0
    is a tag of the row. *)
Lemma transform_multi_hot_counterexample :
  ~ (forall (self : GenresBinarizer) (c : list str) (x : cell),
       classes_ self = Some c ->
       exists v,
         fst (transform (Series [x]) self) = Ok [v] /\
         forall i g, c !! i = Some g ->
           v !! i = Some (if decide (g ∈ tags_of (fillna x)) then 1%Q else 0%Q)).
Proof.
  intros H.
  specialize (H (snd (fit (Series [Some (py "A|B")]) (init (Some [py "A"; py "A"]) 30)))
                [py "A"; py "A"] (Some (py "A")) eq_refl).
  destruct H as [v [Hv H]].
  vm_compute in Hv. injection Hv as <-.
  specialize (H 0%nat (py "A") eq_refl).
  rewrite decide_True in H by (vm_compute; left).
  vm_compute in H. discriminate.
Qed.

(** C9. An encoder whose [classes_] was never set raises on every
    [transform] the error that says it is not fitted, and returns no
    matrix; a fitted encoder never raises that error. *)
Theorem transform_not_fitted (self : GenresBinarizer) (X : array_like) :
  (classes_ self = None ->
   transform X self = (Raise (RuntimeError "GenresBinarizer is not fitted."), self)) /\
  (fst (transform X self) = Raise (RuntimeError "GenresBinarizer is not fitted.") ->
   classes_ self = None).
Proof.
  unfold transform, bind, get, raise, lift, ret. simpl. split.
  - intros ->. reflexivity.
  - destruct (classes_ self) as [c|]; [|reflexivity].
    destruct (_to_1d X) as [vals|e] eqn:HX; simpl; [discriminate|].
    destruct X as [cols| |]; simpl in HX; try discriminate.
    destruct cols as [|? [|? ?]]; try discriminate;
      injection HX as <-; discriminate.
Qed.

Lemma transform_not_fitted_witness :
  transform (Series [Some (py "Drama|Comedy")]) (init None 30)
  = (Raise (RuntimeError "GenresBinarizer is not fitted."), init None 30).
Proof.
  exact (proj1 (transform_not_fitted (init None 30) (Series [Some (py "Drama|Comedy")]))
               eq_refl).
Defined.

(** C6. A tag repeated in a row adds nothing: two rows with the same
    set of tags are encoded alike, and so the row [s|s] is encoded as
    the row [s], whatever the other rows are. *)
Theorem transform_duplicate_tags (self : GenresBinarizer) (c : list str)
        (before after : list cell) :
  classes_ self = Some c ->
  (forall x x' : cell,
     (forall g, g ∈ tags_of (fillna x) <-> g ∈ tags_of (fillna x')) ->
     transform (Series (before ++ x :: after)) self
     = transform (Series (before ++ x' :: after)) self) /\
  (forall s : str,
     exists out,
       transform (Series (before ++ Some s :: after)) self = (Ok out, self) /\
       transform (Series (before ++ Some (s ++ pipe :: s) :: after)) self
       = (Ok out, self)).
Proof.
  intros Hc.
  assert (Hsame : forall x x' : cell,
            (forall g, g ∈ tags_of (fillna x) <-> g ∈ tags_of (fillna x')) ->
            transform (Series (before ++ x :: after)) self
            = transform (Series (before ++ x' :: after)) self).
  { intros x x' Htags.
    erewrite !transform_fitted by (eassumption || reflexivity).
    rewrite !map_app. simpl. f_equal. f_equal. f_equal. f_equal.
    apply mark_vec_same_tags. assumption. }
  split; [exact Hsame|].
  intros s. eexists. split.
  - eapply transform_fitted; [eassumption | reflexivity].
  - etransitivity; [symmetry; apply (Hsame (Some s) (Some (s ++ pipe :: s)))|].
    + intros g. simpl. rewrite tags_of_twice, elem_of_app. tauto.
    + eapply transform_fitted; [eassumption | reflexivity].
Qed.

Lemma transform_duplicate_tags_witness :
  exists out,
    transform (Series [Some (py "Comedy")]) demo_enc = (Ok out, demo_enc) /\
    transform (Series [Some (py "Comedy|Comedy")]) demo_enc = (Ok out, demo_enc).
Proof.
  exact (proj2 (transform_duplicate_tags demo_enc [py "Drama"; py "Comedy"; py "Action"]
                  [] [] eq_refl) (py "Comedy")).
Defined.

Lemma insert_desc_perm p l : insert_desc p l ≡ₚ p :: l.
Proof.
  induction l as [|q l IH]; simpl; [reflexivity|].
  destruct (snd q <=? snd p)%nat; [reflexivity|].
  rewrite IH. apply Permutation_swap.
Qed.

Lemma sort_desc_perm l : sort_desc l ≡ₚ l.
Proof.
  induction l as [|p l IH]; simpl; [reflexivity|].
  rewrite insert_desc_perm, IH. reflexivity.
Qed.

Lemma first_seen_NoDup l : NoDup (first_seen l).
Proof.
  induction l as [|x l IH]; simpl; constructor.
  - intros Hin. apply list_elem_of_filter in Hin. tauto.
  - apply NoDup_filter. assumption.
Qed.

(** The index of [value_counts] lists every token once. *)
Lemma value_counts_index_NoDup l : NoDup (List.map fst (value_counts l)).
Proof.
  unfold value_counts.
  eapply NoDup_Permutation_proper.
  - apply fmap_Permutation. apply sort_desc_perm.
  - change (NoDup (fst <$> ((fun x => (x, count_of x l)) <$> first_seen l))).
    rewrite <- list_fmap_compose. simpl.
    rewrite list_fmap_id. apply first_seen_NoDup.
Qed.

Lemma pd_head_NoDup {A} (n : Z) (l : list A) : NoDup l -> NoDup (pd_head n l).
Proof.
  intros H. unfold pd_head.
  destruct (0 <=? n)%Z; (eapply sublist_NoDup; [eassumption | apply sublist_take]).
Qed.

Lemma pd_head_length {A} (n : Z) (l : list A) :
  (0 <= n)%Z -> (Z.of_nat (length (pd_head n l)) <= n)%Z.
Proof.
  intros H. unfold pd_head. rewrite (proj2 (Z.leb_le 0 n) H).
  rewrite length_take. lia.
Qed.

(** C5, as amended. [fit] on a column stores a vocabulary. Fit by
    counting (no vocabulary given) with a non-negative [top_k], it has
    no repeated token and at most [top_k] tokens. Fit from a given
    vocabulary, it is that list as given, neither capped nor freed of
    repetitions. In both cases no later [transform] changes it. *)
Theorem fit_vocabulary (self : GenresBinarizer) (X : array_like) (vals : list cell) :
  _to_1d X = Ok vals ->
  exists c,
    let fitted := {| vocab := vocab self; top_k := top_k self; classes_ := Some c |} in
    fit X self = (Ok tt, fitted) /\
    (vocab self = None -> (0 <= top_k self)%Z ->
     NoDup c /\ (Z.of_nat (length c) <= top_k self)%Z) /\
    (forall v, vocab self = Some v -> c = v) /\
    (forall X', snd (transform X' fitted) = fitted).
Proof.
  intros HX. unfold fit, set_classes_, bind, lift, get, put. rewrite HX.
  assert (Hkeep : forall c X',
            snd (transform X' {| vocab := vocab self; top_k := top_k self;
                                 classes_ := Some c |})
            = {| vocab := vocab self; top_k := top_k self; classes_ := Some c |}).
  { intros c X'. unfold transform, bind, get, lift, ret. simpl.
    destruct (_to_1d X'); reflexivity. }
  destruct (vocab self) as [v|] eqn:Hv.
  - exists v. simpl. rewrite Hv. split; [reflexivity|]. split; [discriminate|].
    split; [congruence | apply Hkeep].
  - eexists. simpl. rewrite Hv.
    split; [reflexivity|]. split; [|split; [discriminate | apply Hkeep]].
    intros _ Hk. split.
    + apply pd_head_NoDup, value_counts_index_NoDup.
    + apply pd_head_length. assumption.
Qed.

Lemma fit_vocabulary_witness :
  exists c,
    fit (Series [Some (py "Drama|Comedy"); Some (py "Drama")]) (init None 1)
    = (Ok tt, {| vocab := None; top_k := 1; classes_ := Some c |}) /\
    NoDup c /\ (Z.of_nat (length c) <= 1)%Z.
Proof.
  destruct (fit_vocabulary (init None 1)
              (Series [Some (py "Drama|Comedy"); Some (py "Drama")])
              [Some (py "Drama|Comedy"); Some (py "Drama")] eq_refl)
    as [c [Hfit [Hcount _]]].
  exists c. split; [exact Hfit|]. apply Hcount; [reflexivity | simpl; lia].
Defined.

(** C5 as stated fails for a vocabulary given by the caller: it is
    stored as it is, here with a repeated token and longer than
    [top_k]. *)
Lemma fit_vocabulary_counterexample :
  ~ (forall (self : GenresBinarizer) (X : array_like) (c : list str),
       classes_ (snd (fit X self)) = Some c ->
       NoDup c /\ (Z.of_nat (length c) <= top_k self)%Z).
Proof.
  intros H.
  destruct (H (init (Some [py "A"; py "A"]) 1) (Series [Some (py "A|B")])
              [py "A"; py "A"] eq_refl) as [Hnd Hlen].
  simpl in Hlen. lia.
Qed.

End EncoderProperties.

(** ** Arithmetic used by the handler and the binning *)

Section NumberFacts.

Lemma Qleb_le a b : Qleb a b = true <-> (a <= b)%Q.
Proof. apply Qle_bool_iff. Qed.

Lemma Qltb_lt a b : Qltb a b = true <-> (a < b)%Q.
Proof.
  unfold Qltb. rewrite negb_true_iff. split.
  - intros H. apply Qnot_le_lt. intros Hle. apply Qle_bool_iff in Hle. congruence.
  - intros H. destruct (Qle_bool b a) eqn:E; [|reflexivity].
    apply Qle_bool_iff in E. exfalso. eapply Qlt_not_le; eassumption.
Qed.

Lemma Qltb_ge a b : Qltb a b = false <-> (b <= a)%Q.
Proof.
  unfold Qltb. rewrite negb_false_iff. apply Qle_bool_iff.
Qed.

Lemma py_max_Qmax a b : (py_max a b == Qmax a b)%Q.
Proof.
  unfold py_max. destruct (Qltb a b) eqn:E.
  - apply Qltb_lt in E. symmetry. apply Q.max_r. apply Qlt_le_weak. assumption.
  - apply Qltb_ge in E. symmetry. apply Q.max_l. assumption.
Qed.

Lemma py_min_Qmin a b : (py_min a b == Qmin a b)%Q.
Proof.
  unfold py_min. destruct (Qltb b a) eqn:E.
  - apply Qltb_lt in E. symmetry. apply Q.min_r. apply Qlt_le_weak. assumption.
  - apply Qltb_ge in E. symmetry. apply Q.min_l. assumption.
Qed.

Lemma round_half_even_comp a b : (a == b)%Q -> round_half_even a = round_half_even b.
Proof.
  intros H. unfold round_half_even.
  rewrite (Qfloor_comp _ _ H).
  assert (H' : (a - inject_Z (Qfloor b) == b - inject_Z (Qfloor b))%Q)
    by (rewrite H; reflexivity).
  rewrite (Qcompare_comp _ _ H' (1 # 2)%Q (1 # 2)%Q (Qeq_refl _)). reflexivity.
Qed.

(** Rounding stays between integer bounds. *)
Lemma round_half_even_bounds (lo hi : Z) (q : Q) :
  (inject_Z lo <= q)%Q -> (q <= inject_Z hi)%Q ->
  (lo <= round_half_even q <= hi)%Z.
Proof.
  intros Hlo Hhi. unfold round_half_even.
  assert (Hf1 : (lo <= Qfloor q)%Z).
  { rewrite <- (Qfloor_Z lo). apply Qfloor_resp_le. assumption. }
  assert (Hf2 : (Qfloor q <= hi)%Z).
  { rewrite <- (Qfloor_Z hi). apply Qfloor_resp_le. assumption. }
  assert (Hup : (0 < q - inject_Z (Qfloor q))%Q -> (Qfloor q + 1 <= hi)%Z).
  { intros Hpos.
    assert (Hlt : (inject_Z (Qfloor q) < inject_Z hi)%Q).
    { eapply Qlt_le_trans; [|exact Hhi].
      apply (Qplus_lt_l _ _ (- inject_Z (Qfloor q))%Q).
      rewrite Qplus_opp_r. exact Hpos. }
    rewrite <- Zlt_Qlt in Hlt. lia. }
  destruct (Qcompare_spec (q - inject_Z (Qfloor q))%Q (1 # 2)%Q) as [He|Hl|Hg].
  - destruct (Z.even (Qfloor q)); [lia|].
    split; [lia|]. apply Hup. rewrite He. reflexivity.
  - lia.
  - split; [lia|]. apply Hup. eapply Qlt_trans; [|exact Hg]. reflexivity.
Qed.

Lemma pow2_pos (e : Z) : (0 < pow2 e)%Q.
Proof.
  unfold pow2. destruct (0 <=? e)%Z eqn:E; [|reflexivity].
  change 0%Q with (inject_Z 0). rewrite <- Zlt_Qlt.
  apply Z.pow_pos_nonneg; lia.
Qed.

Lemma pow2_neg_inv (e : Z) : (e < 0)%Z -> (inject_Z (2 ^ (- e)) * pow2 e == 1)%Q.
Proof.
  intros He. unfold pow2. rewrite (proj2 (Z.leb_gt 0 e)) by assumption.
  assert (Hp : (0 < 2 ^ (- e))%Z) by (apply Z.pow_pos_nonneg; lia).
  unfold Qeq, Qmult, inject_Z. cbn [Qnum Qden].
  rewrite Pos.mul_1_l, Z2Pos.id by assumption. lia.
Qed.

Lemma fl_nonneg (x : Q) : (0 <= x)%Q -> (0 <= fl x)%Q.
Proof.
  intros Hx. unfold fl. destruct (Qeq_bool x 0); [apply Qle_refl|].
  set (u := pow2 _). assert (Hu : (0 < u)%Q) by apply pow2_pos.
  rewrite Qred_correct.
  apply Qmult_le_0_compat; [|apply Qlt_le_weak; assumption].
  change 0%Q with (inject_Z 0). rewrite <- Zle_Qle.
  apply (round_half_even_bounds 0 (Qfloor (x / u) + 1) (x / u)).
  - apply Qle_shift_div_l; [assumption|]. rewrite Qmult_0_l. assumption.
  - apply Qlt_le_weak, Qlt_floor.
Qed.

Lemma fl_nonpos (x : Q) : (x <= 0)%Q -> (fl x <= 0)%Q.
Proof.
  intros Hx. unfold fl. destruct (Qeq_bool x 0); [apply Qle_refl|].
  set (u := pow2 _). assert (Hu : (0 < u)%Q) by apply pow2_pos.
  rewrite Qred_correct.
  assert (Hr : (inject_Z (round_half_even (x / u)) <= 0)%Q).
  { change 0%Q with (inject_Z 0). rewrite <- Zle_Qle.
    apply (round_half_even_bounds (Qfloor (x / u)) 0 (x / u)).
    - apply Qfloor_le.
    - apply Qle_shift_div_r; [assumption|]. rewrite Qmult_0_l. assumption. }
  nra.
Qed.

Lemma binade_le_0 (x : Q) : (x <= 1)%Q -> (binade x <= 0)%Z.
Proof.
  intros H1. unfold binade.
  assert (H : (Z.log2 (Qnum x) <= Z.log2 (Z.pos (Qden x)))%Z).
  { apply Z.log2_le_mono. unfold Qle in H1. cbn in H1. lia. }
  destruct (Qle_bool _ _); lia.
Qed.

Lemma fl_le_1 (x : Q) : (x <= 1)%Q -> (fl x <= 1)%Q.
Proof.
  intros H1. destruct (Qlt_le_dec 0 x) as [Hpos|Hneg].
  2:{ eapply Qle_trans; [apply fl_nonpos; assumption | discriminate]. }
  unfold fl. destruct (Qeq_bool x 0); [discriminate|].
  assert (He : (Z.max (binade (Qabs x)) (-1022) <= 0)%Z).
  { apply Z.max_lub; [|lia]. apply binade_le_0.
    rewrite Qabs_pos by (apply Qlt_le_weak; assumption). assumption. }
  set (e := Z.max (binade (Qabs x)) (-1022)) in *.
  pose proof (pow2_pos (e - 52)) as Hu.
  pose proof (pow2_neg_inv (e - 52) ltac:(lia)) as Hinv.
  set (u := pow2 (e - 52)) in *. set (K := (2 ^ (- (e - 52)))%Z) in *.
  rewrite Qred_correct.
  assert (Hr : (round_half_even (x / u) <= K)%Z).
  { apply (round_half_even_bounds (Qfloor (x / u)) K (x / u)).
    - apply Qfloor_le.
    - apply Qle_shift_div_r; [assumption|]. rewrite Hinv. assumption. }
  rewrite Zle_Qle in Hr. nra.
Qed.

Lemma confidence_le_1 (s : Q) : (0 <= s)%Q -> (fsub 1 (fdiv s (5 # 2)) <= 1)%Q.
Proof.
  intros H. unfold fsub, fdiv. apply fl_le_1.
  assert (H' : (0 <= fl (s / (5 # 2)))%Q).
  { apply fl_nonneg. apply Qle_shift_div_l; [reflexivity|].
    rewrite Qmult_0_l. assumption. }
  lra.
Qed.

Lemma round2_comp a b : (a == b)%Q -> round2 a = round2 b.
Proof.
  intros H. unfold round2. rewrite (round_half_even_comp (a * 100) (b * 100))
    by (rewrite H; reflexivity).
  reflexivity.
Qed.

Lemma round2_bounds (lo hi : Z) (x : Q) :
  (inject_Z lo <= x)%Q -> (x <= inject_Z hi)%Q ->
  (inject_Z lo <= round2 x)%Q /\ (round2 x <= inject_Z hi)%Q.
Proof.
  intros Hlo Hhi. unfold round2. rewrite Qred_correct.
  destruct (round_half_even_bounds (lo * 100) (hi * 100) (x * 100)) as [H1 H2].
  - rewrite inject_Z_mult. apply Qmult_le_compat_r; [assumption | discriminate].
  - rewrite inject_Z_mult. apply Qmult_le_compat_r; [assumption | discriminate].
  - split.
    + apply Qle_shift_div_l; [reflexivity|].
      change 100%Q with (inject_Z 100).
      rewrite <- (inject_Z_mult lo 100). rewrite <- Zle_Qle. exact H1.
    + apply Qle_shift_div_r; [reflexivity|].
      change 100%Q with (inject_Z 100).
      rewrite <- (inject_Z_mult hi 100). rewrite <- Zle_Qle. exact H2.
Qed.

End NumberFacts.

(** ** The handler *)

Section HandlerProperties.

Variable ALLOWED : gset str.
Variable pipe : pipeline.
Variable np_std : list Q -> Q.

(** C8. A request whose content rating is not among the allowed ones
    is answered with status 400, and nothing is asked of the pipeline
    or of its members: the log of calls is as it was. *)
Theorem predict_rejects_unknown_rating (req : PredictRequest) (log : list event) :
  content_rating req ∉ ALLOWED ->
  predict ALLOWED pipe np_std req log
  = (Raise (HTTPException 400
              (py "content_rating '" ++ content_rating req ++ py "' not allowed")),
     log).
Proof.
  intros H. unfold predict. rewrite bool_decide_eq_true_2 by assumption.
  reflexivity.
Qed.

Lemma mapM_cons {S A B} (f : A -> M S B) (a : A) (l : list A) (s : S) :
  mapM f (a :: l) s
  = match f a s with
    | (Ok b, s') => match mapM f l s' with
                    | (Ok bs, s'') => (Ok (b :: bs), s'')
                    | (Raise e, s'') => (Raise e, s'')
                    end
    | (Raise e, s') => (Raise e, s')
    end.
Proof.
  simpl. unfold bind. destruct (f a s) as [[b|e] s']; [|reflexivity].
  destruct (mapM f l s') as [[bs|e] s'']; reflexivity.
Qed.

Lemma members_run (X : row) (l : list (nat * estimator)) (log : list event) :
  exists log',
    match all_ok (List.map (fun ie : nat * estimator => est_predict ie.2 X) l) with
    | Some ps => mapM (call_estimator X) l log = (Ok ps, log')
    | None => exists e, mapM (call_estimator X) l log = (Raise e, log')
    end.
Proof.
  revert log. induction l as [|ie l IH]; intros log.
  - exists log. reflexivity.
  - rewrite mapM_cons. unfold call_estimator at 1. simpl.
    destruct (est_predict ie.2 X) as [a|e].
    + destruct (IH (log ++ [EstimatorPredict ie.1 X])) as [log' H].
      exists log'.
      destruct (all_ok _) as [ps|].
      * rewrite H. reflexivity.
      * destruct H as [e H]. exists e. rewrite H. reflexivity.
    + eexists. eexists. reflexivity.
Qed.

Lemma snd_indexed (X : row) (ests : list estimator) :
  List.map (fun ie : nat * estimator => est_predict ie.2 X)
           (imap (fun i e => (i, e)) ests)
  = List.map (fun e => est_predict e X) ests.
Proof.
  change (((fun ie : nat * estimator => est_predict ie.2 X) <$>
           imap (fun i e => (i, e)) ests)
          = (fun e => est_predict e X) <$> ests).
  rewrite fmap_imap. rewrite <- imap_const. apply imap_ext. reflexivity.
Qed.

Hypothesis np_std_nonneg : forall l, (0 <= np_std l)%Q.

(** The confidence the second [try] block leaves, before rounding. *)
Lemma member_confidence_run (X : row) (log : list event) :
  exists conf log',
    try_except (member_confidence pipe np_std X) (ret (1 # 2)%Q) log = (Ok conf, log') /\
    match member_predictions pipe X with
    | Some [] => conf = 1%Q
    | Some ps => (conf == Qmax 0 (fsub 1 (fdiv (np_std ps) (5 # 2))))%Q
    | None => conf = (1 # 2)%Q
    end.
Proof.
  unfold try_except, member_confidence, member_predictions, bind, lift, ret.
  destruct (named_steps pipe !! "model"%string) as [m|]; [|eauto].
  destruct (estimators_ m) as [ests|]; [|eauto].
  destruct (members_run X (imap (fun i e => (i, e)) ests) log) as [log' H].
  rewrite snd_indexed in H.
  destruct (all_ok _) as [ps|].
  - rewrite H. destruct ps as [|p ps]; [eauto|].
    eexists. eexists. split; [reflexivity|].
    rewrite py_max_Qmax, py_min_Qmin.
    rewrite Q.min_r; [reflexivity|].
    apply confidence_le_1. apply np_std_nonneg.
  - destruct H as [e H]. rewrite H. eauto.
Qed.

(** C7, as amended. When the rating is allowed and the pipeline
    predicts [v], the handler answers; the score is [v] clamped to
    [0, 10] and rounded to two decimals, so it is in [0, 10]; the
    confidence is in [0, 1], and it is [max(0, 1 - std / 2.5)], the
    division and the subtraction being those of doubles, rounded to
    two decimals when the members' predictions are there, and 0.5
    when the model has no members to ask or asking them raises. (With
    an empty list of members, whose deviation is NaN, it is 1.0.) *)
Theorem predict_score_and_confidence (req : PredictRequest) (v : Q) (log : list event) :
  content_rating req ∈ ALLOWED ->
  pipe_predict pipe (make_row req) = Ok v ->
  exists resp log',
    predict ALLOWED pipe np_std req log = (Ok resp, log') /\
    predicted_score resp = round2 (Qmax 0 (Qmin 10 v)) /\
    (0 <= predicted_score resp)%Q /\ (predicted_score resp <= 10)%Q /\
    (0 <= confidence resp)%Q /\ (confidence resp <= 1)%Q /\
    match member_predictions pipe (make_row req) with
    | Some [] => confidence resp = 1%Q
    | Some ps => confidence resp = round2 (Qmax 0 (fsub 1 (fdiv (np_std ps) (5 # 2))))
    | None => confidence resp = (1 # 2)%Q
    end.
Proof.
  intros Hin Hv. unfold predict.
  rewrite bool_decide_eq_false_2 by (intros H; apply H; assumption).
  unfold bind at 1. unfold try_except at 1, call_pipe at 1. rewrite Hv.
  unfold bind at 1.
  destruct (member_confidence_run (make_row req) (log ++ [PipePredict (make_row req)]))
    as [conf [log' [Hrun Hconf]]].
  rewrite Hrun. unfold lift, make_response.
  assert (Hs : (0 <= round2 (py_max 0 (py_min 10 v)))%Q
               /\ (round2 (py_max 0 (py_min 10 v)) <= 10)%Q).
  { apply (round2_bounds 0 10); rewrite py_max_Qmax.
    - apply Q.le_max_l.
    - apply Q.max_lub; [discriminate|]. rewrite py_min_Qmin. apply Q.le_min_l. }
  assert (Hc : (0 <= conf)%Q /\ (conf <= 1)%Q).
  { destruct (member_predictions pipe (make_row req)) as [[|p ps]|];
      try (subst conf; split; discriminate).
    rewrite Hconf. split; [apply Q.le_max_l|].
    apply Q.max_lub; [discriminate|].
    apply confidence_le_1. apply np_std_nonneg. }
  assert (Hc2 : (0 <= round2 conf)%Q /\ (round2 conf <= 1)%Q).
  { apply (round2_bounds 0 1); tauto. }
  destruct Hs as [Hs1 Hs2]. destruct Hc2 as [Hc1 Hc2].
  rewrite (proj2 (Qleb_le _ _) Hs1), (proj2 (Qleb_le _ _) Hs2).
  rewrite (proj2 (Qleb_le _ _) Hc1), (proj2 (Qleb_le _ _) Hc2).
  simpl. eexists. eexists. split; [reflexivity|]. simpl.
  split.
  { apply round2_comp. rewrite py_max_Qmax, py_min_Qmin. reflexivity. }
  repeat (split; [assumption|]).
  destruct (member_predictions pipe (make_row req)) as [[|p ps]|].
  - subst conf. reflexivity.
  - apply round2_comp. assumption.
  - subst conf. reflexivity.
Qed.

End HandlerProperties.

Section HandlerRuns.

Lemma std6_nonneg (l : list Q) : (0 <= std6 l)%Q.
Proof.
  unfold std6, sqrt6. rewrite Qred_correct.
  apply Qle_shift_div_l; [reflexivity|]. rewrite Qmult_0_l.
  change 0%Q with (inject_Z 0). rewrite <- Zle_Qle. apply Z.sqrt_nonneg.
Qed.

Lemma predict_score_and_confidence_witness :
  exists resp log',
    predict {[ py "PG-13" ]} demo_forest std6 demo_req [] = (Ok resp, log') /\
    predicted_score resp = round2 (Qmax 0 (Qmin 10 6.4321)) /\
    confidence resp = round2 (Qmax 0 (fsub 1 (fdiv (std6 [6; 7]) (5 # 2))))%Q.
Proof.
  destruct (predict_score_and_confidence {[ py "PG-13" ]} demo_forest std6 std6_nonneg
              demo_req 6.4321%Q []) as [resp [log' [H1 [H2 [_ [_ [_ [_ H3]]]]]]]].
  - apply elem_of_singleton. reflexivity.
  - reflexivity.
  - exists resp, log'. split; [exact H1|]. split; [exact H2 | exact H3].
Defined.

(** C7 as stated fails on the confidence: two members predicting 6.0
    and 6.03125 have deviation 0.015625, [max(0, 1 - 0.015625 / 2.5)]
    is 0.99375 (to the last place of a double), and the handler
    returns 0.99. *)
Lemma predict_score_and_confidence_counterexample :
  exists resp log',
    predict {[ py "PG-13" ]} close_forest std6 demo_req [] = (Ok resp, log') /\
    member_predictions close_forest (make_row demo_req) = Some [6; 193 # 32]%Q /\
    std6 [6; 193 # 32]%Q = (1 # 64)%Q /\
    confidence resp = (99 # 100)%Q /\
    (Qabs (Qmax 0 (fsub 1 (fdiv (std6 [6; 193 # 32]) (5 # 2))) - (159 # 160))
     <= 1 # 1000000000000000)%Q /\
    ~ (confidence resp == Qmax 0 (fsub 1 (fdiv (std6 [6; 193 # 32]) (5 # 2))))%Q.
Proof.
  eexists. eexists. split; [vm_compute; reflexivity|].
  split; [reflexivity|]. split; [vm_compute; reflexivity|].
  split; [reflexivity|].
  split; vm_compute; discriminate.
Qed.

(** The subtraction and the division are those of doubles: with a
    deviation of 0.0625 the difference is the double just below 0.975,
    and the confidence is 0.97, where 0.975 itself would give 0.98. *)
Lemma predict_confidence_in_doubles :
  exists resp log',
    predict {[ py "PG-13" ]} tie_forest std6 demo_req [] = (Ok resp, log') /\
    std6 [0; 1 # 8]%Q = (1 # 16)%Q /\
    confidence resp = (97 # 100)%Q /\
    (fsub 1 (fdiv (1 # 16) (5 # 2)) < 39 # 40)%Q /\
    round2 (1 - (1 # 16) / (5 # 2)) = (49 # 50)%Q.
Proof.
  eexists. eexists. split; [vm_compute; reflexivity|].
  split; [vm_compute; reflexivity|]. split; [reflexivity|].
  split; vm_compute; reflexivity.
Qed.

Lemma predict_rejects_unknown_rating_witness :
  predict {[ py "PG-13"; py "R" ]} demo_forest std6
          (set_rating demo_req (py "XXX-UNKNOWN")) []
  = (Raise (HTTPException 400 (py "content_rating 'XXX-UNKNOWN' not allowed")), []).
Proof.
  apply (predict_rejects_unknown_rating {[ py "PG-13"; py "R" ]} demo_forest std6
           (set_rating demo_req (py "XXX-UNKNOWN")) []).
  vm_compute. intros H. discriminate H.
Defined.

End HandlerRuns.

Section GenreNormalisation.

Lemma clean_genres_extra w l : blank w -> clean_genres (w :: l) = clean_genres l.
Proof.
  intros Hw. unfold clean_genres. rewrite filter_cons_False; [reflexivity|].
  apply truthy_strip_blank in Hw. rewrite Hw. auto.
Qed.

Lemma clean_genres_around w1 g w2 l :
  blank w1 -> blank w2 -> clean_genres ((w1 ++ g ++ w2) :: l) = clean_genres (g :: l).
Proof.
  intros H1 H2. unfold clean_genres. rewrite !filter_cons.
  rewrite (strip_around w1 g w2 H1 H2).
  destruct (decide (truthy (strip g))); simpl; [|reflexivity].
  rewrite (strip_around w1 g w2 H1 H2). reflexivity.
Qed.

Lemma clean_genres_cons g l :
  clean_genres (g :: l)
  = if truthy (strip g) then strip g :: clean_genres l else clean_genres l.
Proof.
  unfold clean_genres. rewrite filter_cons.
  destruct (truthy (strip g)); simpl; reflexivity.
Qed.

(** Padding does not change the cleaned list. *)
Lemma clean_genres_padded l l' : padded l l' -> clean_genres l' = clean_genres l.
Proof.
  induction 1 as [|w l l' Hw _ IH|w1 g w2 l l' H1 H2 _ IH].
  - reflexivity.
  - rewrite clean_genres_extra by assumption. exact IH.
  - rewrite clean_genres_around by assumption.
    rewrite !clean_genres_cons, IH. reflexivity.
Qed.

(** Every list is a padding of its cleaned list. *)
Lemma padded_clean_genres l : padded (clean_genres l) l.
Proof.
  induction l as [|g l IH]; [constructor|].
  rewrite clean_genres_cons. destruct (truthy (strip g)) eqn:Hg.
  - destruct (strip_decompose g) as [w1 [w2 [H1 [H2 Hd]]]].
    rewrite Hd at 2. constructor; assumption.
  - constructor; [|assumption]. apply truthy_strip_blank. assumption.
Qed.

Lemma predict_make_row ALLOWED pipe np_std (req req' : PredictRequest) :
  make_row req = make_row req' ->
  predict ALLOWED pipe np_std req = predict ALLOWED pipe np_std req'.
Proof.
  intros H. unfold predict. rewrite H.
  assert (Hr : content_rating req = content_rating req')
    by exact (f_equal row_content_rating H).
  rewrite Hr. reflexivity.
Qed.

Lemma clean_genres_entries l :
  Forall (fun g => g <> [] /\ strip g = g) (clean_genres l).
Proof.
  induction l as [|g l IH]; [constructor|].
  rewrite clean_genres_cons. destruct (truthy (strip g)) eqn:Hg; [|exact IH].
  constructor; [|exact IH]. split; [|apply strip_idemp].
  intros H. rewrite H in Hg. discriminate.
Qed.

Lemma clean_genres_clean l :
  Forall (fun g => g <> [] /\ strip g = g) l -> clean_genres l = l.
Proof.
  induction 1 as [|g l [Hne Hs] _ IH]; [reflexivity|].
  rewrite clean_genres_cons, Hs, IH.
  destruct g; [congruence | reflexivity].
Qed.

Lemma elem_of_clean_genres g l :
  g ∈ clean_genres l <-> exists h, h ∈ l /\ ~ blank h /\ g = strip h.
Proof.
  induction l as [|h0 l IH].
  - split; [intros H; inversion H | intros [h [H _]]; inversion H].
  - rewrite clean_genres_cons. destruct (truthy (strip h0)) eqn:Hh.
    + assert (Hnb : ~ blank h0).
      { intros Hb. apply truthy_strip_blank in Hb. congruence. }
      rewrite elem_of_cons, IH. split.
      * intros [->|[h [H1 H2]]]; [exists h0; split; [left | auto]|].
        exists h. split; [right; assumption | assumption].
      * intros [h [H1 [H2 H3]]]. apply elem_of_cons in H1. destruct H1 as [->|H1].
        -- left. assumption.
        -- right. exists h. auto.
    + apply truthy_strip_blank in Hh. rewrite IH. split.
      * intros [h [H1 H2]]. exists h. split; [right; assumption | assumption].
      * intros [h [H1 [H2 H3]]]. apply elem_of_cons in H1. destruct H1 as [->|H1].
        -- contradiction.
        -- exists h. auto.
Qed.

(** C10. The handler strips every genre and drops the empty ones
    before joining them with "|": the genres string of the row it
    hands to the pipeline is the join of the stripped entries that are
    not whitespace only, so for a list that needs no cleaning it is
    the entries joined as they are. A request whose genres are padded
    with whitespace-only entries, or with whitespace around entries,
    therefore gives the pipeline the same row and gets the same answer
    as the request without the padding, and as the request with the
    cleaned list. *)
Theorem predict_ignores_genre_padding ALLOWED pipe np_std
        (req : PredictRequest) (gs gs' : list str) :
  padded gs gs' ->
  row_genres (make_row (set_genres req gs')) = join (py "|") (clean_genres gs) /\
  clean_genres gs' = clean_genres gs /\
  (forall g, g ∈ clean_genres gs' <-> exists h, h ∈ gs' /\ ~ blank h /\ g = strip h) /\
  Forall (fun g => g <> [] /\ strip g = g) (clean_genres gs') /\
  (Forall (fun g => g <> [] /\ strip g = g) gs ->
   clean_genres gs' = gs /\
   row_genres (make_row (set_genres req gs')) = join (py "|") gs) /\
  make_row (set_genres req gs') = make_row (set_genres req gs) /\
  predict ALLOWED pipe np_std (set_genres req gs')
  = predict ALLOWED pipe np_std (set_genres req gs) /\
  make_row (set_genres req gs') = make_row (set_genres req (clean_genres gs')) /\
  predict ALLOWED pipe np_std (set_genres req gs')
  = predict ALLOWED pipe np_std (set_genres req (clean_genres gs')).
Proof.
  intros Hp.
  pose proof (clean_genres_padded _ _ Hp) as Hc.
  assert (H1 : make_row (set_genres req gs') = make_row (set_genres req gs)).
  { unfold make_row. simpl. rewrite Hc. reflexivity. }
  assert (H2 : make_row (set_genres req gs')
               = make_row (set_genres req (clean_genres gs'))).
  { unfold make_row. simpl.
    rewrite <- (clean_genres_padded _ _ (padded_clean_genres gs')). reflexivity. }
  split; [unfold make_row; simpl; rewrite Hc; reflexivity|].
  split; [exact Hc|].
  split; [intros g; apply elem_of_clean_genres|].
  split; [apply clean_genres_entries|].
  split.
  { intros Hclean. rewrite Hc, (clean_genres_clean gs Hclean).
    split; [reflexivity|]. unfold make_row. simpl.
    rewrite Hc, (clean_genres_clean gs Hclean). reflexivity. }
  repeat split; try assumption; apply predict_make_row; assumption.
Qed.

Lemma predict_ignores_genre_padding_witness :
  row_genres (make_row (set_genres demo_req [py " Action"; py "  "; py "Drama "]))
  = py "Action|Drama" /\
  predict {[ py "PG-13" ]} demo_forest std6
          (set_genres demo_req [py " Action"; py "  "; py "Drama "])
  = predict {[ py "PG-13" ]} demo_forest std6
            (set_genres demo_req [py "Action"; py "Drama"]) /\
  make_row (set_genres demo_req [py ""; py "  "]) = make_row (set_genres demo_req []) /\
  predict {[ py "PG-13" ]} demo_forest std6 (set_genres demo_req [py ""; py "  "])
  = predict {[ py "PG-13" ]} demo_forest std6 (set_genres demo_req []).
Proof.
  destruct (predict_ignores_genre_padding {[ py "PG-13" ]} demo_forest std6 demo_req
              [py "Action"; py "Drama"] [py " Action"; py "  "; py "Drama "])
    as [_ [_ [_ [_ [Hclean [_ [Hp _]]]]]]].
  { apply (padded_around (py " ") (py "Action") []); [repeat constructor | constructor |].
    apply padded_extra; [repeat constructor|].
    apply (padded_around [] (py "Drama") (py " ")); [constructor | repeat constructor |].
    constructor. }
  destruct (predict_ignores_genre_padding {[ py "PG-13" ]} demo_forest std6 demo_req
              [] [py ""; py "  "]) as [_ [_ [_ [_ [_ [H1 [H2 _]]]]]]].
  { apply padded_extra; [constructor|].
    apply padded_extra; [|constructor].
    repeat constructor. }
  destruct Hclean as [_ Hrow].
  { repeat constructor; discriminate. }
  split; [exact Hrow|]. split; [exact Hp|]. split; assumption.
Defined.

End GenreNormalisation.

(** ** make_bins *)

Section LabelFacts.

Lemma rmap_ok {A B} (f : A -> result B) (g : A -> B) (l : list A) :
  (forall a, a ∈ l -> f a = Ok (g a)) -> rmap f l = Ok (List.map g l).
Proof.
  induction l as [|a l IH]; intros H; [reflexivity|].
  simpl. rewrite (H a) by left. simpl.
  rewrite IH by (intros b Hb; apply H; right; assumption).
  reflexivity.
Qed.

(** The label of interval [i] of [n], between the edges [a] and [b]. *)
Lemma render_labels_ok (edges : list Q) (n : Z) :
  (0 <= n)%Z -> (n + 1 <= Z.of_nat (length edges))%Z ->
  exists labels,
    render_labels edges n = Ok labels /\
    length labels = Z.to_nat n /\
    forall i a b,
      edges !! i = Some a -> edges !! (i + 1)%nat = Some b -> (Z.of_nat i < n)%Z ->
      labels !! i
      = Some (py "[" ++ format_1f a ++ py ", " ++ format_1f b
              ++ (if (Z.of_nat i <? n - 1)%Z then py ")" else py "]")).
Proof.
  intros Hn Hlen.
  set (g := fun i : nat =>
              py "[" ++ format_1f (default 0%Q (edges !! i)) ++ py ", "
              ++ format_1f (default 0%Q (edges !! (i + 1)%nat))
              ++ (if (Z.of_nat i <? n - 1)%Z then py ")" else py "]")).
  exists (List.map g (seq 0 (Z.to_nat n))). split; [|split].
  - unfold render_labels. apply rmap_ok. intros i Hi.
    apply elem_of_seq in Hi.
    destruct (lookup_lt_is_Some_2 edges i) as [a Ha]; [lia|].
    destruct (lookup_lt_is_Some_2 edges (i + 1)) as [b Hb]; [lia|].
    unfold getitem, g. rewrite Ha, Hb. reflexivity.
  - rewrite length_map, length_seq. reflexivity.
  - intros i a b Ha Hb Hi.
    change (List.map g (seq 0 (Z.to_nat n))) with (g <$> seq 0 (Z.to_nat n)).
    rewrite list_lookup_fmap, lookup_seq_lt by lia.
    simpl. unfold g. rewrite Ha, Hb. reflexivity.
Qed.

End LabelFacts.

Section FixedEdges.

Lemma searchsorted_right_le (a : list Q) (x : Q) :
  (searchsorted_right a x <= length a)%nat.
Proof. unfold searchsorted_right. apply length_filter. Qed.

Lemma searchsorted_right_none (a : list Q) (x : Q) :
  Forall (fun b => (x < b)%Q) a -> searchsorted_right a x = 0%nat.
Proof.
  intros H. unfold searchsorted_right.
  induction H as [|b a Hb _ IH]; [reflexivity|].
  rewrite filter_cons_False; [exact IH|].
  intros Hle. apply Is_true_true in Hle. apply Qleb_le in Hle.
  eapply Qlt_not_le; eassumption.
Qed.

Lemma searchsorted_right_all (a : list Q) (x : Q) :
  Forall (fun b => (b <= x)%Q) a -> searchsorted_right a x = length a.
Proof.
  intros H. unfold searchsorted_right.
  induction H as [|b a Hb _ IH]; [reflexivity|].
  rewrite filter_cons_True; [simpl; f_equal; exact IH|].
  apply Is_true_true. apply Qleb_le. assumption.
Qed.

Lemma digitize_range (x bins : list Q) :
  monotonicity bins <> 0%Z ->
  exists cls,
    digitize x bins = Ok cls /\
    length cls = length x /\
    Forall (fun c => (0 <= c <= Z.of_nat (length bins))%Z) cls.
Proof.
  intros Hm. unfold digitize.
  rewrite (proj2 (Z.eqb_neq _ _) Hm).
  destruct (monotonicity bins =? -1)%Z; eexists; (split; [reflexivity|]);
    (split; [apply length_map|]); apply Forall_forall; intros c Hc;
    apply list_elem_of_fmap in Hc; destruct Hc as [v [-> _]].
  - pose proof (searchsorted_right_le (rev bins) v) as H.
    rewrite length_rev in H. lia.
  - pose proof (searchsorted_right_le bins v). lia.
Qed.

Lemma digitize_not_monotone (x bins : list Q) :
  monotonicity bins = 0%Z ->
  digitize x bins
  = Raise (ValueError "bins must be monotonically increasing or decreasing").
Proof. intros Hm. unfold digitize. rewrite Hm. reflexivity. Qed.

Lemma nondecreasing_lookup (l : list Q) :
  nondecreasing l = true ->
  forall i j a b, (i <= j)%nat -> l !! i = Some a -> l !! j = Some b -> (a <= b)%Q.
Proof.
  induction l as [|x l IH]; intros Hnd i j a b Hij Ha Hb; [discriminate|].
  assert (Htl : nondecreasing l = true).
  { destruct l as [|y l]; [reflexivity|]. simpl in Hnd.
    apply andb_true_iff in Hnd. tauto. }
  assert (Hhd : forall k c, l !! k = Some c -> (x <= c)%Q).
  { intros k c Hk. destruct l as [|y l]; [discriminate|].
    simpl in Hnd. apply andb_true_iff in Hnd. destruct Hnd as [Hxy _].
    apply Qleb_le in Hxy. eapply Qle_trans; [exact Hxy|].
    apply (IH Htl 0%nat k y c); [lia | reflexivity | assumption]. }
  destruct i as [|i]; destruct j as [|j]; simpl in Ha, Hb.
  - injection Ha as <-. injection Hb as <-. apply Qle_refl.
  - injection Ha as <-. eapply Hhd. eassumption.
  - lia.
  - apply (IH Htl i j); [lia | assumption | assumption].
Qed.

Lemma lookup_nondecreasing (l : list Q) :
  (forall i a b, l !! i = Some a -> l !! (S i) = Some b -> (a <= b)%Q) ->
  nondecreasing l = true.
Proof.
  induction l as [|x l IH]; intros H; [reflexivity|].
  destruct l as [|y l]; [reflexivity|].
  change (Qleb x y && nondecreasing (y :: l) = true).
  apply andb_true_iff. split.
  - apply Qleb_le. apply (H 0%nat); reflexivity.
  - apply IH. intros i a b Ha Hb. apply (H (S i)); assumption.
Qed.

Lemma interior_lookup (fe : list Q) (k : nat) (b : Q) :
  interior fe !! k = Some b -> fe !! (S k) = Some b /\ (S (S k) < length fe)%nat.
Proof.
  unfold interior. intros H.
  assert (Hk : (k < length fe - 2)%nat).
  { apply lookup_lt_Some in H. rewrite length_take in H. lia. }
  rewrite lookup_take_lt in H by assumption.
  rewrite lookup_drop in H. split; [exact H | lia].
Qed.

Lemma interior_length (fe : list Q) : length (interior fe) = (length fe - 2)%nat.
Proof. unfold interior. rewrite length_take, length_drop. lia. Qed.

Lemma nondecreasing_interior (fe : list Q) :
  nondecreasing fe = true -> nondecreasing (interior fe) = true.
Proof.
  intros H. apply lookup_nondecreasing. intros i a b Ha Hb.
  apply interior_lookup in Ha. apply interior_lookup in Hb.
  apply (nondecreasing_lookup fe H (S i) (S (S i))); [lia | tauto | tauto].
Qed.

End FixedEdges.

Section FixedEdgeProperties.

Lemma make_bins_fixed_unfold (y fe : list Q) (n : Z) :
  (1 <= n)%Z -> Z.of_nat (length fe) = (n + 1)%Z ->
  make_bins y (py "fixed") n (Some fe)
  = Some (rbind (digitize y (interior fe)) (fun cls =>
          rbind (render_labels fe n) (fun labels => Ok (cls, fe, labels)))).
Proof.
  intros Hn Hlen. unfold make_bins, make_bins_with.
  rewrite bool_decide_eq_true_2 by reflexivity.
  destruct fe as [|e fe]; [simpl in Hlen; lia|].
  rewrite bool_decide_eq_true_2 by assumption. reflexivity.
Qed.

(** C4. In fixed mode with at least one class and [n_classes + 1]
    edges, whether [make_bins] raises is decided by the edges alone
    (numpy refuses interior edges that are not monotone), never by a
    value; when it does not raise, every value gets a class index in
    [0, n_classes - 1]; and with non-decreasing edges it does not raise,
    a value below the first edge gets class 0 and a value at or above
    the last edge gets class [n_classes - 1]. *)
Theorem make_bins_fixed_in_range (y fe : list Q) (n : Z) :
  (1 <= n)%Z -> Z.of_nat (length fe) = (n + 1)%Z ->
  (monotonicity (interior fe) = 0%Z ->
   forall y', make_bins y' (py "fixed") n (Some fe)
              = Some (Raise (ValueError
                               "bins must be monotonically increasing or decreasing"))) /\
  (monotonicity (interior fe) <> 0%Z ->
   exists cls labels,
     make_bins y (py "fixed") n (Some fe) = Some (Ok (cls, fe, labels)) /\
     length cls = length y /\
     length labels = Z.to_nat n /\
     Forall (fun c => (0 <= c <= n - 1)%Z) cls) /\
  (nondecreasing fe = true ->
   monotonicity (interior fe) <> 0%Z /\
   forall cls labels,
     make_bins y (py "fixed") n (Some fe) = Some (Ok (cls, fe, labels)) ->
     forall i x lo hi,
       y !! i = Some x -> fe !! 0%nat = Some lo -> last fe = Some hi ->
       ((x < lo)%Q -> cls !! i = Some 0%Z) /\
       ((hi <= x)%Q -> cls !! i = Some (n - 1)%Z)).
Proof.
  intros Hn Hlen.
  destruct (render_labels_ok fe n) as [labels [Hlab [Hlablen _]]]; [lia | lia |].
  split; [|split].
  - intros Hm y'. rewrite make_bins_fixed_unfold by assumption.
    rewrite digitize_not_monotone by assumption. reflexivity.
  - intros Hm. rewrite make_bins_fixed_unfold by assumption.
    destruct (digitize_range y (interior fe) Hm) as [cls [Hd [Hl Hr]]].
    exists cls, labels. rewrite Hd, Hlab. simpl.
    split; [reflexivity|]. split; [assumption|]. split; [assumption|].
    eapply Forall_impl; [exact Hr|]. intros c Hc. simpl in Hc.
    rewrite interior_length in Hc. lia.
  - intros Hnd.
    assert (Hmono : monotonicity (interior fe) = 1%Z).
    { unfold monotonicity. rewrite nondecreasing_interior by assumption. reflexivity. }
    split; [rewrite Hmono; discriminate|].
    intros cls labels' Hmk i x lo hi Hx Hlo Hhi.
    rewrite make_bins_fixed_unfold in Hmk by assumption.
    unfold digitize in Hmk. rewrite Hmono, Hlab in Hmk. simpl in Hmk.
    injection Hmk as <- _.
    change (List.map ?f y) with (f <$> y).
    rewrite list_lookup_fmap, Hx. simpl. split.
    + intros Hlt. rewrite searchsorted_right_none; [reflexivity|].
      apply Forall_lookup. intros k b Hb. apply interior_lookup in Hb.
      eapply Qlt_le_trans; [exact Hlt|].
      apply (nondecreasing_lookup fe Hnd 0%nat (S k)); [lia | assumption | tauto].
    + intros Hge. rewrite searchsorted_right_all.
      * rewrite interior_length. f_equal. lia.
      * apply Forall_lookup. intros k b Hb. apply interior_lookup in Hb.
        eapply Qle_trans; [|exact Hge].
        rewrite last_lookup in Hhi.
        apply (nondecreasing_lookup fe Hnd (S k) (pred (length fe))); [lia | tauto | assumption].
Qed.

Lemma make_bins_fixed_in_range_witness :
  exists cls labels,
    make_bins [-3; 42; 7]%Q (py "fixed") 5 FIXED_EDGES
    = Some (Ok (cls, [0; 5; 13 # 2; 15 # 2; 17 # 2; 10]%Q, labels)) /\
    Forall (fun c => (0 <= c <= 5 - 1)%Z) cls.
Proof.
  destruct (make_bins_fixed_in_range [-3; 42; 7]%Q
              [0; 5; 13 # 2; 15 # 2; 17 # 2; 10]%Q 5)
    as [_ [H _]]; [lia | reflexivity |].
  destruct H as [cls [labels [H1 [_ [_ H2]]]]]; [vm_compute; discriminate|].
  exists cls, labels. split; assumption.
Defined.

End FixedEdgeProperties.

Section QuantileFacts.

Lemma strictly_increasing_tail (x : Q) (l : list Q) :
  strictly_increasing (x :: l) = true -> strictly_increasing l = true.
Proof.
  destruct l as [|y l]; [reflexivity|]. simpl.
  intros H. apply andb_true_iff in H. tauto.
Qed.

Lemma strictly_increasing_lookup (l : list Q) :
  strictly_increasing l = true ->
  forall i j a b, (i < j)%nat -> l !! i = Some a -> l !! j = Some b -> (a < b)%Q.
Proof.
  induction l as [|x l IH]; intros Hs i j a b Hij Ha Hb; [discriminate|].
  pose proof (strictly_increasing_tail x l Hs) as Htl.
  assert (Hhd : forall k c, l !! k = Some c -> (x < c)%Q).
  { intros k c Hk. destruct l as [|y l]; [discriminate|].
    simpl in Hs. apply andb_true_iff in Hs. destruct Hs as [Hxy _].
    apply Qltb_lt in Hxy. destruct k as [|k].
    - simpl in Hk. injection Hk as <-. assumption.
    - eapply Qlt_trans; [exact Hxy|].
      apply (IH Htl 0%nat (S k) y c); [lia | reflexivity | assumption]. }
  destruct i as [|i]; destruct j as [|j]; simpl in Ha, Hb; try lia.
  - injection Ha as <-. eapply Hhd. eassumption.
  - apply (IH Htl i j); [lia | assumption | assumption].
Qed.

Lemma lookup_strictly_increasing (l : list Q) :
  (forall i a b, l !! i = Some a -> l !! (S i) = Some b -> (a < b)%Q) ->
  strictly_increasing l = true.
Proof.
  induction l as [|x l IH]; intros H; [reflexivity|].
  destruct l as [|y l]; [reflexivity|].
  change (Qltb x y && strictly_increasing (y :: l) = true).
  apply andb_true_iff. split.
  - apply Qltb_lt. apply (H 0%nat); reflexivity.
  - apply IH. intros i a b Ha Hb. apply (H (S i)); assumption.
Qed.

Lemma strictly_increasing_above (x : Q) (l : list Q) :
  strictly_increasing (x :: l) = true -> Forall (fun y => (x < y)%Q) l.
Proof.
  intros Hs. apply Forall_lookup. intros k y Hk.
  apply (strictly_increasing_lookup _ Hs 0%nat (S k)); [lia | reflexivity | assumption].
Qed.

(** Sorting leaves an increasing sample as it is. *)
Lemma sort_increasing (l : list Q) : strictly_increasing l = true -> sort l = l.
Proof.
  induction l as [|x l IH]; intros Hs; [reflexivity|].
  simpl. rewrite IH by (eapply strictly_increasing_tail; eassumption).
  destruct l as [|y l]; [reflexivity|].
  simpl in Hs. apply andb_true_iff in Hs. destruct Hs as [Hxy _].
  apply Qltb_lt in Hxy. simpl.
  rewrite (proj2 (Qleb_le x y)) by (apply Qlt_le_weak; assumption). reflexivity.
Qed.

Lemma filter_all {A} (P : A -> Prop) `{forall a, Decision (P a)} (l : list A) :
  Forall P l -> filter P l = l.
Proof.
  induction 1 as [|a l Ha _ IH]; [reflexivity|].
  rewrite filter_cons_True by assumption. f_equal. exact IH.
Qed.

(** Increasing bin edges have no duplicates to drop. *)
Lemma unique_increasing (l : list Q) : strictly_increasing l = true -> unique l = l.
Proof.
  induction l as [|x l IH]; intros Hs; [reflexivity|].
  simpl. rewrite IH by (eapply strictly_increasing_tail; eassumption).
  f_equal. apply filter_all.
  eapply Forall_impl; [apply strictly_increasing_above; eassumption|].
  intros y Hy. simpl in Hy. apply Is_true_true. apply negb_true_iff.
  unfold Qeqb. destruct (Qeq_bool y x) eqn:E; [|reflexivity].
  apply Qeq_bool_iff in E. rewrite E in Hy. exfalso. eapply Qlt_irrefl. eassumption.
Qed.

Lemma unique_length (l : list Q) : (length (unique l) <= length l)%nat.
Proof.
  induction l as [|x l IH]; [reflexivity|]. simpl.
  pose proof (length_filter (fun y => negb (Qeqb y x)) (unique l)). lia.
Qed.

Lemma unique_not_nil (l : list Q) : l <> [] -> unique l <> [].
Proof. destruct l; [congruence | discriminate]. Qed.

Lemma nth_increasing (v : list Q) (i j : nat) :
  strictly_increasing v = true -> (i < j)%nat -> (j < length v)%nat ->
  (nth i v 0 < nth j v 0)%Q.
Proof.
  intros Hs Hij Hj.
  destruct (lookup_lt_is_Some_2 v i) as [a Ha]; [lia|].
  destruct (lookup_lt_is_Some_2 v j) as [b Hb]; [lia|].
  rewrite (nth_lookup_Some _ _ _ _ Ha), (nth_lookup_Some _ _ _ _ Hb).
  exact (strictly_increasing_lookup v Hs i j a b Hij Ha Hb).
Qed.

Lemma nth_nondecreasing (v : list Q) (i j : nat) :
  strictly_increasing v = true -> (i <= j)%nat -> (j < length v)%nat ->
  (nth i v 0 <= nth j v 0)%Q.
Proof.
  intros Hs Hij Hj. destruct (decide (i = j)) as [->|Hne]; [apply Qle_refl|].
  apply Qlt_le_weak. apply nth_increasing; [assumption | lia | assumption].
Qed.

(** Where a quantile of an increasing sample lies: at or above the
    value at the floor of its position, below the next value, and on
    the value itself when the position is a whole number. *)
Lemma quantile_sorted_spec (v : list Q) (p : Q) :
  strictly_increasing v = true -> (2 <= length v)%nat ->
  (0 <= p)%Q -> (p <= 1)%Q ->
  let m := (length v - 1)%nat in
  let pos := (p * inject_Z (Z.of_nat m))%Q in
  let lo := Z.to_nat (Qfloor pos) in
  (0 <= Qfloor pos)%Z /\ (lo <= m)%nat /\
  (nth lo v 0 <= quantile_sorted v p)%Q /\
  ((lo < m)%nat -> (quantile_sorted v p < nth (S lo) v 0)%Q) /\
  ((pos == inject_Z (Qfloor pos))%Q -> (quantile_sorted v p == nth lo v 0)%Q) /\
  ((lo < m)%nat ->
   (quantile_sorted v p
    == nth lo v 0 + (nth (S lo) v 0 - nth lo v 0) * (pos - inject_Z (Qfloor pos)))%Q).
Proof.
  intros Hs Hlen Hp0 Hp1 m pos lo.
  assert (Hm : (0 < inject_Z (Z.of_nat m))%Q).
  { change 0%Q with (inject_Z 0). rewrite <- Zlt_Qlt. subst m. lia. }
  assert (Hpos0 : (0 <= pos)%Q) by (subst pos; nra).
  assert (Hpos1 : (pos <= inject_Z (Z.of_nat m))%Q) by (subst pos; nra).
  assert (Hf0 : (0 <= Qfloor pos)%Z).
  { rewrite <- (Qfloor_Z 0). apply Qfloor_resp_le. assumption. }
  assert (Hf1 : (Qfloor pos <= Z.of_nat m)%Z).
  { rewrite <- (Qfloor_Z (Z.of_nat m)). apply Qfloor_resp_le. assumption. }
  assert (Hlo : (lo <= m)%nat) by (subst lo; lia).
  pose proof (Qfloor_le pos) as Hfl.
  pose proof (Qlt_floor pos) as Hfu. rewrite inject_Z_plus in Hfu.
  change (inject_Z 1) with 1%Q in Hfu.
  unfold quantile_sorted. fold m. fold pos. fold lo.
  set (frac := (pos - inject_Z (Qfloor pos))%Q).
  assert (Hfr0 : (0 <= frac)%Q) by (subst frac; lra).
  assert (Hfr1 : (frac < 1)%Q) by (subst frac; lra).
  split; [assumption|]. split; [assumption|].
  assert (Hhi : (nth lo v 0 <= nth (Nat.min (S lo) m) v 0)%Q).
  { apply nth_nondecreasing; [assumption | lia | lia]. }
  split; [|split; [|split]].
  - rewrite Qred_correct. nra.
  - intros Hlt. rewrite Qred_correct. rewrite Nat.min_l by lia.
    assert (Hab : (nth lo v 0 < nth (S lo) v 0)%Q)
      by (apply nth_increasing; [assumption | lia | lia]).
    nra.
  - intros Hint. rewrite Qred_correct.
    assert (Hz : (frac == 0)%Q) by (subst frac; lra).
    rewrite Hz. ring.
  - intros Hlt. rewrite Qred_correct. rewrite Nat.min_l by lia. reflexivity.
Qed.

(** The quantiles of an increasing sample of two values or more
    increase strictly with the fraction. *)
Lemma quantile_sorted_increasing (v : list Q) (p p' : Q) :
  strictly_increasing v = true -> (2 <= length v)%nat ->
  (0 <= p)%Q -> (p < p')%Q -> (p' <= 1)%Q ->
  (quantile_sorted v p < quantile_sorted v p')%Q.
Proof.
  intros Hs Hlen Hp0 Hpp Hp1.
  destruct (quantile_sorted_spec v p Hs Hlen) as [Hf [Hlo [Hge [Hlt [_ Heq]]]]];
    [assumption | lra |].
  destruct (quantile_sorted_spec v p' Hs Hlen) as [Hf' [Hlo' [Hge' [Hlt' [_ Heq']]]]];
    [lra | assumption |].
  set (m := (length v - 1)%nat) in *.
  set (pos := (p * inject_Z (Z.of_nat m))%Q) in *.
  set (pos' := (p' * inject_Z (Z.of_nat m))%Q) in *.
  assert (Hm : (0 < inject_Z (Z.of_nat m))%Q).
  { change 0%Q with (inject_Z 0). rewrite <- Zlt_Qlt. subst m. lia. }
  assert (Hpos : (pos < pos')%Q) by (subst pos pos'; nra).
  assert (Hpos1 : (pos' <= inject_Z (Z.of_nat m))%Q) by (subst pos'; nra).
  assert (Hfl : (Qfloor pos <= Qfloor pos')%Z)
    by (apply Qfloor_resp_le, Qlt_le_weak; assumption).
  destruct (decide (Qfloor pos = Qfloor pos')) as [Hsame|Hdiff].
  - assert (Hlom : (Z.to_nat (Qfloor pos) < m)%nat).
    { destruct (decide (Z.to_nat (Qfloor pos) < m)%nat) as [|Hn]; [assumption|].
      exfalso.
      assert (Hfm : Qfloor pos = Z.of_nat m) by lia.
      pose proof (Qfloor_le pos) as Hle. rewrite Hfm in Hle.
      lra. }
    rewrite (Heq Hlom).
    assert (Hlom' : (Z.to_nat (Qfloor pos') < m)%nat) by (rewrite <- Hsame; assumption).
    rewrite (Heq' Hlom'). rewrite <- Hsame.
    assert (Hab : (nth (Z.to_nat (Qfloor pos)) v 0 < nth (S (Z.to_nat (Qfloor pos))) v 0)%Q)
      by (apply nth_increasing; [assumption | lia | lia]).
    nra.
  - assert (Hlolo : (S (Z.to_nat (Qfloor pos)) <= Z.to_nat (Qfloor pos'))%nat) by lia.
    eapply Qlt_le_trans; [apply Hlt; lia|].
    eapply Qle_trans; [|exact Hge'].
    apply nth_nondecreasing; [assumption | lia | lia].
Qed.

End QuantileFacts.

Section QuantileBins.

Lemma filter_none {A} (P : A -> Prop) `{forall a, Decision (P a)} (l : list A) :
  Forall (fun a => ~ P a) l -> filter P l = [].
Proof.
  induction 1 as [|a l Ha _ IH]; [reflexivity|].
  rewrite filter_cons_False by assumption. exact IH.
Qed.

(** In increasing edges, the edge at position [k] has [k] edges below
    it and [k + 1] edges not above it. *)
Lemma searchsorted_at (l : list Q) (k : nat) (x : Q) :
  strictly_increasing l = true -> l !! k = Some x ->
  searchsorted_left l x = k /\ searchsorted_right l x = S k.
Proof.
  revert k. induction l as [|a l IH]; intros k Hs Hk; [discriminate|].
  pose proof (strictly_increasing_above a l Hs) as Habove.
  pose proof (strictly_increasing_tail a l Hs) as Htl.
  unfold searchsorted_left, searchsorted_right in *.
  destruct k as [|k]; simpl in Hk.
  - injection Hk as ->.
    rewrite filter_cons_False
      by (intros H; apply Is_true_true, Qltb_lt in H; eapply Qlt_irrefl; eassumption).
    rewrite filter_cons_True by (apply Is_true_true, Qleb_le, Qle_refl).
    rewrite !filter_none; [split; reflexivity | |].
    + eapply Forall_impl; [exact Habove|]. intros b Hb H. simpl in Hb.
      apply Is_true_true, Qleb_le in H. eapply Qlt_not_le; eassumption.
    + eapply Forall_impl; [exact Habove|]. intros b Hb H. simpl in Hb.
      apply Is_true_true, Qltb_lt in H. eapply Qlt_irrefl.
      eapply Qlt_trans; eassumption.
  - assert (Hax : (a < x)%Q).
    { rewrite Forall_lookup in Habove. eapply Habove. eassumption. }
    rewrite filter_cons_True by (apply Is_true_true, Qltb_lt; assumption).
    rewrite filter_cons_True
      by (apply Is_true_true, Qleb_le, Qlt_le_weak; assumption).
    destruct (IH k Htl Hk) as [H1 H2]. simpl. rewrite H1, H2. split; reflexivity.
Qed.

(** In quantile mode a value that is an edge other than the lowest
    falls into the interval that ends there. *)
Lemma qcut_code_at_edge (bins : list Q) (i : nat) (e : Q) :
  strictly_increasing bins = true -> bins !! i = Some e -> (1 <= i)%nat ->
  qcut_code bins e = (Z.of_nat i - 1)%Z.
Proof.
  intros Hs Hi Hpos. unfold qcut_code.
  destruct (searchsorted_at bins i e Hs Hi) as [Hl _]. rewrite Hl.
  assert (Hlen : (i < length bins)%nat) by (eapply lookup_lt_Some; eassumption).
  destruct bins as [|b0 bins]; [discriminate|].
  assert (Hb0 : (b0 < e)%Q).
  { apply (strictly_increasing_lookup _ Hs 0%nat i); [lia | reflexivity | assumption]. }
  unfold Qeqb. destruct (Qeq_bool e b0) eqn:E.
  { apply Qeq_bool_iff in E. rewrite E in Hb0. exfalso. eapply Qlt_irrefl. eassumption. }
  rewrite (proj2 (Nat.eqb_neq i (length (b0 :: bins)))) by lia.
  rewrite (proj2 (Nat.eqb_neq i 0)) by lia. reflexivity.
Qed.

(** A value between the lowest and the highest edge gets the number of
    an interval. *)
Lemma linspace01_lookup (q k : nat) :
  (1 <= q)%nat -> (k <= q)%nat ->
  linspace01 q !! k = Some (inject_Z (Z.of_nat k) / inject_Z (Z.of_nat q))%Q.
Proof.
  intros Hq Hk. unfold linspace01. destruct q as [|q]; [lia|].
  change (List.map ?f ?l) with (f <$> l).
  rewrite list_lookup_fmap, lookup_seq_lt by lia. reflexivity.
Qed.

Lemma linspace01_length (q : nat) : length (linspace01 q) = S q.
Proof.
  unfold linspace01. destruct q as [|q]; [reflexivity|].
  rewrite length_map, length_seq. reflexivity.
Qed.

Lemma fraction_bounds (q k : nat) :
  (1 <= q)%nat -> (k <= q)%nat ->
  (0 <= inject_Z (Z.of_nat k) / inject_Z (Z.of_nat q))%Q /\
  (inject_Z (Z.of_nat k) / inject_Z (Z.of_nat q) <= 1)%Q.
Proof.
  intros Hq Hk.
  assert (Hqq : (0 < inject_Z (Z.of_nat q))%Q).
  { change 0%Q with (inject_Z 0). rewrite <- Zlt_Qlt. lia. }
  split.
  - apply Qle_shift_div_l; [assumption|]. rewrite Qmult_0_l.
    change 0%Q with (inject_Z 0). rewrite <- Zle_Qle. lia.
  - apply Qle_shift_div_r; [assumption|]. rewrite Qmult_1_l.
    rewrite <- Zle_Qle. lia.
Qed.

Lemma fraction_increasing (q j k : nat) :
  (1 <= q)%nat -> (j < k)%nat ->
  (inject_Z (Z.of_nat j) / inject_Z (Z.of_nat q)
   < inject_Z (Z.of_nat k) / inject_Z (Z.of_nat q))%Q.
Proof.
  intros Hq Hjk.
  assert (Hqq : (0 < inject_Z (Z.of_nat q))%Q).
  { change 0%Q with (inject_Z 0). rewrite <- Zlt_Qlt. lia. }
  apply Qlt_shift_div_l; [assumption|].
  unfold Qdiv. rewrite <- Qmult_assoc, (Qmult_comm (/ _)), Qmult_inv_r, Qmult_1_r.
  - rewrite <- Zlt_Qlt. lia.
  - intros H. rewrite H in Hqq. eapply Qlt_irrefl. eassumption.
Qed.

Lemma raw_bins_lookup (v : list Q) (q k : nat) :
  (1 <= q)%nat -> (k <= q)%nat ->
  raw_bins v q !! k
  = Some (quantile_sorted v (inject_Z (Z.of_nat k) / inject_Z (Z.of_nat q))%Q).
Proof.
  intros Hq Hk. unfold raw_bins.
  change (List.map ?f ?l) with (f <$> l).
  rewrite list_lookup_fmap, linspace01_lookup by assumption. reflexivity.
Qed.

Lemma raw_bins_length (v : list Q) (q : nat) : length (raw_bins v q) = S q.
Proof. unfold raw_bins. rewrite length_map. apply linspace01_length. Qed.

(** For an increasing sample of two values or more the edges increase
    strictly: none is dropped. *)
Lemma raw_bins_increasing (v : list Q) (q : nat) :
  strictly_increasing v = true -> (2 <= length v)%nat -> (1 <= q)%nat ->
  strictly_increasing (raw_bins v q) = true.
Proof.
  intros Hs Hlen Hq. apply lookup_strictly_increasing. intros i a b Ha Hb.
  assert (Hi : (S i <= q)%nat).
  { apply lookup_lt_Some in Hb. rewrite raw_bins_length in Hb. lia. }
  rewrite raw_bins_lookup in Ha, Hb by lia.
  injection Ha as <-. injection Hb as <-.
  apply quantile_sorted_increasing; try assumption.
  - apply fraction_bounds; lia.
  - apply fraction_increasing; lia.
  - apply fraction_bounds; lia.
Qed.

(** The lowest edge is the least value and the highest edge the
    greatest. *)
End QuantileBins.

Section QuantileProperties.

(** Every rendered boundary has one digit after the point. *)
Lemma format_1f_one_decimal (a : Q) :
  exists whole d,
    format_1f a = whole ++ py "." ++ [d] /\ (48 <= d)%N /\ (d <= 57)%N.
Proof.
  unfold format_1f.
  set (t := round_half_even (Qabs a * 10)).
  exists ((if Qltb a 0 then py "-" else []) ++ decimal (t / 10)).
  assert (Hmod : (0 <= t mod 10 < 10)%Z) by (apply Z.mod_pos_bound; lia).
  assert (Hd : exists d, decimal (t mod 10) = [d] /\ (48 <= d)%N /\ (d <= 57)%N).
  { assert (Hcases : (t mod 10 = 0 \/ t mod 10 = 1 \/ t mod 10 = 2 \/ t mod 10 = 3
                      \/ t mod 10 = 4 \/ t mod 10 = 5 \/ t mod 10 = 6 \/ t mod 10 = 7
                      \/ t mod 10 = 8 \/ t mod 10 = 9)%Z) by lia.
    repeat (destruct Hcases as [Hc|Hcases]; [rewrite Hc; eexists; vm_compute;
            (split; [reflexivity | split; discriminate])|]).
    rewrite Hcases. eexists. vm_compute. split; [reflexivity | split; discriminate]. }
  destruct Hd as [d [Hd Hr]]. exists d. split; [|exact Hr].
  rewrite Hd, <- app_assoc. reflexivity.
Qed.

End QuantileProperties.

Section EdgeValues.

Lemma strictly_increasing_nondecreasing (l : list Q) :
  strictly_increasing l = true -> nondecreasing l = true.
Proof.
  intros Hs. apply lookup_nondecreasing. intros i a b Ha Hb.
  apply Qlt_le_weak.
  apply (strictly_increasing_lookup l Hs i (S i)); [lia | assumption | assumption].
Qed.

Lemma lookup_interior (fe : list Q) (k : nat) (b : Q) :
  fe !! (S k) = Some b -> (S (S k) < length fe)%nat -> interior fe !! k = Some b.
Proof.
  intros H Hlen. unfold interior.
  rewrite lookup_take_lt by lia. rewrite lookup_drop. exact H.
Qed.

Lemma strictly_increasing_interior (fe : list Q) :
  strictly_increasing fe = true -> strictly_increasing (interior fe) = true.
Proof.
  intros H. apply lookup_strictly_increasing. intros i a b Ha Hb.
  apply interior_lookup in Ha. apply interior_lookup in Hb.
  apply (strictly_increasing_lookup fe H (S i) (S (S i))); [lia | tauto | tauto].
Qed.

(** Fixed mode, increasing edges: a value equal to the edge at position
    [i >= 1] gets class [i], and the last edge gets the last class. *)
Lemma make_bins_fixed_at_edge (y fe : list Q) (n : Z) (cls : list Z)
      (labels : list str) (j i : nat) (e : Q) :
  strictly_increasing fe = true ->
  (1 <= n)%Z -> Z.of_nat (length fe) = (n + 1)%Z ->
  make_bins y (py "fixed") n (Some fe) = Some (Ok (cls, fe, labels)) ->
  y !! j = Some e -> fe !! i = Some e -> (1 <= i)%nat ->
  cls !! j = Some (Z.min (Z.of_nat i) (n - 1)).
Proof.
  intros Hs Hn Hlen Hmk Hj Hi Hpos.
  assert (Hil : (i < length fe)%nat) by (eapply lookup_lt_Some; eassumption).
  destruct (render_labels_ok fe n) as [labels' [Hlab _]]; [lia | lia |].
  rewrite make_bins_fixed_unfold in Hmk by assumption.
  unfold digitize, monotonicity in Hmk.
  rewrite nondecreasing_interior in Hmk
    by (apply strictly_increasing_nondecreasing; assumption).
  rewrite Hlab in Hmk. simpl in Hmk. injection Hmk as <- _.
  change (List.map ?f y) with (f <$> y).
  rewrite list_lookup_fmap, Hj. simpl. f_equal.
  destruct (decide (S i < length fe)%nat) as [Hin|Hlast].
  - destruct i as [|i]; [lia|].
    destruct (searchsorted_at (interior fe) i e) as [_ Hr].
    + apply strictly_increasing_interior. assumption.
    + apply lookup_interior; assumption.
    + rewrite Hr. lia.
  - rewrite searchsorted_right_all.
    + rewrite interior_length. lia.
    + apply Forall_lookup. intros k b Hb. apply interior_lookup in Hb.
      destruct Hb as [Hb Hk]. apply Qlt_le_weak.
      apply (strictly_increasing_lookup fe Hs (S k) i); [lia | assumption | assumption].
Qed.

Lemma qcut_codes (y : list Q) (q : Z) (codes : list Z) (bins : list Q) :
  qcut y q = Some (Ok (codes, bins)) -> codes = List.map (qcut_code bins) y.
Proof.
  unfold qcut, qcut_with, exact_edges. destruct y as [|x y]; [discriminate|].
  destruct (q <? -1)%Z; [discriminate|].
  destruct (q =? -1)%Z; [discriminate|].
  intros H. injection H as <- <-. reflexivity.
Qed.

(** Quantile mode, increasing edges: a value equal to the edge at
    position [i >= 1] gets class [i - 1]. *)
Lemma make_bins_quantile_at_edge (y : list Q) (mode : str) (n : Z)
      (fe : option (list Q)) (codes : list Z) (edges : list Q)
      (labels : list str) (j i : nat) (e : Q) :
  mode <> py "fixed" ->
  make_bins y mode n fe = Some (Ok (codes, edges, labels)) ->
  strictly_increasing edges = true ->
  y !! j = Some e -> edges !! i = Some e -> (1 <= i)%nat ->
  codes !! j = Some (Z.of_nat i - 1)%Z.
Proof.
  intros Hmode Hmk Hs Hj Hi Hpos. unfold make_bins, make_bins_with in Hmk. fold (qcut y n) in Hmk.
  rewrite bool_decide_eq_false_2 in Hmk by assumption.
  destruct (qcut y n) as [[[codes' bins]|err]|] eqn:Hq; try discriminate.
  simpl in Hmk.
  destruct (render_labels bins (Z.of_nat (length bins) - 1)) as [labels'|err];
    try discriminate.
  simpl in Hmk. injection Hmk as -> -> _.
  rewrite (qcut_codes _ _ _ _ Hq).
  change (List.map ?f y) with (f <$> y).
  rewrite list_lookup_fmap, Hj. simpl. f_equal.
  apply qcut_code_at_edge; assumption.
Qed.

(** C2. The code on values that sit on an edge. With the fixed edges a
    value of 6.5 gets class 2, 5.0 class 1 and 10.0 the last class 4.
    In quantile mode the sample 1, 2, 3 cut in two has the edges 1, 2, 3
    and the value 2, the interior edge [edges[1]], gets class 0; the
    sample 1..9 cut in four has the edges 1, 3, 5, 7, 9 and the values
    3, 5, 7 get the classes 0, 1, 2: an interior edge [edges[i]] gets
    class [i - 1], while the labels returned with it read "[1.0, 3.0)",
    "[3.0, 5.0)" and so on. *)
Theorem make_bins_edge_values :
  make_bins [13 # 2; 5; 10]%Q (py "fixed") N_CLASSES FIXED_EDGES
  = Some (Ok ([2; 1; 4]%Z,
              [0; 5; 13 # 2; 15 # 2; 17 # 2; 10]%Q,
              [py "[0.0, 5.0)"; py "[5.0, 6.5)"; py "[6.5, 7.5)"; py "[7.5, 8.5)";
               py "[8.5, 10.0]"]))
  /\
  make_bins [1; 2; 3]%Q (py "quantile") 2 FIXED_EDGES
  = Some (Ok ([0; 0; 1]%Z, [1; 2; 3]%Q, [py "[1.0, 2.0)"; py "[2.0, 3.0]"]))
  /\
  make_bins [1; 2; 3; 4; 5; 6; 7; 8; 9]%Q (py "quantile") 4 FIXED_EDGES
  = Some (Ok ([0; 0; 0; 1; 1; 2; 2; 3; 3]%Z,
              [1; 3; 5; 7; 9]%Q,
              [py "[1.0, 3.0)"; py "[3.0, 5.0)"; py "[5.0, 7.0)"; py "[7.0, 9.0]"])).
Proof. repeat split; vm_compute; reflexivity. Qed.

End EdgeValues.

(** * The rest of the code: properties *)

(** ** GenresBinarizer: tokens, vocabulary, shapes *)

Section Tokens.

Lemma truthy_and_strip (x : str) : truthy x && truthy (strip x) = truthy (strip x).
Proof. destruct x as [|c x]; reflexivity. Qed.

Lemma strip_filter_commute (l : list str) :
  List.map strip (filter (fun x => truthy x && truthy (strip x)) l)
  = filter (fun t => t <> []) (List.map strip l).
Proof.
  induction l as [|p l IH]; [reflexivity|].
  change (List.map strip (p :: l)) with (strip p :: List.map strip l).
  rewrite (filter_cons (fun x : str => truthy x && truthy (strip x))).
  rewrite (filter_cons (fun t : str => t <> [])).
  assert (Hiff : truthy p && truthy (strip p) <-> strip p <> []).
  { rewrite truthy_and_strip. destruct (strip p); simpl; split; intros H;
      try discriminate; try tauto. }
  destruct (decide (truthy p && truthy (strip p))) as [H|H];
    destruct (decide (strip p <> [])) as [H'|H']; try tauto.
  change (List.map strip (p :: ?t)) with (strip p :: List.map strip t).
  f_equal. exact IH.
Qed.

Lemma tags_of_alt (x : str) :
  tags_of x = filter (fun t => t <> []) (List.map strip (split pipe x)).
Proof. apply strip_filter_commute. Qed.

Lemma elem_of_concat {A} (x : A) (ll : list (list A)) :
  x ∈ List.concat ll <-> exists l, l ∈ ll /\ x ∈ l.
Proof.
  induction ll as [|l ll IH]; simpl.
  - split; [intros H; inversion H | intros [l [H _]]; inversion H].
  - rewrite elem_of_app, IH. split.
    + intros [H|[l' [H1 H2]]]; [exists l; split; [left | assumption]|].
      exists l'. split; [right; assumption | assumption].
    + intros [l' [H1 H2]]. apply elem_of_cons in H1. destruct H1 as [->|H1].
      * left. assumption.
      * right. exists l'. split; assumption.
Qed.

Lemma split_pieces (sep : N) (s p : str) : p ∈ split sep s -> sep ∉ p.
Proof.
  revert p. induction s as [|c s IH]; intros p Hp.
  - simpl in Hp. apply list_elem_of_singleton in Hp. subst p. apply not_elem_of_nil.
  - simpl in Hp. destruct (N.eqb_spec c sep) as [->|Hne].
    + apply elem_of_cons in Hp. destruct Hp as [->|Hp]; [apply not_elem_of_nil|].
      apply IH. assumption.
    + destruct (split sep s) as [|w ws] eqn:E.
      * exfalso. eapply split_not_nil. eassumption.
      * apply elem_of_cons in Hp. destruct Hp as [->|Hp].
        -- intros Hin. apply elem_of_cons in Hin. destruct Hin as [Hin|Hin];
             [congruence|]. revert Hin. apply IH. left.
        -- apply IH. right. assumption.
Qed.

Lemma strip_no_sep (sep : N) (p : str) : sep ∉ p -> sep ∉ strip p.
Proof.
  intros Hp Hin. apply Hp.
  destruct (strip_decompose p) as [w1 [w2 [_ [_ Hd]]]]. rewrite Hd.
  rewrite !elem_of_app. right. left. assumption.
Qed.

(** What a tag is: a piece between pipes, trimmed, and not empty. *)
Lemma tags_of_elem (x g : str) :
  g ∈ tags_of x -> g <> [] /\ strip g = g /\ pipe ∉ g.
Proof.
  rewrite tags_of_alt. intros H. apply list_elem_of_filter in H. destruct H as [Hne H].
  apply list_elem_of_fmap in H. destruct H as [p [-> Hp]].
  split; [assumption|]. split; [apply strip_idemp|].
  apply strip_no_sep. eapply split_pieces. eassumption.
Qed.

Lemma exploded_tokens_tags (s : list str) :
  exploded_tokens s = List.concat (List.map tags_of s).
Proof.
  unfold exploded_tokens. induction s as [|x s IH]; [reflexivity|].
  cbn [List.map List.concat]. rewrite List.map_app, filter_app, tags_of_alt.
  apply (f_equal2 app); [reflexivity | exact IH].
Qed.

(** X1. [fit] and [transform] cut a column into tokens in the same way:
    the tokens [fit] counts are the tags [transform] looks up, cell by
    cell and in order; a token is counted as often as it is a tag. *)
Theorem fit_counts_the_tags_of_transform (vals : list cell) :
  exploded_tokens (List.map fillna vals)
  = List.concat (List.map (fun x => tags_of (fillna x)) vals) /\
  forall g,
    count_of g (exploded_tokens (List.map fillna vals))
    = foldr (fun x n => (count_of g (tags_of (fillna x)) + n)%nat) 0%nat vals.
Proof.
  rewrite exploded_tokens_tags. rewrite List.map_map. split; [reflexivity|].
  intros g. induction vals as [|x vals IH]; [reflexivity|].
  cbn [List.map List.concat foldr]. unfold count_of in *.
  rewrite filter_app, length_app, IH. reflexivity.
Qed.

Lemma elem_of_first_seen (g : str) (l : list str) : g ∈ first_seen l <-> g ∈ l.
Proof.
  induction l as [|x l IH]; simpl; [reflexivity|].
  rewrite !elem_of_cons, list_elem_of_filter, IH.
  destruct (decide (g = x)); tauto.
Qed.

Lemma value_counts_perm (l : list str) :
  value_counts l ≡ₚ List.map (fun x => (x, count_of x l)) (first_seen l).
Proof. apply sort_desc_perm. Qed.

Lemma value_counts_index (l : list str) : List.map fst (value_counts l) ≡ₚ first_seen l.
Proof.
  change (fst <$> value_counts l ≡ₚ first_seen l).
  rewrite value_counts_perm.
  change (fst <$> ((fun x => (x, count_of x l)) <$> first_seen l) ≡ₚ first_seen l).
  rewrite <- list_fmap_compose. simpl. rewrite list_fmap_id. reflexivity.
Qed.

Lemma elem_of_value_counts_index (g : str) (l : list str) :
  g ∈ List.map fst (value_counts l) <-> g ∈ l.
Proof. rewrite value_counts_index. apply elem_of_first_seen. Qed.

Lemma value_counts_entry (p : str * nat) (l : list str) :
  p ∈ value_counts l -> snd p = count_of (fst p) l.
Proof.
  rewrite value_counts_perm. intros H.
  apply list_elem_of_fmap in H. destruct H as [x [-> _]]. reflexivity.
Qed.

(** [head] keeps a prefix. *)
Lemma pd_head_take {A} (n : Z) (l : list A) : exists k, pd_head n l = take k l.
Proof. unfold pd_head. destruct (0 <=? n)%Z; eexists; reflexivity. Qed.

Lemma pd_head_all {A} (n : Z) (l : list A) :
  (Z.of_nat (length l) <= n)%Z -> pd_head n l = l.
Proof.
  intros H. unfold pd_head. rewrite (proj2 (Z.leb_le 0 n)) by lia.
  apply take_ge. lia.
Qed.

(** The state [fit] leaves when it counts. *)
Lemma fit_counting (self : GenresBinarizer) (X : array_like) (vals : list cell) :
  vocab self = None -> _to_1d X = Ok vals ->
  fit X self
  = (Ok tt,
     {| vocab := None; top_k := top_k self;
        classes_ := Some (pd_head (top_k self)
                            (List.map fst (value_counts
                               (exploded_tokens (List.map fillna vals))))) |}).
Proof.
  intros Hv HX. unfold fit, set_classes_, bind, lift, get, put.
  rewrite HX. simpl. rewrite !Hv. reflexivity.
Qed.

(** X2. A vocabulary fit by counting holds tags of the training column
    only: each token is a tag of some training cell, so it is not
    empty, has no whitespace around it and no pipe in it. *)
Theorem fit_vocabulary_tokens (self : GenresBinarizer) (X : array_like)
        (vals : list cell) :
  vocab self = None -> _to_1d X = Ok vals ->
  exists c,
    classes_ (snd (fit X self)) = Some c /\
    forall g, g ∈ c ->
      (exists x, x ∈ vals /\ g ∈ tags_of (fillna x)) /\
      g <> [] /\ strip g = g /\ pipe ∉ g.
Proof.
  intros Hv HX. rewrite (fit_counting self X vals Hv HX). simpl.
  eexists. split; [reflexivity|]. intros g Hg.
  destruct (pd_head_take (top_k self)
              (List.map fst (value_counts (exploded_tokens (List.map fillna vals)))))
    as [k Hk].
  rewrite Hk in Hg. apply elem_of_take in Hg. destruct Hg as [i [Hi _]].
  apply list_elem_of_lookup_2 in Hi.
  apply (proj1 (elem_of_value_counts_index _ _)) in Hi.
  rewrite exploded_tokens_tags in Hi.
  apply elem_of_concat in Hi. destruct Hi as [l [Hl Hgl]].
  apply list_elem_of_fmap in Hl. destruct Hl as [s [-> Hs]].
  apply list_elem_of_fmap in Hs. destruct Hs as [x [-> Hx]].
  split; [exists x; split; assumption|].
  eapply tags_of_elem. eassumption.
Qed.

Lemma fit_vocabulary_tokens_witness :
  exists c,
    classes_ (snd (fit (Series [Some (py "Drama| Comedy "); None]) (init None 30)))
    = Some c /\
    forall g, g ∈ c -> g <> [] /\ strip g = g.
Proof.
  destruct (fit_vocabulary_tokens (init None 30)
              (Series [Some (py "Drama| Comedy "); None])
              [Some (py "Drama| Comedy "); None] eq_refl eq_refl) as [c [Hc H]].
  exists c. split; [exact Hc|]. intros g Hg.
  destruct (H g Hg) as [_ [H1 [H2 _]]]. split; assumption.
Defined.

End Tokens.

Section Vocabulary.

Lemma insert_desc_sorted (p : str * nat) (l : list (str * nat)) :
  StronglySorted (fun a b => (snd b <= snd a)%nat) l ->
  StronglySorted (fun a b => (snd b <= snd a)%nat) (insert_desc p l).
Proof.
  induction 1 as [|q l Hs IH Hq]; simpl.
  - constructor; [constructor | constructor].
  - destruct (Nat.leb_spec (snd q) (snd p)) as [Hle|Hgt].
    + constructor; [constructor; assumption|].
      constructor; [assumption|].
      eapply Forall_impl; [exact Hq|]. intros r Hr. simpl in *. lia.
    + constructor; [assumption|].
      rewrite insert_desc_perm. constructor; [lia | assumption].
Qed.

Lemma sort_desc_sorted (l : list (str * nat)) :
  StronglySorted (fun a b => (snd b <= snd a)%nat) (sort_desc l).
Proof.
  induction l as [|p l IH]; simpl; [constructor|].
  apply insert_desc_sorted. exact IH.
Qed.

Lemma StronglySorted_lookup {A} (R : relation A) (l : list A) :
  StronglySorted R l ->
  forall i j a b, (i < j)%nat -> l !! i = Some a -> l !! j = Some b -> R a b.
Proof.
  induction 1 as [|x l Hs IH Hx]; intros i j a b Hij Ha Hb; [discriminate|].
  destruct j as [|j]; [lia|]. simpl in Hb.
  destruct i as [|i]; simpl in Ha.
  - injection Ha as <-. rewrite Forall_forall in Hx. apply Hx.
    eapply list_elem_of_lookup_2. eassumption.
  - apply (IH i j); [lia | assumption | assumption].
Qed.

(** X3. [fit] by counting keeps the most frequent tokens: the
    vocabulary is in order of falling frequency, and no token left out
    is more frequent in the training column than a token kept. *)
Theorem fit_keeps_most_frequent (self : GenresBinarizer) (X : array_like)
        (vals : list cell) (c : list str) :
  vocab self = None -> _to_1d X = Ok vals ->
  classes_ (snd (fit X self)) = Some c ->
  let tokens := List.concat (List.map (fun x => tags_of (fillna x)) vals) in
  (forall i j g h, (i <= j)%nat -> c !! i = Some g -> c !! j = Some h ->
                   (count_of h tokens <= count_of g tokens)%nat) /\
  (forall g t, g ∈ c -> t ∈ tokens -> t ∉ c ->
               (count_of t tokens <= count_of g tokens)%nat).
Proof.
  intros Hv HX Hc tokens.
  rewrite (fit_counting self X vals Hv HX) in Hc. simpl in Hc.
  rewrite exploded_tokens_tags, List.map_map in Hc. fold tokens in Hc.
  destruct (pd_head_take (top_k self) (List.map fst (value_counts tokens))) as [k Hk].
  rewrite Hk in Hc. injection Hc as <-.
  change (List.map fst (value_counts tokens)) with (fst <$> value_counts tokens).
  rewrite <- fmap_take.
  pose proof (sort_desc_sorted
                (List.map (fun x => (x, count_of x tokens)) (first_seen tokens))) as Hs.
  fold (value_counts tokens) in Hs.
  split.
  - intros i j g h Hij Hg Hh.
    rewrite list_lookup_fmap in Hg, Hh.
    destruct (take k (value_counts tokens) !! i) as [p|] eqn:Hp; [|discriminate].
    destruct (take k (value_counts tokens) !! j) as [q|] eqn:Hq; [|discriminate].
    simpl in Hg, Hh. injection Hg as <-. injection Hh as <-.
    assert (Hpin : p ∈ value_counts tokens).
    { eapply list_elem_of_lookup_2. apply lookup_take_Some in Hp. apply Hp. }
    assert (Hqin : q ∈ value_counts tokens).
    { eapply list_elem_of_lookup_2. apply lookup_take_Some in Hq. apply Hq. }
    rewrite <- (value_counts_entry p tokens Hpin), <- (value_counts_entry q tokens Hqin).
    destruct (decide (i = j)) as [->|Hne]; [rewrite Hp in Hq; injection Hq as ->; lia|].
    apply lookup_take_Some in Hp. apply lookup_take_Some in Hq.
    apply (StronglySorted_lookup _ _ Hs i j p q); [lia | tauto | tauto].
  - intros g t Hg Ht Hnot.
    apply list_elem_of_fmap in Hg. destruct Hg as [p [-> Hp]].
    apply (proj2 (elem_of_value_counts_index t tokens)) in Ht.
    apply list_elem_of_fmap in Ht. destruct Ht as [q [-> Hq]].
    rewrite <- (take_drop k (value_counts tokens)) in Hq, Hs.
    apply elem_of_app in Hq. destruct Hq as [Hq|Hq].
    { exfalso. apply Hnot. apply list_elem_of_fmap_2. assumption. }
    pose proof (StronglySorted_app_1_elem_of _ _ _ p q Hs Hp Hq) as Hle.
    assert (Hpin : p ∈ value_counts tokens).
    { rewrite <- (take_drop k (value_counts tokens)). apply elem_of_app. left. assumption. }
    assert (Hqin : q ∈ value_counts tokens).
    { rewrite <- (take_drop k (value_counts tokens)). apply elem_of_app. right. assumption. }
    rewrite <- (value_counts_entry p tokens Hpin), <- (value_counts_entry q tokens Hqin).
    exact Hle.
Qed.

Lemma fit_keeps_most_frequent_witness :
  (count_of (py "Comedy") [py "Drama"; py "Comedy"; py "Drama"]
   <= count_of (py "Drama") [py "Drama"; py "Comedy"; py "Drama"])%nat.
Proof.
  apply (proj2 (fit_keeps_most_frequent (init None 1)
                  (Series [Some (py "Drama|Comedy"); Some (py "Drama")])
                  [Some (py "Drama|Comedy"); Some (py "Drama")]
                  [py "Drama"] eq_refl eq_refl eq_refl) (py "Drama") (py "Comedy")).
  - left.
  - right. left.
  - intros H. apply list_elem_of_singleton in H. discriminate H.
Defined.

Lemma first_seen_size (l : list str) :
  length (first_seen l) = size (list_to_set l : gset str).
Proof.
  rewrite <- (size_list_to_set (C := gset str) (first_seen l)) by apply first_seen_NoDup.
  f_equal. apply set_eq. intros g.
  rewrite !elem_of_list_to_set. apply elem_of_first_seen.
Qed.

(** X4. When [top_k] is at least the number of distinct tokens, the
    vocabulary fit by counting holds every token of the training column,
    and encoding a training row loses nothing: the tags of the row are
    exactly the vocabulary tokens at the positions where its vector has
    1.0. *)
Theorem fit_transform_recovers_tags (self : GenresBinarizer) (X : array_like)
        (vals : list cell) :
  vocab self = None -> _to_1d X = Ok vals ->
  let tokens := List.concat (List.map (fun x => tags_of (fillna x)) vals) in
  (Z.of_nat (size (list_to_set tokens : gset str)) <= top_k self)%Z ->
  exists c out,
    let fitted := snd (fit X self) in
    classes_ fitted = Some c /\
    (forall g, g ∈ c <-> g ∈ tokens) /\
    transform X fitted = (Ok out, fitted) /\
    forall r x v, vals !! r = Some x -> out !! r = Some v ->
      forall g, g ∈ tags_of (fillna x)
                <-> exists i, c !! i = Some g /\ v !! i = Some 1%Q.
Proof.
  intros Hv HX tokens Hk.
  rewrite (fit_counting self X vals Hv HX). simpl.
  rewrite exploded_tokens_tags, List.map_map. fold tokens.
  rewrite pd_head_all.
  2:{ rewrite length_map. change (value_counts tokens) with
        (sort_desc (List.map (fun x => (x, count_of x tokens)) (first_seen tokens))).
      rewrite (Permutation_length (sort_desc_perm _)), length_map, first_seen_size.
      exact Hk. }
  set (c := List.map fst (value_counts tokens)).
  assert (Hnd : NoDup c) by apply value_counts_index_NoDup.
  assert (Hall : forall g, g ∈ c <-> g ∈ tokens)
    by (intros g; apply elem_of_value_counts_index).
  eexists c. eexists. split; [reflexivity|]. split; [exact Hall|].
  split; [apply (transform_fitted X _ c vals); [reflexivity | assumption]|].
  intros r x v Hr Hout g.
  change (List.map ?f vals) with (f <$> vals) in Hout.
  rewrite list_lookup_fmap, Hr in Hout. simpl in Hout. injection Hout as <-.
  split.
  - intros Hg.
    assert (Hgc : g ∈ c).
    { apply Hall. apply elem_of_concat. exists (tags_of (fillna x)).
      split; [|assumption].
      change (List.map ?f vals) with (f <$> vals).
      apply (list_elem_of_fmap_2 (fun x => tags_of (fillna x))).
      eapply list_elem_of_lookup_2. eassumption. }
    apply list_elem_of_lookup in Hgc. destruct Hgc as [i Hi].
    exists i. split; [assumption|].
    rewrite (row_entry c _ i g Hi).
    rewrite decide_True; [reflexivity|].
    split; [assumption | apply NoDup_not_later; assumption].
  - intros [i [Hi Hv1]].
    rewrite (row_entry c _ i g Hi) in Hv1.
    destruct (decide (g ∈ tags_of (fillna x) /\ g ∉ drop (S i) c)) as [[H _]|_];
      [assumption | discriminate].
Qed.

Lemma fit_transform_recovers_tags_witness :
  exists c out,
    classes_ (snd (fit (Series [Some (py "Drama|Comedy"); Some (py "Drama")])
                       (init None 30))) = Some c /\
    transform (Series [Some (py "Drama|Comedy"); Some (py "Drama")])
              (snd (fit (Series [Some (py "Drama|Comedy"); Some (py "Drama")])
                        (init None 30)))
    = (Ok out, snd (fit (Series [Some (py "Drama|Comedy"); Some (py "Drama")])
                        (init None 30))).
Proof.
  destruct (fit_transform_recovers_tags (init None 30)
              (Series [Some (py "Drama|Comedy"); Some (py "Drama")])
              [Some (py "Drama|Comedy"); Some (py "Drama")] eq_refl eq_refl)
    as [c [out [H1 [_ [H2 _]]]]].
  - vm_compute. discriminate.
  - exists c, out. split; assumption.
Defined.

End Vocabulary.

Section Shapes.

(** X5. [transform] works row by row: the matrix for a column is the
    matrix for its first rows followed by the matrix for the others, so
    a row is encoded in a batch as it is alone. *)
Theorem transform_row_by_row (self : GenresBinarizer) (c : list str)
        (a b : list cell) :
  classes_ self = Some c ->
  exists out_a out_b,
    transform (Series a) self = (Ok out_a, self) /\
    transform (Series b) self = (Ok out_b, self) /\
    transform (Series (a ++ b)) self = (Ok (out_a ++ out_b), self) /\
    length out_a = length a /\ length out_b = length b.
Proof.
  intros Hc. eexists. eexists.
  split; [eapply transform_fitted; [eassumption | reflexivity]|].
  split; [eapply transform_fitted; [eassumption | reflexivity]|].
  split.
  - erewrite transform_fitted by (eassumption || reflexivity).
    rewrite List.map_app. reflexivity.
  - rewrite !length_map. split; reflexivity.
Qed.

Lemma transform_row_by_row_witness :
  exists out_a out_b,
    transform (Series [Some (py "Drama")]) demo_enc = (Ok out_a, demo_enc) /\
    transform (Series [None; Some (py "Action|Drama")]) demo_enc = (Ok out_b, demo_enc) /\
    transform (Series [Some (py "Drama"); None; Some (py "Action|Drama")]) demo_enc
    = (Ok (out_a ++ out_b), demo_enc).
Proof.
  destruct (transform_row_by_row demo_enc [py "Drama"; py "Comedy"; py "Action"]
              [Some (py "Drama")] [None; Some (py "Action|Drama")] eq_refl)
    as [oa [ob [H1 [H2 [H3 _]]]]].
  exists oa, ob. split; [exact H1|]. split; [exact H2 | exact H3].
Defined.

(** X6. A frame that does not have exactly one column is refused by
    [fit] and by [transform] with a [ValueError], and the encoder is
    left as it was: still unfitted after a refused [fit], or with the
    vocabulary it had. A frame of one column, a series and an array of
    the same cells are treated alike. *)
Theorem frame_shape_checked (self : GenresBinarizer) (cols : list (list cell)) :
  (length cols <> 1%nat ->
   fit (DataFrame cols) self
   = (Raise (ValueError "Expected single-column DataFrame, got shape ..."), self) /\
   (forall c, classes_ self = Some c ->
      transform (DataFrame cols) self
      = (Raise (ValueError "Expected single-column DataFrame, got shape ..."), self))) /\
  (forall col,
     fit (DataFrame [col]) self = fit (Series col) self /\
     fit (NdArray col) self = fit (Series col) self /\
     transform (DataFrame [col]) self = transform (Series col) self /\
     transform (NdArray col) self = transform (Series col) self).
Proof.
  split.
  - intros Hlen.
    assert (H1 : _to_1d (DataFrame cols)
                 = Raise (ValueError "Expected single-column DataFrame, got shape ...")).
    { destruct cols as [|c1 [|c2 cols]]; simpl; try reflexivity. simpl in Hlen. lia. }
    split.
    + unfold fit, bind, lift. rewrite H1. reflexivity.
    + intros c Hc. unfold transform, bind, get, lift. rewrite Hc, H1. reflexivity.
  - intros col. repeat split; reflexivity.
Qed.

Lemma frame_shape_checked_witness :
  fit (DataFrame [[Some (py "Drama")]; [Some (py "PG")]]) (init None 30)
  = (Raise (ValueError "Expected single-column DataFrame, got shape ..."), init None 30).
Proof.
  apply (proj1 (frame_shape_checked (init None 30)
                  [[Some (py "Drama")]; [Some (py "PG")]])).
  simpl. lia.
Defined.

(** X7. Fitting again replaces the vocabulary: after [fit] on one
    column and then on another, the encoder is as if it had only been
    fit on the second. *)
Theorem refit_replaces_vocabulary (self : GenresBinarizer) (X1 X2 : array_like)
        (v1 v2 : list cell) :
  _to_1d X1 = Ok v1 -> _to_1d X2 = Ok v2 ->
  bind (fit X1) (fun _ => fit X2) self = fit X2 self.
Proof.
  intros H1 H2. unfold fit, set_classes_, bind, lift, get, put.
  rewrite H1, H2. simpl. destruct (vocab self) eqn:E; simpl; rewrite ?E; reflexivity.
Qed.

Lemma refit_replaces_vocabulary_witness :
  bind (fit (Series [Some (py "Drama")])) (fun _ => fit (Series [Some (py "Action")]))
       (init None 30)
  = fit (Series [Some (py "Action")]) (init None 30).
Proof.
  exact (refit_replaces_vocabulary (init None 30) (Series [Some (py "Drama")])
           (Series [Some (py "Action")]) [Some (py "Drama")] [Some (py "Action")]
           eq_refl eq_refl).
Defined.

Lemma genre_prefix_inj (g h : str) : py "genre__" ++ g = py "genre__" ++ h -> g = h.
Proof. apply app_inv_head. Qed.

(** X8. [get_feature_names_out] names the columns of [transform]: on a
    fitted encoder it returns one name per entry of every encoded row,
    the name at position [i] is "genre__" followed by the vocabulary
    token at position [i], and names of different tokens differ. On an
    encoder that is not fitted it raises a [TypeError] (not the
    [RuntimeError] of [transform]). *)
Theorem feature_names_match_columns (self : GenresBinarizer) (X : array_like)
        (vals : list cell) :
  _to_1d X = Ok vals ->
  (classes_ self = None ->
   get_feature_names_out self = Throw (TypeError "'NoneType' object is not iterable")) /\
  (forall c, classes_ self = Some c ->
   exists names out,
     get_feature_names_out self = Return names /\
     transform X self = (Ok out, self) /\
     Forall (fun v => length v = length names) out /\
     (forall i g, c !! i = Some g <-> names !! i = Some (py "genre__" ++ g)) /\
     (NoDup c -> NoDup names)).
Proof.
  intros HX. unfold get_feature_names_out. split; [intros ->; reflexivity|].
  intros c Hc. rewrite Hc. eexists. eexists. split; [reflexivity|].
  split; [eapply transform_fitted; eassumption|].
  split; [|split].
  - apply Forall_forall. intros v Hv.
    apply list_elem_of_fmap in Hv. destruct Hv as [x [-> _]].
    rewrite mark_vec_length, length_replicate, length_map. reflexivity.
  - intros i g. change (List.map ?f c) with (f <$> c). rewrite list_lookup_fmap.
    generalize (py "genre__"). intros pre. unfold str in *.
    destruct (c !! i) as [h|]; simpl.
    + split; [intros [= ->]; reflexivity|].
      intros H. injection H as H. apply app_inv_head in H. congruence.
    + split; discriminate.
  - intros Hnd. change (List.map ?f c) with (f <$> c).
    apply NoDup_fmap_2; [|assumption].
    intros g h. apply genre_prefix_inj.
Qed.

Lemma feature_names_match_columns_witness :
  exists names out,
    get_feature_names_out demo_enc = Return names /\
    transform (Series [Some (py "Drama")]) demo_enc = (Ok out, demo_enc) /\
    Forall (fun v => length v = length names) out.
Proof.
  destruct (proj2 (feature_names_match_columns demo_enc (Series [Some (py "Drama")])
                     [Some (py "Drama")] eq_refl)
                  [py "Drama"; py "Comedy"; py "Action"] eq_refl)
    as [names [out [H1 [H2 [H3 _]]]]].
  exists names, out. split; [exact H1|]. split; [exact H2 | exact H3].
Defined.

End Shapes.

(** ** From the request to the encoder *)

Section RequestTags.

Lemma split_prefix (sep : N) (w s : str) :
  sep ∉ w ->
  exists p ps, split sep s = p :: ps /\ split sep (w ++ s) = (w ++ p) :: ps.
Proof.
  induction w as [|c w IH]; intros Hw.
  - destruct (split sep s) as [|p ps] eqn:E.
    + exfalso. eapply split_not_nil. eassumption.
    + exists p, ps. split; [reflexivity | simpl; exact E].
  - destruct IH as [p [ps [H1 H2]]].
    { intros Hin. apply Hw. right. assumption. }
    exists p, ps. split; [assumption|].
    simpl. destruct (N.eqb_spec c sep) as [->|Hne].
    + exfalso. apply Hw. left.
    + rewrite H2. reflexivity.
Qed.

Lemma split_suffix (sep : N) (s w : str) :
  sep ∉ w ->
  exists l p, split sep s = l ++ [p] /\ split sep (s ++ w) = l ++ [p ++ w].
Proof.
  intros Hw. induction s as [|c s [l [p [H1 H2]]]].
  - exists [], []. split; [reflexivity|]. simpl. apply split_no_sep. assumption.
  - simpl. destruct (c =? sep)%N.
    + exists ([] :: l), p. rewrite H1, H2. split; reflexivity.
    + rewrite H1, H2. destruct l as [|q l].
      * exists [], (c :: p). split; reflexivity.
      * exists ((c :: q) :: l), p. split; reflexivity.
Qed.

Lemma tags_of_lpad (w s : str) : blank w -> tags_of (w ++ s) = tags_of s.
Proof.
  intros Hw. rewrite !tags_of_alt.
  destruct (split_prefix pipe w s (blank_no_pipe w Hw)) as [p [ps [H1 H2]]].
  rewrite H1, H2. cbn [List.map].
  replace (strip (w ++ p)) with (strip p); [reflexivity|].
  symmetry. rewrite <- (app_nil_r p) at 1. apply strip_around; [assumption | constructor].
Qed.

Lemma tags_of_rpad (s w : str) : blank w -> tags_of (s ++ w) = tags_of s.
Proof.
  intros Hw. rewrite !tags_of_alt.
  destruct (split_suffix pipe s w (blank_no_pipe w Hw)) as [l [p [H1 H2]]].
  rewrite H1, H2, !List.map_app. cbn [List.map].
  replace (strip (p ++ w)) with (strip p); [reflexivity|].
  symmetry. apply (strip_around [] p w); [constructor | assumption].
Qed.

(** Whitespace around a cell does not change its tags. *)
Lemma tags_of_strip (s : str) : tags_of (strip s) = tags_of s.
Proof.
  destruct (strip_decompose s) as [w1 [w2 [H1 [H2 Hd]]]].
  rewrite Hd at 2. rewrite tags_of_lpad, tags_of_rpad by assumption. reflexivity.
Qed.

Lemma tags_of_app_pipe (a b : str) : tags_of (a ++ pipe :: b) = tags_of a ++ tags_of b.
Proof. unfold tags_of. rewrite split_app, filter_app, List.map_app. reflexivity. Qed.

Lemma tags_of_join (l : list str) :
  tags_of (join (py "|") l) = List.concat (List.map tags_of l).
Proof.
  induction l as [|x l IH]; [reflexivity|].
  destruct l as [|y l].
  - simpl. rewrite app_nil_r. reflexivity.
  - change (join (py "|") (x :: y :: l)) with (x ++ pipe :: join (py "|") (y :: l)).
    rewrite tags_of_app_pipe, IH. reflexivity.
Qed.

Lemma tags_of_clean_genres (gs : list str) :
  List.concat (List.map tags_of (clean_genres gs)) = List.concat (List.map tags_of gs).
Proof.
  induction gs as [|g gs IH]; [reflexivity|].
  rewrite clean_genres_cons. cbn [List.map List.concat].
  destruct (truthy (strip g)) eqn:E.
  - cbn [List.map List.concat]. rewrite tags_of_strip, IH. reflexivity.
  - rewrite (tags_of_blank g) by (apply truthy_strip_blank; assumption).
    exact IH.
Qed.

Lemma tags_of_no_pipe (g : str) :
  pipe ∉ g -> tags_of g = if truthy (strip g) then [strip g] else [].
Proof.
  intros Hg. rewrite tags_of_alt, split_no_sep by assumption.
  cbn [List.map]. rewrite filter_cons.
  destruct (decide (strip g <> [])) as [H|H]; destruct (strip g) eqn:E;
    try reflexivity; try congruence.
Qed.

(** X9. The tags the encoder reads in the row built for a request are
    the tags of the entries of [genres], in order: an entry is trimmed,
    an empty one gives nothing, and an entry with pipes in it is cut
    into several tags. They are the same as without the handler's
    cleaning (the entries joined as they are); when no entry has a
    pipe, they are the cleaned entries themselves. *)
Theorem request_tags (req : PredictRequest) :
  tags_of (row_genres (make_row req)) = List.concat (List.map tags_of (genres req)) /\
  tags_of (row_genres (make_row req)) = tags_of (join (py "|") (genres req)) /\
  (Forall (fun g => pipe ∉ g) (genres req) ->
   tags_of (row_genres (make_row req)) = clean_genres (genres req)).
Proof.
  assert (H : tags_of (row_genres (make_row req))
              = List.concat (List.map tags_of (genres req))).
  { unfold make_row. simpl. rewrite tags_of_join. apply tags_of_clean_genres. }
  split; [exact H|]. split; [rewrite H, tags_of_join; reflexivity|].
  intros Hnp. rewrite H. clear H.
  induction Hnp as [|g gs Hg _ IH]; [reflexivity|].
  cbn [List.map List.concat]. rewrite IH, clean_genres_cons, (tags_of_no_pipe g Hg).
  destruct (truthy (strip g)); reflexivity.
Qed.

End RequestTags.

(** ** make_bins with fixed edges: intervals, order, errors *)

Section FixedIntervals.

Lemma nondecreasing_tail (a : Q) (l : list Q) :
  nondecreasing (a :: l) = true -> nondecreasing l = true.
Proof.
  destruct l as [|b l]; [reflexivity|]. simpl.
  intros H. apply andb_true_iff in H. tauto.
Qed.

Lemma nondecreasing_above (a : Q) (l : list Q) :
  nondecreasing (a :: l) = true -> Forall (fun b => (a <= b)%Q) l.
Proof.
  intros Hs. apply Forall_lookup. intros k b Hk.
  apply (nondecreasing_lookup _ Hs 0%nat (S k)); [lia | reflexivity | assumption].
Qed.

(** In a sorted array the elements not above [x] come first: the count
    [searchsorted] returns is the place where [x] would be inserted. *)
Lemma searchsorted_right_sorted (l : list Q) (x : Q) :
  nondecreasing l = true ->
  (forall i a, (i < searchsorted_right l x)%nat -> l !! i = Some a -> (a <= x)%Q) /\
  (forall i a, (searchsorted_right l x <= i)%nat -> l !! i = Some a -> (x < a)%Q).
Proof.
  induction l as [|b l IH]; intros Hs.
  - split; intros i a _ H; discriminate.
  - pose proof (nondecreasing_above b l Hs) as Hab.
    destruct (IH (nondecreasing_tail b l Hs)) as [IH1 IH2].
    unfold searchsorted_right in *.
    destruct (Qleb b x) eqn:E.
    + rewrite filter_cons_True by (apply Is_true_true; assumption).
      apply Qleb_le in E. split; intros i a Hi Ha.
      * destruct i as [|i]; simpl in Ha.
        -- injection Ha as <-. assumption.
        -- apply (IH1 i); [simpl in Hi; lia | assumption].
      * destruct i as [|i]; [simpl in Hi; lia|]. simpl in Ha.
        apply (IH2 i); [simpl in Hi; lia | assumption].
    + assert (Hlt : (x < b)%Q).
      { apply Qnot_le_lt. intros H. apply Qleb_le in H. congruence. }
      rewrite filter_cons_False by (intros H; apply Is_true_true in H; congruence).
      rewrite filter_none.
      2:{ eapply Forall_impl; [exact Hab|]. intros c Hc H. simpl in Hc.
          apply Is_true_true, Qleb_le in H.
          apply (Qlt_irrefl x). eapply Qlt_le_trans; [exact Hlt|].
          eapply Qle_trans; eassumption. }
      split; intros i a Hi Ha; [simpl in Hi; lia|].
      destruct i as [|i]; simpl in Ha.
      * injection Ha as <-. assumption.
      * eapply Qlt_le_trans; [exact Hlt|].
        rewrite Forall_lookup in Hab. eapply Hab. eassumption.
Qed.

Lemma searchsorted_left_sorted (l : list Q) (x : Q) :
  nondecreasing l = true ->
  (forall i a, (i < searchsorted_left l x)%nat -> l !! i = Some a -> (a < x)%Q) /\
  (forall i a, (searchsorted_left l x <= i)%nat -> l !! i = Some a -> (x <= a)%Q).
Proof.
  induction l as [|b l IH]; intros Hs.
  - split; intros i a _ H; discriminate.
  - pose proof (nondecreasing_above b l Hs) as Hab.
    destruct (IH (nondecreasing_tail b l Hs)) as [IH1 IH2].
    unfold searchsorted_left in *.
    destruct (Qltb b x) eqn:E.
    + rewrite filter_cons_True by (apply Is_true_true; assumption).
      apply Qltb_lt in E. split; intros i a Hi Ha.
      * destruct i as [|i]; simpl in Ha.
        -- injection Ha as <-. assumption.
        -- apply (IH1 i); [simpl in Hi; lia | assumption].
      * destruct i as [|i]; [simpl in Hi; lia|]. simpl in Ha.
        apply (IH2 i); [simpl in Hi; lia | assumption].
    + apply Qltb_ge in E.
      rewrite filter_cons_False
        by (intros H; apply Is_true_true, Qltb_lt in H; eapply Qlt_not_le; eassumption).
      rewrite filter_none.
      2:{ eapply Forall_impl; [exact Hab|]. intros c Hc H. simpl in Hc.
          apply Is_true_true, Qltb_lt in H.
          apply (Qlt_irrefl x). eapply Qle_lt_trans; [exact E|].
          eapply Qle_lt_trans; eassumption. }
      split; intros i a Hi Ha; [simpl in Hi; lia|].
      destruct i as [|i]; simpl in Ha.
      * injection Ha as <-. assumption.
      * eapply Qle_trans; [exact E|].
        rewrite Forall_lookup in Hab. eapply Hab. eassumption.
Qed.

Lemma searchsorted_right_mono (l : list Q) (x x' : Q) :
  (x <= x')%Q -> (searchsorted_right l x <= searchsorted_right l x')%nat.
Proof.
  intros Hx. unfold searchsorted_right.
  induction l as [|b l IH]; [reflexivity|].
  rewrite !filter_cons.
  destruct (decide (Qleb b x)) as [H|H].
  - rewrite decide_True.
    + simpl. lia.
    + apply Is_true_true, Qleb_le in H. apply Is_true_true, Qleb_le.
      eapply Qle_trans; eassumption.
  - destruct (decide (Qleb b x')); simpl; lia.
Qed.

(** The codes of fixed mode with non-decreasing edges. *)
Lemma make_bins_fixed_sorted (y fe : list Q) (n : Z) (cls : list Z)
      (labels : list str) :
  nondecreasing fe = true ->
  (1 <= n)%Z -> Z.of_nat (length fe) = (n + 1)%Z ->
  make_bins y (py "fixed") n (Some fe) = Some (Ok (cls, fe, labels)) ->
  cls = List.map (fun v => Z.of_nat (searchsorted_right (interior fe) v)) y.
Proof.
  intros Hnd Hn Hlen Hmk.
  destruct (render_labels_ok fe n) as [labels' [Hlab _]]; [lia | lia |].
  rewrite make_bins_fixed_unfold in Hmk by assumption.
  unfold digitize, monotonicity in Hmk.
  rewrite nondecreasing_interior in Hmk by assumption.
  rewrite Hlab in Hmk. simpl in Hmk. injection Hmk as <- _. reflexivity.
Qed.

(** X10. Fixed mode with non-decreasing edges puts a value in the
    half-open interval it belongs to: a value with class [k] is at or
    above [edges[k]] unless [k] is the first class, and below
    [edges[k+1]] unless [k] is the last class. *)
Theorem make_bins_fixed_half_open (y fe : list Q) (n : Z) (cls : list Z)
        (labels : list str) (j : nat) (x : Q) (c : Z) :
  nondecreasing fe = true ->
  (1 <= n)%Z -> Z.of_nat (length fe) = (n + 1)%Z ->
  make_bins y (py "fixed") n (Some fe) = Some (Ok (cls, fe, labels)) ->
  y !! j = Some x -> cls !! j = Some c ->
  exists k : nat,
    c = Z.of_nat k /\ (Z.of_nat k <= n - 1)%Z /\
    (forall a, (1 <= k)%nat -> fe !! k = Some a -> (a <= x)%Q) /\
    (forall b, (Z.of_nat k < n - 1)%Z -> fe !! (S k) = Some b -> (x < b)%Q).
Proof.
  intros Hnd Hn Hlen Hmk Hj Hc.
  rewrite (make_bins_fixed_sorted y fe n cls labels Hnd Hn Hlen Hmk) in Hc.
  change (List.map ?f y) with (f <$> y) in Hc.
  rewrite list_lookup_fmap, Hj in Hc. simpl in Hc. injection Hc as <-.
  exists (searchsorted_right (interior fe) x).
  pose proof (searchsorted_right_le (interior fe) x) as Hle.
  rewrite interior_length in Hle.
  destruct (searchsorted_right_sorted (interior fe) x (nondecreasing_interior fe Hnd))
    as [H1 H2].
  split; [reflexivity|]. split; [lia|]. split.
  - intros a Hk Ha.
    destruct (searchsorted_right (interior fe) x) as [|k] eqn:E; [lia|].
    apply (H1 k); [lia|]. apply lookup_interior; [assumption | lia].
  - intros b Hk Hb.
    apply (H2 (searchsorted_right (interior fe) x)); [lia|].
    apply lookup_interior; [assumption | lia].
Qed.

Lemma make_bins_fixed_half_open_witness :
  exists k : nat,
    2%Z = Z.of_nat k /\
    (forall a, (1 <= k)%nat ->
               [0; 5; 13 # 2; 15 # 2; 17 # 2; 10]%Q !! k = Some a -> (a <= 7)%Q) /\
    (forall b, (Z.of_nat k < 5 - 1)%Z ->
               [0; 5; 13 # 2; 15 # 2; 17 # 2; 10]%Q !! (S k) = Some b -> (7 < b)%Q).
Proof.
  pose proof (make_bins_fixed_half_open [7]%Q [0; 5; 13 # 2; 15 # 2; 17 # 2; 10]%Q 5
                [2%Z] [py "[0.0, 5.0)"; py "[5.0, 6.5)"; py "[6.5, 7.5)";
                       py "[7.5, 8.5)"; py "[8.5, 10.0]"] 0%nat 7%Q 2%Z
                eq_refl ltac:(lia) eq_refl ltac:(vm_compute; reflexivity)
                eq_refl eq_refl) as H.
  destruct H as [k [H1 [_ [H2 H3]]]].
  exists k. split; [exact H1|]. split; [exact H2 | exact H3].
Defined.

(** X11. Fixed mode with non-decreasing edges keeps the order of the
    values: a larger value never gets a smaller class. *)
Theorem make_bins_fixed_monotone (y fe : list Q) (n : Z) (cls : list Z)
        (labels : list str) (i j : nat) (x x' : Q) (c c' : Z) :
  nondecreasing fe = true ->
  (1 <= n)%Z -> Z.of_nat (length fe) = (n + 1)%Z ->
  make_bins y (py "fixed") n (Some fe) = Some (Ok (cls, fe, labels)) ->
  y !! i = Some x -> y !! j = Some x' -> (x <= x')%Q ->
  cls !! i = Some c -> cls !! j = Some c' ->
  (c <= c')%Z.
Proof.
  intros Hnd Hn Hlen Hmk Hi Hj Hx Hc Hc'.
  rewrite (make_bins_fixed_sorted y fe n cls labels Hnd Hn Hlen Hmk) in Hc, Hc'.
  change (List.map ?f y) with (f <$> y) in Hc, Hc'.
  rewrite list_lookup_fmap, Hi in Hc. rewrite list_lookup_fmap, Hj in Hc'.
  simpl in Hc, Hc'. injection Hc as <-. injection Hc' as <-.
  pose proof (searchsorted_right_mono (interior fe) x x' Hx). lia.
Qed.

Lemma make_bins_fixed_monotone_witness : (1 <= 3)%Z.
Proof.
  exact (make_bins_fixed_monotone [5; 8]%Q [0; 5; 13 # 2; 15 # 2; 17 # 2; 10]%Q 5
           [1; 3]%Z [py "[0.0, 5.0)"; py "[5.0, 6.5)"; py "[6.5, 7.5)"; py "[7.5, 8.5)";
                     py "[8.5, 10.0]"] 0%nat 1%nat 5%Q 8%Q 1%Z 3%Z
           eq_refl ltac:(lia) eq_refl ltac:(vm_compute; reflexivity)
           eq_refl eq_refl ltac:(vm_compute; discriminate) eq_refl eq_refl).
Defined.

(** X12. What fixed mode can end with, whatever the values: an
    [AssertionError] exactly when the edges are missing, empty or not
    [n_classes + 1] many; otherwise numpy's [ValueError] exactly when
    the interior edges are neither non-decreasing nor non-increasing;
    otherwise a result with the edges as given, [n_classes] labels and
    one class per value. *)
Theorem make_bins_fixed_outcomes (y : list Q) (n : Z) (fe : option (list Q)) :
  let well_counted :=
    exists l, fe = Some l /\ l <> [] /\ Z.of_nat (length l) = (n + 1)%Z in
  (~ well_counted ->
   make_bins y (py "fixed") n fe = Some (Raise AssertionError)) /\
  (forall l, fe = Some l -> l <> [] -> Z.of_nat (length l) = (n + 1)%Z ->
     (monotonicity (interior l) = 0%Z ->
      make_bins y (py "fixed") n fe
      = Some (Raise (ValueError "bins must be monotonically increasing or decreasing"))) /\
     (monotonicity (interior l) <> 0%Z ->
      exists cls labels,
        make_bins y (py "fixed") n fe = Some (Ok (cls, l, labels)) /\
        length cls = length y /\ Z.of_nat (length labels) = n)).
Proof.
  split.
  - intros Hbad. unfold make_bins, make_bins_with. rewrite bool_decide_eq_true_2 by reflexivity.
    destruct fe as [[|e l]|]; try reflexivity.
    destruct (bool_decide _) eqn:E; [|reflexivity].
    exfalso. apply Hbad. exists (e :: l).
    apply bool_decide_eq_true_1 in E. split; [reflexivity|]. split; [discriminate|].
    exact E.
  - intros l -> Hne Hlen.
    assert (Hunf : make_bins y (py "fixed") n (Some l)
                   = Some (rbind (digitize y (interior l)) (fun cls =>
                           rbind (render_labels l n) (fun labels =>
                           Ok (cls, l, labels))))).
    { unfold make_bins, make_bins_with. rewrite bool_decide_eq_true_2 by reflexivity.
      destruct l as [|e l]; [congruence|].
      rewrite bool_decide_eq_true_2 by assumption. reflexivity. }
    assert (Hn : (0 <= n)%Z) by (destruct l; [congruence | simpl in Hlen; lia]).
    destruct (render_labels_ok l n) as [labels [Hlab [Hlablen _]]]; [lia | lia |].
    split.
    + intros Hm. rewrite Hunf, digitize_not_monotone by assumption. reflexivity.
    + intros Hm. destruct (digitize_range y (interior l) Hm) as [cls [Hd [Hl _]]].
      exists cls, labels. rewrite Hunf, Hd, Hlab. simpl.
      split; [reflexivity|]. split; [assumption | lia].
Qed.

End FixedIntervals.

(** ** load_data: the content rating column *)

Section ContentRating.

Lemma replacements_lookup (t : str) :
  replacements !! t
  = if decide (py "M" = t) then Some (py "PG")
    else if decide (py "GP" = t) then Some (py "PG")
    else if decide (py "TV-14 " = t) then Some (py "TV-14")
    else if decide (py "TV MA" = t) then Some (py "TV-MA")
    else None.
Proof.
  unfold replacements. rewrite !lookup_insert, lookup_empty.
  repeat case_decide; reflexivity.
Qed.

Lemma not_a_key (r : str) :
  r <> py "TV MA" -> r <> py "GP" -> r <> py "M" -> r <> py "TV-14 " ->
  r ∉ [py "TV MA"; py "GP"; py "M"; py "TV-14 "].
Proof.
  intros H1 H2 H3 H4 Hin.
  repeat (apply elem_of_cons in Hin; destruct Hin as [Hin|Hin]; [congruence|]).
  inversion Hin.
Qed.

Lemma series_replace_trimmed (t : str) :
  strip t = t ->
  let r := series_replace replacements t in
  strip r = r /\
  (r ∉ [py "TV MA"; py "GP"; py "M"; py "TV-14 "]) /\
  series_replace replacements r = r /\
  r = series_replace (delete (py "TV-14 ") replacements) t.
Proof.
  intros Ht.
  assert (Hdead : py "TV-14 " <> t).
  { intros H. rewrite <- H in Ht. vm_compute in Ht. discriminate. }
  unfold series_replace.
  rewrite (lookup_delete_ne replacements (py "TV-14 ") t Hdead).
  rewrite (replacements_lookup t).
  destruct (decide (py "M" = t)) as [H1|H1].
  { cbn [default]. repeat split; try (vm_compute; reflexivity).
    apply not_a_key; discriminate. }
  destruct (decide (py "GP" = t)) as [H2|H2].
  { cbn [default]. repeat split; try (vm_compute; reflexivity).
    apply not_a_key; discriminate. }
  rewrite decide_False by assumption.
  destruct (decide (py "TV MA" = t)) as [H4|H4].
  { cbn [default]. repeat split; try (vm_compute; reflexivity).
    apply not_a_key; discriminate. }
  cbn [default]. split; [exact Ht|]. split; [apply not_a_key; congruence|].
  split; [|reflexivity].
  rewrite (replacements_lookup t). rewrite !decide_False by assumption. reflexivity.
Qed.

(** X13. The content rating [load_data] leaves in a cell: "Unrated" for
    a missing one; never one of the spellings the dictionary replaces
    ("TV MA", "GP", "M"); without whitespace around it; and cleaning it
    again changes nothing. The entry for "TV-14 " never applies, the
    trailing blank being stripped before the dictionary is used. *)
Theorem content_rating_cleaned (c : cell) :
  let r := clean_content_rating c in
  (c = None -> r = py "Unrated") /\
  strip r = r /\
  (r ∉ [py "TV MA"; py "GP"; py "M"; py "TV-14 "]) /\
  clean_content_rating (Some r) = r /\
  r = series_replace (delete (py "TV-14 ") replacements)
                     (strip (default (py "Unrated") c)).
Proof.
  split; [intros ->; vm_compute; reflexivity|].
  unfold clean_content_rating.
  destruct (series_replace_trimmed (strip (default (py "Unrated") c))
              (strip_idemp _)) as [H1 [H2 [H3 H4]]].
  split; [exact H1|]. split; [exact H2|]. split; [|exact H4].
  cbn [default]. etransitivity; [|exact H3].
  apply (f_equal (series_replace replacements)). exact H1.
Qed.

End ContentRating.

(** ** make_one_hot_encoder *)

Section OneHotProperties.

Variable encoder : Type.
Variable OneHotEncoder : kwargs -> py_result encoder.

Lemma try_specs_first (pre post : list kwargs) (spec : kwargs) :
  Forall (refused encoder OneHotEncoder) pre -> ~ refused encoder OneHotEncoder spec ->
  try_specs encoder OneHotEncoder (pre ++ spec :: post) = OneHotEncoder spec.
Proof.
  intros Hpre Hspec. induction Hpre as [|s pre [m Hs] _ IH]; simpl.
  - destruct (OneHotEncoder spec) as [e|[x|m]] eqn:E; try reflexivity.
    exfalso. apply Hspec. exists m. assumption.
  - rewrite Hs. exact IH.
Qed.

Lemma try_specs_all_refused (specs : list kwargs) :
  Forall (refused encoder OneHotEncoder) specs ->
  try_specs encoder OneHotEncoder specs = OneHotEncoder [].
Proof.
  induction 1 as [|s specs [m Hs] _ IH]; simpl; [reflexivity|].
  rewrite Hs. exact IH.
Qed.

(** X14. [make_one_hot_encoder] answers with what the constructor does
    on the first of the four argument sets that it does not refuse with
    a [TypeError]: the encoder built, or the other exception raised.
    When all four are refused, the call after the loop is the fourth
    call again and raises its [TypeError]: that last line never returns
    an encoder. *)
Theorem make_one_hot_encoder_first_accepted :
  (forall pre spec post,
     ohe_specs = pre ++ spec :: post -> Forall (refused encoder OneHotEncoder) pre -> ~ refused encoder OneHotEncoder spec ->
     make_one_hot_encoder encoder OneHotEncoder = OneHotEncoder spec) /\
  (Forall (refused encoder OneHotEncoder) ohe_specs ->
   exists m, make_one_hot_encoder encoder OneHotEncoder = Throw (TypeError m)) /\
  (forall e, make_one_hot_encoder encoder OneHotEncoder = Return e ->
             exists spec, spec ∈ ohe_specs /\ OneHotEncoder spec = Return e /\
                          ~ refused encoder OneHotEncoder spec).
Proof.
  unfold make_one_hot_encoder. split; [|split].
  - intros pre spec post -> Hpre Hspec. apply try_specs_first; assumption.
  - intros Hall. rewrite try_specs_all_refused by assumption.
    apply Forall_forall with (x := []) in Hall; [exact Hall|].
    unfold ohe_specs. do 3 right. left.
  - intros e. unfold ohe_specs. simpl.
    repeat match goal with
           | |- context [match OneHotEncoder ?s with _ => _ end] =>
               let E := fresh "E" in
               destruct (OneHotEncoder s) as [?|[?|?]] eqn:E; try discriminate
           end;
      intros H; try discriminate H; injection H as ->;
      eexists; (split; [|split; [eassumption | intros [m' Hm']; congruence]]);
      unfold ohe_specs; set_solver.
Qed.

End OneHotProperties.

(** ** The handler: calls, failures, rounding *)

Section Rounding.



Lemma round_half_even_error (q : Q) :
  (q - (1 # 2) <= inject_Z (round_half_even q))%Q /\
  (inject_Z (round_half_even q) <= q + (1 # 2))%Q.
Proof.
  pose proof (Qfloor_le q) as H1. pose proof (Qlt_floor q) as H2.
  rewrite inject_Z_plus in H2. change (inject_Z 1) with 1%Q in H2.
  unfold round_half_even.
  destruct (Qcompare_spec (q - inject_Z (Qfloor q))%Q (1 # 2)%Q) as [He|Hl|Hg].
  - destruct (Z.even (Qfloor q)).
    + split; lra.
    + rewrite inject_Z_plus. change (inject_Z 1) with 1%Q. split; lra.
  - split; lra.
  - rewrite inject_Z_plus. change (inject_Z 1) with 1%Q. split; lra.
Qed.



Lemma clamp_unit (lo hi : Z) (z : Q) :
  (lo <= hi)%Z ->
  (inject_Z lo <= py_max (inject_Z lo) (py_min (inject_Z hi) z))%Q /\
  (py_max (inject_Z lo) (py_min (inject_Z hi) z) <= inject_Z hi)%Q.
Proof.
  intros Hle. rewrite py_max_Qmax. split; [apply Q.le_max_l|].
  apply Q.max_lub; [rewrite <- Zle_Qle; assumption|].
  rewrite py_min_Qmin. apply Q.le_min_l.
Qed.


End Rounding.

(** ** Doubles: the rounding is to the nearest point of the grid *)

Section Doubles.

Lemma pow2_succ (e : Z) : (pow2 (e + 1) == 2 * pow2 e)%Q.
Proof.
  unfold pow2.
  destruct (Z.leb_spec 0 e) as [He|He].
  - rewrite (proj2 (Z.leb_le 0 (e + 1))) by lia.
    rewrite Z.pow_add_r by lia. rewrite inject_Z_mult.
    change (inject_Z (2 ^ 1)) with 2%Q. ring.
  - destruct (Z.eq_dec e (-1)%Z) as [->|Hne]; [reflexivity|].
    rewrite (proj2 (Z.leb_gt 0 (e + 1))) by lia.
    assert (Hp : (0 < 2 ^ (- (e + 1)))%Z) by (apply Z.pow_pos_nonneg; lia).
    assert (Hq : (2 ^ (- e) = 2 * 2 ^ (- (e + 1)))%Z).
    { replace (- e)%Z with (1 + - (e + 1))%Z by lia.
      rewrite Z.pow_add_r by lia. reflexivity. }
    unfold Qeq, Qmult. cbn [Qnum Qden].
    rewrite Pos.mul_1_l, !Z2Pos.id by lia. lia.
Qed.

Lemma pow2_sub (a b : Z) :
  (0 <= a)%Z -> (0 <= b)%Z -> (pow2 (a - b) * inject_Z (2 ^ b) == inject_Z (2 ^ a))%Q.
Proof.
  intros Ha Hb. unfold pow2.
  destruct (Z.leb_spec 0 (a - b)) as [He|He].
  - rewrite <- inject_Z_mult, <- Z.pow_add_r by lia.
    replace (a - b + b)%Z with a by lia. reflexivity.
  - assert (Hp : (0 < 2 ^ (- (a - b)))%Z) by (apply Z.pow_pos_nonneg; lia).
    assert (Hq : (2 ^ b = 2 ^ a * 2 ^ (- (a - b)))%Z).
    { rewrite <- Z.pow_add_r by lia. f_equal. lia. }
    unfold Qeq, Qmult, inject_Z. cbn [Qnum Qden].
    rewrite Pos.mul_1_r, Z2Pos.id by lia. lia.
Qed.

(** [binade] is the exponent of the binade. *)
Lemma binade_spec (q : Q) :
  (0 < q)%Q -> (pow2 (binade q) <= q)%Q /\ (q < pow2 (binade q + 1))%Q.
Proof.
  intros Hq. destruct q as [n d]. unfold Qlt in Hq. cbn in Hq.
  assert (Hn : (0 < n)%Z) by lia.
  unfold binade. cbn [Qnum Qden].
  set (a := Z.log2 n). set (b := Z.log2 (Z.pos d)).
  assert (Ha0 : (0 <= a)%Z) by apply Z.log2_nonneg.
  assert (Hb0 : (0 <= b)%Z) by apply Z.log2_nonneg.
  destruct (Z.log2_spec n Hn) as [Ha1 Ha2]. fold a in Ha1, Ha2.
  destruct (Z.log2_spec (Z.pos d) ltac:(lia)) as [Hb1 Hb2]. fold b in Hb1, Hb2.
  rewrite Z.pow_succ_r in Ha2, Hb2 by assumption.
  pose proof (pow2_sub a b Ha0 Hb0) as Hsub.
  pose proof (pow2_pos (a - b)) as Hpos.
  pose proof (pow2_succ (a - b)) as Hs1.
  pose proof (pow2_succ (a - b - 1)) as Hs0.
  replace (a - b - 1 + 1)%Z with (a - b)%Z in Hs0 by lia.
  assert (HA1 : (inject_Z (2 ^ a) <= inject_Z n)%Q) by (rewrite <- Zle_Qle; assumption).
  assert (HA2 : (inject_Z n < 2 * inject_Z (2 ^ a))%Q).
  { change 2%Q with (inject_Z 2). rewrite <- inject_Z_mult, <- Zlt_Qlt. assumption. }
  assert (HB1 : (inject_Z (2 ^ b) <= inject_Z (Z.pos d))%Q)
    by (rewrite <- Zle_Qle; assumption).
  assert (HB2 : (inject_Z (Z.pos d) < 2 * inject_Z (2 ^ b))%Q).
  { change 2%Q with (inject_Z 2). rewrite <- inject_Z_mult, <- Zlt_Qlt. assumption. }
  assert (HD : (0 < inject_Z (Z.pos d))%Q) by reflexivity.
  assert (HBpos : (0 < inject_Z (2 ^ b))%Q).
  { change 0%Q with (inject_Z 0). rewrite <- Zlt_Qlt. apply Z.pow_pos_nonneg; lia. }
  assert (Hqd : ((n # d) * inject_Z (Z.pos d) == inject_Z n)%Q).
  { unfold Qeq, Qmult, inject_Z. cbn [Qnum Qden]. rewrite Pos.mul_1_r. lia. }
  set (q := (n # d)%Q) in *. set (P := pow2 (a - b)) in *.
  set (A := inject_Z (2 ^ a)) in *. set (B := inject_Z (2 ^ b)) in *.
  set (N := inject_Z n) in *. set (D := inject_Z (Z.pos d)) in *.
  assert (Hup : (q < 2 * P)%Q).
  { apply (Qmult_lt_r _ _ D HD). nra. }
  assert (Hlow : (P < 2 * q)%Q).
  { apply (Qmult_lt_r _ _ B HBpos). nra. }
  destruct (Qle_bool P q) eqn:E.
  - apply Qle_bool_iff in E. split; [assumption|]. rewrite Hs1. assumption.
  - assert (Hlt : (q < P)%Q).
    { destruct (Qlt_le_dec q P) as [|Hle]; [assumption|].
      apply Qle_bool_iff in Hle. congruence. }
    replace (a - b - 1 + 1)%Z with (a - b)%Z by lia. fold P.
    split; [|assumption]. lra.
Qed.

(** [fl x] is a point of the grid of its binade, and no point of the
    grid is nearer to [x]. *)
Lemma fl_nearest (x : Q) :
  ~ (x == 0)%Q ->
  let ulp := pow2 (Z.max (binade (Qabs x)) (-1022) - 52) in
  exists k : Z,
    (fl x == inject_Z k * ulp)%Q /\
    (Qabs (fl x - x) <= ulp / 2)%Q /\
    forall j : Z, (Qabs (fl x - x) <= Qabs (inject_Z j * ulp - x))%Q.
Proof.
  intros Hx ulp. unfold fl.
  replace (Qeq_bool x 0) with false.
  2:{ symmetry. apply not_true_is_false. intros H. apply Hx.
      apply Qeq_bool_iff. assumption. }
  fold ulp. assert (Hu : (0 < ulp)%Q) by apply pow2_pos.
  assert (Hxu : (x / ulp * ulp == x)%Q).
  { field. intros H. rewrite H in Hu. discriminate Hu. }
  destruct (round_half_even_error (x / ulp)) as [H1 H2].
  set (r := (x / ulp)%Q) in *.
  set (k := round_half_even r) in *.
  set (K := inject_Z k) in *.
  assert (Hlo : (x - ulp / 2 <= K * ulp)%Q).
  { assert (H : ((r - (1 # 2)) * ulp <= K * ulp)%Q)
      by (apply Qmult_le_compat_r; [assumption | apply Qlt_le_weak; assumption]).
    assert (Heq : ((r - (1 # 2)) * ulp == x - ulp / 2)%Q)
      by (rewrite <- Hxu; field).
    rewrite <- Heq. exact H. }
  assert (Hhi : (K * ulp <= x + ulp / 2)%Q).
  { assert (H : (K * ulp <= (r + (1 # 2)) * ulp)%Q)
      by (apply Qmult_le_compat_r; [assumption | apply Qlt_le_weak; assumption]).
    assert (Heq : ((r + (1 # 2)) * ulp == x + ulp / 2)%Q)
      by (rewrite <- Hxu; field).
    rewrite <- Heq. exact H. }
  assert (Herr : (Qabs (K * ulp - x) <= ulp / 2)%Q).
  { apply Qabs_Qle_condition. split; lra. }
  exists k. fold K. split; [apply Qred_correct|].
  split; [rewrite Qred_correct; exact Herr|].
  intros j. rewrite Qred_correct.
  destruct (Z.eq_dec j k) as [->|Hne]; [apply Qle_refl|].
  eapply Qle_trans; [exact Herr|].
  destruct (Z_lt_le_dec j k) as [Hlt|Hge].
  - assert (Hj : (inject_Z j <= K - 1)%Q).
    { assert (Hz : (inject_Z (j + 1) <= inject_Z k)%Q) by (rewrite <- Zle_Qle; lia).
      rewrite inject_Z_plus in Hz. change (inject_Z 1) with 1%Q in Hz.
      unfold K. lra. }
    assert (inject_Z j * ulp <= (K - 1) * ulp)%Q
      by (apply Qmult_le_compat_r; [assumption | apply Qlt_le_weak; assumption]).
    pose proof (Qle_Qabs (- (inject_Z j * ulp - x))) as Ha.
    pose proof (Qabs_opp (inject_Z j * ulp - x)) as Hb.
    assert (ulp * (1 # 2) == ulp / 2)%Q as Hc by field.
    assert ((K - 1) * ulp == K * ulp - ulp)%Q as Hd by ring.
    lra.
  - assert (Hj : (K + 1 <= inject_Z j)%Q).
    { unfold K. change 1%Q with (inject_Z 1).
      rewrite <- inject_Z_plus, <- Zle_Qle. lia. }
    assert ((K + 1) * ulp <= inject_Z j * ulp)%Q
      by (apply Qmult_le_compat_r; [assumption | apply Qlt_le_weak; assumption]).
    pose proof (Qle_Qabs (inject_Z j * ulp - x)) as Ha.
    assert (ulp * (1 # 2) == ulp / 2)%Q as Hc by field.
    assert ((K + 1) * ulp == K * ulp + ulp)%Q as Hd by ring.
    lra.
Qed.

End Doubles.

Section Serving.

Variable ALLOWED : gset str.
Variable pipe : pipeline.
Variable np_std : list Q -> Q.

Lemma members_trace (X : row) (l : list (nat * estimator)) (log : list event) :
  snd (mapM (call_estimator X) l log)
  = log ++ List.map (fun ie : nat * estimator => EstimatorPredict ie.1 X)
             (take (S (ok_prefix (List.map (fun ie : nat * estimator => est_predict ie.2 X) l))) l).
Proof.
  revert log. induction l as [|[i e] l IH]; intros log.
  - simpl. rewrite app_nil_r. reflexivity.
  - rewrite mapM_cons. unfold call_estimator at 1. cbn [fst snd].
    cbn [List.map ok_prefix]. cbn [fst snd].
    destruct (est_predict e X) as [p|err] eqn:E.
    + specialize (IH (log ++ [EstimatorPredict i X])).
      destruct (mapM (call_estimator X) l (log ++ [EstimatorPredict i X])) as [[ps|err] log'];
        cbn [snd] in *; rewrite IH; cbn [take List.map fst];
        rewrite <- app_assoc; reflexivity.
    + cbn [snd take List.map fst]. rewrite take_0. reflexivity.
Qed.

Lemma indexed_fst {A} (g : nat -> nat) (l : list A) :
  List.map fst (imap (fun i e => (g i, e)) l) = List.map g (seq 0 (length l)).
Proof.
  revert g. induction l as [|a l IH]; intros g; [reflexivity|].
  rewrite imap_cons. cbn [List.map length seq fst]. f_equal.
  change ((fun i e => (g i, e)) ∘ S) with (fun i (e : A) => (g (S i), e)).
  rewrite (IH (fun i => g (S i))).
  rewrite <- seq_shift. rewrite List.map_map. reflexivity.
Qed.

Lemma indexed_events (X : row) (ests : list estimator) (k : nat) :
  List.map (fun ie : nat * estimator => EstimatorPredict ie.1 X)
           (take k (imap (fun i e => (i, e)) ests))
  = List.map (fun i => EstimatorPredict i X) (seq 0 (Nat.min (length ests) k)).
Proof.
  rewrite <- (List.map_map fst (fun i => EstimatorPredict i X)).
  change (List.map fst (take k (imap (fun i e => (i, e)) ests)))
    with (fst <$> take k (imap (fun i (e : estimator) => (i, e)) ests)).
  rewrite fmap_take.
  change (fst <$> imap (fun i (e : estimator) => (i, e)) ests)
    with (List.map fst (imap (fun i (e : estimator) => (id i, e)) ests)).
  rewrite (indexed_fst id). rewrite List.map_id.
  rewrite take_seq. rewrite Nat.min_comm. reflexivity.
Qed.

Lemma member_confidence_trace (X : row) (log : list event) :
  exists conf,
    try_except (member_confidence pipe np_std X) (ret (1 # 2)%Q) log
    = (Ok conf, log ++ List.map (fun i => EstimatorPredict i X) (seq 0 (asked pipe X))) /\
    (0 <= conf)%Q /\ (conf <= 1)%Q.
Proof.
  unfold try_except, member_confidence, asked, members, bind, lift.
  destruct (named_steps pipe !! "model"%string) as [m|].
  2:{ exists (1 # 2)%Q. simpl. rewrite app_nil_r. repeat split; discriminate. }
  destruct (estimators_ m) as [ests|].
  2:{ exists (1 # 2)%Q. simpl. rewrite app_nil_r. repeat split; discriminate. }
  cbn [default].
  pose proof (members_trace X (imap (fun i e => (i, e)) ests) log) as Ht.
  rewrite snd_indexed in Ht. rewrite indexed_events in Ht.
  destruct (mapM (call_estimator X) (imap (fun i e => (i, e)) ests) log)
    as [[indiv|err] log'] eqn:E; cbn [snd] in Ht; subst log'.
  - destruct indiv as [|p ps].
    + exists 1%Q. unfold ret. repeat split; discriminate.
    + eexists. unfold ret. split; [reflexivity|].
      apply (clamp_unit 0 1). lia.
  - exists (1 # 2)%Q. unfold ret. repeat split; discriminate.
Qed.

Lemma predict_run (req : PredictRequest) (v : Q) (log : list event) :
  content_rating req ∈ ALLOWED ->
  pipe_predict pipe (make_row req) = Ok v ->
  exists resp,
    predict ALLOWED pipe np_std req log
    = (Ok resp,
       log ++ PipePredict (make_row req)
           :: List.map (fun i => EstimatorPredict i (make_row req))
                       (seq 0 (asked pipe (make_row req)))) /\
    predicted_score resp = round2 (py_max 0 (py_min 10 v)) /\
    (0 <= confidence resp)%Q /\ (confidence resp <= 1)%Q.
Proof.
  intros Hin Hv. unfold predict.
  rewrite bool_decide_eq_false_2 by (intros H; apply H; assumption).
  unfold bind at 1. unfold try_except at 1, call_pipe at 1. rewrite Hv.
  unfold bind at 1.
  destruct (member_confidence_trace (make_row req) (log ++ [PipePredict (make_row req)]))
    as [conf [Hrun [Hc0 Hc1]]].
  rewrite Hrun. unfold lift, make_response.
  destruct (round2_bounds 0 10 (py_max 0 (py_min 10 v))) as [Hs1 Hs2];
    [apply (clamp_unit 0 10); lia | apply (clamp_unit 0 10); lia |].
  destruct (round2_bounds 0 1 conf) as [Hr1 Hr2]; [assumption..|].
  change (inject_Z 0) with 0%Q in *. change (inject_Z 10) with 10%Q in *.
  change (inject_Z 1) with 1%Q in *.
  rewrite (proj2 (Qleb_le _ _) Hs1), (proj2 (Qleb_le _ _) Hs2).
  rewrite (proj2 (Qleb_le _ _) Hr1), (proj2 (Qleb_le _ _) Hr2).
  cbn [andb negb]. eexists. split.
  - rewrite <- app_assoc. reflexivity.
  - cbn [predicted_score confidence]. repeat split; assumption.
Qed.

Lemma ok_prefix_all (X : row) (ests : list estimator) :
  (forall e, e ∈ ests -> exists p, est_predict e X = Ok p) ->
  ok_prefix (List.map (fun e => est_predict e X) ests) = length ests.
Proof.
  induction ests as [|e ests IH]; intros Hall; [reflexivity|].
  cbn [List.map ok_prefix length].
  destruct (Hall e) as [p Hp]; [left|]. rewrite Hp. f_equal.
  apply IH. intros e' He'. apply Hall. right. assumption.
Qed.

Lemma ok_prefix_first (X : row) (ests : list estimator) (j : nat) (e : estimator) (err : exn) :
  ests !! j = Some e -> est_predict e X = Raise err ->
  (forall i e', (i < j)%nat -> ests !! i = Some e' -> exists p, est_predict e' X = Ok p) ->
  ok_prefix (List.map (fun e => est_predict e X) ests) = j.
Proof.
  revert j. induction ests as [|e0 ests IH]; intros j Hj He Hbefore; [discriminate|].
  cbn [List.map ok_prefix]. destruct j as [|j].
  - injection Hj as ->. rewrite He. reflexivity.
  - destruct (Hbefore 0%nat e0) as [p Hp]; [lia | reflexivity |].
    rewrite Hp. f_equal. apply IH; [assumption..|].
    intros i e' Hi He'. apply (Hbefore (S i) e'); [lia | assumption].
Qed.

(** X15. A request with an allowed rating that the pipeline answers is
    always answered: the response passes the bounds of its model
    whatever the members and [np.std] give. The pipeline is asked
    once, then the members of the step named "model" one after the
    other on the same row: all of them when each answers, and when
    one raises, those up to it and none after it. *)
Theorem predict_answers_in_order (req : PredictRequest) (v : Q) (log : list event) :
  content_rating req ∈ ALLOWED ->
  pipe_predict pipe (make_row req) = Ok v ->
  let X := make_row req in
  exists resp,
    predict ALLOWED pipe np_std req log
    = (Ok resp,
       log ++ PipePredict X
           :: List.map (fun i => EstimatorPredict i X) (seq 0 (asked pipe X))) /\
    ((forall e, e ∈ members pipe -> exists p, est_predict e X = Ok p) ->
     asked pipe X = length (members pipe)) /\
    (forall j e err,
       members pipe !! j = Some e -> est_predict e X = Raise err ->
       (forall i e', (i < j)%nat -> members pipe !! i = Some e' ->
                     exists p, est_predict e' X = Ok p) ->
       asked pipe X = S j /\ confidence resp = (1 # 2)%Q).
Proof.
  intros Hin Hv X.
  destruct (predict_run req v log Hin Hv) as [resp [Hrun [Hscore Hconf]]].
  exists resp. split; [exact Hrun|]. split.
  - intros Hall. unfold asked. rewrite (ok_prefix_all X _ Hall). lia.
  - intros j e err Hj He Hbefore.
    assert (Hk : asked pipe X = S j).
    { unfold asked. rewrite (ok_prefix_first X _ j e err Hj He Hbefore).
      apply lookup_lt_Some in Hj. lia. }
    split; [exact Hk|].
    revert Hrun. unfold predict.
    rewrite bool_decide_eq_false_2 by (intros H; apply H; assumption).
    unfold bind at 1. unfold try_except at 1, call_pipe at 1. rewrite Hv.
    unfold bind at 1. fold X.
    assert (Hm : try_except (member_confidence pipe np_std X) (ret (1 # 2)%Q)
                   (log ++ [PipePredict X])
                 = (Ok (1 # 2)%Q, snd (try_except (member_confidence pipe np_std X)
                                         (ret (1 # 2)%Q) (log ++ [PipePredict X])))).
    { revert Hj. unfold members, try_except, member_confidence, bind, lift.
      destruct (named_steps pipe !! "model"%string) as [m|]; [|discriminate].
      destruct (estimators_ m) as [ests|]; [|discriminate].
      cbn [default]. intros Hj.
      destruct (members_run X (imap (fun i e => (i, e)) ests) (log ++ [PipePredict X]))
        as [log' Hr].
      rewrite snd_indexed in Hr.
      assert (Hnone : all_ok (List.map (fun e => est_predict e X) ests) = None).
      { clear Hr Hk Hbefore. revert j Hj.
        induction ests as [|e0 ests IH]; intros j Hj; [discriminate|].
        cbn [List.map all_ok]. destruct j as [|j].
        - injection Hj as ->. rewrite He. reflexivity.
        - destruct (est_predict e0 X); [|reflexivity].
          rewrite (IH j Hj). reflexivity. }
      rewrite Hnone in Hr. destruct Hr as [e' Hr]. rewrite Hr. reflexivity. }
    rewrite Hm. unfold lift, make_response.
    destruct (negb _); [discriminate|].
    destruct (negb _); [discriminate|].
    intros H. injection H as <- _. reflexivity.
Qed.

(** X16. When the pipeline's [predict] raises on the row of a request
    with an allowed rating, the [except] branch asks it again with the
    same row: the pipeline is called twice, its exception leaves the
    handler, and no member is asked. *)
Theorem predict_pipeline_failure (req : PredictRequest) (err : exn) (log : list event) :
  content_rating req ∈ ALLOWED ->
  pipe_predict pipe (make_row req) = Raise err ->
  predict ALLOWED pipe np_std req log
  = (Raise err, log ++ [PipePredict (make_row req); PipePredict (make_row req)]).
Proof.
  intros Hin Herr. unfold predict.
  rewrite bool_decide_eq_false_2 by (intros H; apply H; assumption).
  unfold bind at 1. unfold try_except at 1, call_pipe. rewrite Herr.
  rewrite <- app_assoc. reflexivity.
Qed.


End Serving.

Section ServingRuns.

Lemma predict_answers_in_order_witness :
  exists resp,
    predict {[ py "PG-13" ]} failing_forest std6 demo_req []
    = (Ok resp, [PipePredict (make_row demo_req);
                 EstimatorPredict 0 (make_row demo_req);
                 EstimatorPredict 1 (make_row demo_req)]) /\
    confidence resp = (1 # 2)%Q.
Proof.
  destruct (predict_answers_in_order {[ py "PG-13" ]} failing_forest std6
              demo_req (13 # 2)%Q [])
    as [resp [Hrun [_ Hfail]]]; [set_solver | reflexivity |].
  exists resp.
  destruct (Hfail 1%nat {| est_predict := fun _ => Raise IndexError |} IndexError
              eq_refl eq_refl) as [Hk Hc].
  { intros i e' Hi He'. destruct i as [|i]; [|lia].
    injection He' as <-. exists 6%Q. reflexivity. }
  split; [|exact Hc].
  rewrite Hrun, Hk. reflexivity.
Defined.

Lemma predict_pipeline_failure_witness :
  predict {[ py "PG-13" ]} broken_pipe std6 demo_req []
  = (Raise (ValueError "could not convert string to float"),
     [PipePredict (make_row demo_req); PipePredict (make_row demo_req)]).
Proof.
  apply (predict_pipeline_failure {[ py "PG-13" ]} broken_pipe std6 demo_req
           (ValueError "could not convert string to float") []);
    [set_solver | reflexivity].
Defined.


End ServingRuns.

(** ** Loading the artifacts, [/meta] *)

Section MetaEndpoint.

Lemma str_leb_total (a b : str) : str_leb a b = true \/ str_leb b a = true.
Proof.
  revert b. induction a as [|x a IH]; intros [|y b]; simpl; auto.
  destruct (N.ltb_spec x y), (N.ltb_spec y x); auto; lia.
Qed.

Lemma str_leb_trans (a b c : str) :
  str_leb a b = true -> str_leb b c = true -> str_leb a c = true.
Proof.
  revert b c. induction a as [|x a IH]; intros [|y b] [|z c]; simpl; auto;
    try discriminate.
  destruct (N.ltb_spec x y), (N.ltb_spec y x), (N.ltb_spec y z), (N.ltb_spec z y),
    (N.ltb_spec x z), (N.ltb_spec z x);
    try discriminate; try lia; auto.
  apply IH.
Qed.

Lemma str_leb_antisym (a b : str) :
  str_leb a b = true -> str_leb b a = true -> a = b.
Proof.
  revert b. induction a as [|x a IH]; intros [|y b]; simpl; auto; try discriminate.
  destruct (N.ltb_spec x y), (N.ltb_spec y x); try discriminate; try lia.
  intros H1 H2. assert (x = y) by lia. subst. f_equal. apply IH; assumption.
Qed.

Lemma sorted_spec (s : gset str) :
  NoDup (sorted s) /\
  StronglySorted (fun a b => str_leb a b = true) (sorted s) /\
  forall r, r ∈ sorted s <-> r ∈ s.
Proof.
  unfold sorted.
  pose proof (merge_sort_Permutation (fun a b : str => str_leb a b) (elements s)) as Hp.
  split; [|split].
  - rewrite Hp. apply NoDup_elements.
  - assert (Hs : StronglySorted (fun a b : str => str_leb a b)
                   (merge_sort (fun a b : str => str_leb a b) (elements s))).
    { apply StronglySorted_merge_sort.
      - intros a b c Hab Hbc. apply Is_true_true. apply Is_true_true in Hab, Hbc.
        eapply str_leb_trans; eassumption.
      - intros a b. destruct (str_leb_total a b) as [H|H]; [left|right];
          apply Is_true_true; assumption. }
    revert Hs. generalize (merge_sort (fun a b : str => str_leb a b) (elements s)).
    clear Hp. intros l Hs.
    induction Hs as [|a l Hl IH Hall]; constructor; [assumption|].
    eapply Forall_impl; [exact Hall|]. intros b Hb. apply Is_true_true. assumption.
  - intros r. rewrite Hp. apply elem_of_elements.
Qed.

Lemma predict_asks_pipeline (ALLOWED : gset str) (pipe : pipeline)
      (np_std : list Q -> Q) (req : PredictRequest) (log : list event) :
  content_rating req ∈ ALLOWED ->
  exists rest,
    snd (predict ALLOWED pipe np_std req log) = log ++ PipePredict (make_row req) :: rest.
Proof.
  intros Hin.
  destruct (pipe_predict pipe (make_row req)) as [v|err] eqn:E.
  - destruct (predict_run ALLOWED pipe np_std req v log Hin E) as [resp [Hrun _]].
    rewrite Hrun. eexists. reflexivity.
  - unfold predict.
    rewrite bool_decide_eq_false_2 by (intros H; apply H; assumption).
    unfold bind at 1. unfold try_except at 1, call_pipe. rewrite E.
    cbn [snd]. rewrite <- app_assoc. eexists. reflexivity.
Qed.

(** X18. After a successful start of the server, [/meta] lists each
    rating of the metadata document once, in the order of [str], and
    these are exactly the ratings [/predict] lets through: a request
    is refused with status 400, before the pipeline is asked anything,
    exactly when its rating is not in that list. A document without
    the key gives the empty list, and every request is refused. *)
Theorem meta_lists_accepted_ratings {metrics_doc : Type} (pipe : pipeline)
        (META : META_doc) (mf : option metrics_doc) (g : globals metrics_doc)
        (np_std : list Q -> Q) :
  load_artifacts (Some pipe) (Some META) mf = Ok g ->
  let listed := resp_allowed_content_ratings (meta g) in
  NoDup listed /\
  StronglySorted (fun a b => str_leb a b = true) listed /\
  (forall r, r ∈ listed <-> r ∈ default [] (META_allowed_content_ratings META)) /\
  (forall req log,
     content_rating req ∉ listed <->
     serve g np_std req log
     = (Raise (HTTPException 400
                 (py "content_rating '" ++ content_rating req ++ py "' not allowed")),
        log)) /\
  (META_allowed_content_ratings META = None ->
   listed = [] /\
   forall req log, exists detail,
     serve g np_std req log = (Raise (HTTPException 400 detail), log)).
Proof.
  intros Hload listed.
  assert (Hset : g_ALLOWED_CONTENT_RATINGS g
                 = list_to_set (default [] (META_allowed_content_ratings META))).
  { revert Hload. unfold load_artifacts.
    destruct (default [0; 10]%Q (META_target_range_observed META)) as [|lo [|hi [|]]];
      try discriminate.
    intros H. injection H as <-. reflexivity. }
  destruct (sorted_spec (g_ALLOWED_CONTENT_RATINGS g)) as [Hnd [Hs Hin]].
  assert (Hreq : forall req log,
             content_rating req ∉ listed <->
             serve g np_std req log
             = (Raise (HTTPException 400
                         (py "content_rating '" ++ content_rating req
                          ++ py "' not allowed")), log)).
  { intros req log. unfold listed, meta. cbn [resp_allowed_content_ratings].
    rewrite Hin. unfold serve. split.
    - intros Hnot. unfold predict. rewrite bool_decide_eq_true_2 by assumption.
      reflexivity.
    - intros Hrun Hyes.
      destruct (predict_asks_pipeline _ (g_pipe g) np_std req log Hyes) as [rest Hrest].
      rewrite Hrun in Hrest. cbn [snd] in Hrest.
      apply (f_equal length) in Hrest. rewrite length_app in Hrest.
      cbn [length] in Hrest. lia. }
  split; [exact Hnd|]. split; [exact Hs|]. split.
  { intros r. unfold listed, meta. cbn [resp_allowed_content_ratings].
    rewrite Hin, Hset. apply elem_of_list_to_set. }
  split; [exact Hreq|].
  intros Hnone.
  assert (Hnil : listed = []).
  { unfold listed, meta. cbn [resp_allowed_content_ratings].
    rewrite Hset, Hnone. reflexivity. }
  split; [exact Hnil|].
  intros req log. eexists. apply Hreq. rewrite Hnil. apply not_elem_of_nil.
Qed.

End MetaEndpoint.

Section MetaRuns.

Lemma meta_lists_accepted_ratings_witness :
  exists g : globals unit,
    load_artifacts (Some demo_forest) (Some demo_META) None = Ok g /\
    resp_allowed_content_ratings (meta g) = [py "G"; py "PG-13"; py "R"] /\
    NoDup (resp_allowed_content_ratings (meta g)).
Proof.
  eexists. split; [reflexivity|]. split; [vm_compute; reflexivity|].
  apply (meta_lists_accepted_ratings demo_forest demo_META None _ std6 eq_refl).
Defined.

End MetaRuns.

(** ** compute_meta *)

Section ComputeMeta.

Lemma series_min_spec (col : list (option Q)) :
  match series_min col with
  | Some m => Some m ∈ col /\ forall x, Some x ∈ col -> (m <= x)%Q
  | None => forall x, Some x ∉ col
  end.
Proof.
  induction col as [|[x|] col IH]; simpl.
  - intros x H. inversion H.
  - destruct (series_min col) as [m|].
    + destruct IH as [Hin Hle]. destruct (Qltb x m) eqn:E.
      * split; [left|]. intros y Hy. apply elem_of_cons in Hy as [Hy|Hy].
        -- injection Hy as ->. apply Qle_refl.
        -- apply Qltb_lt in E. specialize (Hle y Hy). lra.
      * split; [right; assumption|]. intros y Hy.
        apply elem_of_cons in Hy as [Hy|Hy].
        -- injection Hy as ->. apply Qltb_ge in E. assumption.
        -- apply Hle; assumption.
    + split; [left|]. intros y Hy. apply elem_of_cons in Hy as [Hy|Hy].
      * injection Hy as ->. apply Qle_refl.
      * exfalso. apply (IH y Hy).
  - destruct (series_min col) as [m|].
    + destruct IH as [Hin Hle]. split; [right; assumption|]. intros y Hy.
      apply elem_of_cons in Hy as [Hy|Hy]; [discriminate|auto].
    + intros y Hy. apply elem_of_cons in Hy as [Hy|Hy]; [discriminate|].
      apply (IH y Hy).
Qed.

Lemma series_max_spec (col : list (option Q)) :
  match series_max col with
  | Some m => Some m ∈ col /\ forall x, Some x ∈ col -> (x <= m)%Q
  | None => forall x, Some x ∉ col
  end.
Proof.
  induction col as [|[x|] col IH]; simpl.
  - intros x H. inversion H.
  - destruct (series_max col) as [m|].
    + destruct IH as [Hin Hle]. destruct (Qltb m x) eqn:E.
      * split; [left|]. intros y Hy. apply elem_of_cons in Hy as [Hy|Hy].
        -- injection Hy as ->. apply Qle_refl.
        -- apply Qltb_lt in E. specialize (Hle y Hy). lra.
      * split; [right; assumption|]. intros y Hy.
        apply elem_of_cons in Hy as [Hy|Hy].
        -- injection Hy as ->. apply Qltb_ge in E. assumption.
        -- apply Hle; assumption.
    + split; [left|]. intros y Hy. apply elem_of_cons in Hy as [Hy|Hy].
      * injection Hy as ->. apply Qle_refl.
      * exfalso. apply (IH y Hy).
  - destruct (series_max col) as [m|].
    + destruct IH as [Hin Hle]. split; [right; assumption|]. intros y Hy.
      apply elem_of_cons in Hy as [Hy|Hy]; [discriminate|auto].
    + intros y Hy. apply elem_of_cons in Hy as [Hy|Hy]; [discriminate|].
      apply (IH y Hy).
Qed.

Lemma series_ends (col : list (option Q)) :
  has_number col ->
  exists lo hi,
    series_min col = Some lo /\ series_max col = Some hi /\
    Some lo ∈ col /\ Some hi ∈ col /\
    forall x, Some x ∈ col -> (lo <= x)%Q /\ (x <= hi)%Q.
Proof.
  intros [x Hx].
  pose proof (series_min_spec col) as Hmin. pose proof (series_max_spec col) as Hmax.
  destruct (series_min col) as [lo|]; [|exfalso; apply (Hmin x Hx)].
  destruct (series_max col) as [hi|]; [|exfalso; apply (Hmax x Hx)].
  exists lo, hi. destruct Hmin as [H1 H2]. destruct Hmax as [H3 H4].
  repeat split; auto.
Qed.

Lemma series_none (col : list (option Q)) :
  ~ has_number col -> series_min col = None /\ series_max col = None.
Proof.
  intros Hno.
  pose proof (series_min_spec col) as Hmin. pose proof (series_max_spec col) as Hmax.
  destruct (series_min col) as [lo|]; [exfalso; apply Hno; exists lo; tauto|].
  destruct (series_max col) as [hi|]; [exfalso; apply Hno; exists hi; tauto|].
  split; reflexivity.
Qed.

Lemma py_int_mono (a b : Q) :
  (a <= b)%Q ->
  exists s t, py_int (Some a) = Ok s /\ py_int (Some b) = Ok t /\ (s <= t)%Z.
Proof.
  intros H. eexists. eexists. split; [reflexivity|]. split; [reflexivity|].
  unfold Qle in H.
  rewrite <- (Z.quot_mul_cancel_r (Qnum a) (Z.pos (Qden a)) (Z.pos (Qden b))) by lia.
  rewrite <- (Z.quot_mul_cancel_r (Qnum b) (Z.pos (Qden b)) (Z.pos (Qden a))) by lia.
  rewrite (Z.mul_comm (Z.pos (Qden b)) (Z.pos (Qden a))).
  apply Z.quot_le_mono; lia.
Qed.

Lemma py_int_or_zero (x : option Q) : py_int (or_zero x) = py_int x.
Proof.
  destruct x as [q|]; [|reflexivity]. unfold or_zero.
  destruct (Qeqb q 0) eqn:E; [|reflexivity].
  apply Qeq_bool_iff in E. unfold Qeq in E. cbn in E.
  unfold py_int. f_equal. rewrite Z.mul_1_r in E. rewrite E.
  rewrite Z.quot_0_l by lia. reflexivity.
Qed.

Lemma covers_ends (col : list (option Q)) (lo hi : Q) (l h : Z) :
  Some lo ∈ col -> Some hi ∈ col ->
  (forall x, Some x ∈ col -> (lo <= x)%Q /\ (x <= hi)%Q) ->
  py_int (Some lo) = Ok l -> py_int (Some hi) = Ok h ->
  covers col l h.
Proof.
  intros Hlo Hhi Hall Hl Hh.
  split; [|split; [|split]].
  - destruct (py_int_mono lo hi) as [s [t [Hs [Ht Hst]]]]; [apply (Hall hi Hhi)|].
    congruence.
  - exists lo. split; assumption.
  - exists hi. split; assumption.
  - intros x Hx. destruct (Hall x Hx) as [H1 H2].
    destruct (py_int_mono lo x H1) as [s [t [Hs [Ht Hst]]]].
    destruct (py_int_mono x hi H2) as [s' [t' [Hs' [Ht' Hst']]]].
    exists t. split; [assumption|].
    assert (s = l) by congruence. assert (t' = h) by congruence.
    assert (s' = t) by congruence. lia.
Qed.

Lemma compute_meta_run (df : frame) (genres_vocab : list str)
      (class_edges : list Q) (class_labels : list str) :
  has_number (df_duration df) -> has_number (df_budget df) ->
  has_number (df_title_year df) ->
  exists dlo dhi blo bhi ylo yhi,
    compute_meta df genres_vocab class_edges class_labels
    = Ok {| meta_allowed_content_ratings :=
              List.map fst (value_counts (df_content_rating df));
            meta_genres_vocab := genres_vocab;
            meta_numeric_ranges := ((dlo, dhi), (blo, bhi), (ylo, yhi));
            meta_class_edges := class_edges;
            meta_class_labels := class_labels;
            meta_bin_mode := BIN_MODE; meta_mode := MODE; meta_algo := ALGO |} /\
    covers (df_duration df) dlo dhi /\
    covers (df_budget df) blo bhi /\
    covers (df_title_year df) ylo yhi.
Proof.
  intros Hd Hb Hy.
  destruct (series_ends _ Hd) as [d1 [d2 [Hd1 [Hd2 [Hd3 [Hd4 Hd5]]]]]].
  destruct (series_ends _ Hb) as [b1 [b2 [Hb1 [Hb2 [Hb3 [Hb4 Hb5]]]]]].
  destruct (series_ends _ Hy) as [y1 [y2 [Hy1 [Hy2 [Hy3 [Hy4 Hy5]]]]]].
  unfold compute_meta. rewrite !py_int_or_zero.
  rewrite Hd1, Hd2, Hb1, Hb2, Hy1, Hy2. cbn [py_int rbind].
  do 6 eexists. split; [reflexivity|].
  split; [|split].
  - apply (covers_ends _ d1 d2); auto.
  - apply (covers_ends _ b1 b2); auto.
  - apply (covers_ends _ y1 y2); auto.
Qed.

Lemma compute_meta_nan (df : frame) (genres_vocab : list str)
      (class_edges : list Q) (class_labels : list str) :
  ~ (has_number (df_duration df) /\ has_number (df_budget df)
     /\ has_number (df_title_year df)) ->
  compute_meta df genres_vocab class_edges class_labels
  = Raise (ValueError "cannot convert float NaN to integer").
Proof.
  intros Hno. unfold compute_meta. rewrite !py_int_or_zero.
  pose proof (series_min_spec (df_duration df)) as Hd1.
  pose proof (series_max_spec (df_duration df)) as Hd2.
  pose proof (series_min_spec (df_budget df)) as Hb1.
  pose proof (series_max_spec (df_budget df)) as Hb2.
  pose proof (series_min_spec (df_title_year df)) as Hy1.
  pose proof (series_max_spec (df_title_year df)) as Hy2.
  destruct (series_min (df_duration df)) as [d1|]; [|reflexivity].
  destruct (series_max (df_duration df)) as [d2|]; [|reflexivity].
  destruct (series_min (df_budget df)) as [b1|]; [|reflexivity].
  destruct (series_max (df_budget df)) as [b2|]; [|reflexivity].
  destruct (series_min (df_title_year df)) as [y1|]; [|reflexivity].
  destruct (series_max (df_title_year df)) as [y2|]; [|reflexivity].
  exfalso. apply Hno. unfold has_number.
  split; [exists d1; apply Hd1|]. split; [exists b1; apply Hb1 | exists y1; apply Hy1].
Qed.

Lemma has_number_dec (col : list (option Q)) : has_number col \/ ~ has_number col.
Proof.
  pose proof (series_min_spec col) as H.
  destruct (series_min col) as [m|].
  - left. exists m. tauto.
  - right. intros [x Hx]. apply (H x Hx).
Qed.

(** X20. The numeric ranges [compute_meta] writes: for each of
    duration, budget and title_year the two bounds are [int] of two
    numbers of the column, the lower is not above the upper, and
    [int] of every number of the column lies between them; missing
    cells are skipped. *)
Theorem compute_meta_numeric_ranges (df : frame) (genres_vocab : list str)
        (class_edges : list Q) (class_labels : list str) (m : meta_doc) :
  compute_meta df genres_vocab class_edges class_labels = Ok m ->
  let '(d, b, y) := meta_numeric_ranges m in
  covers (df_duration df) d.1 d.2 /\
  covers (df_budget df) b.1 b.2 /\
  covers (df_title_year df) y.1 y.2.
Proof.
  intros Hm.
  destruct (has_number_dec (df_duration df)) as [Hd|Hd];
    [|rewrite compute_meta_nan in Hm by tauto; discriminate].
  destruct (has_number_dec (df_budget df)) as [Hb|Hb];
    [|rewrite compute_meta_nan in Hm by tauto; discriminate].
  destruct (has_number_dec (df_title_year df)) as [Hy|Hy];
    [|rewrite compute_meta_nan in Hm by tauto; discriminate].
  destruct (compute_meta_run df genres_vocab class_edges class_labels Hd Hb Hy)
    as [dlo [dhi [blo [bhi [ylo [yhi [Hrun H]]]]]]].
  rewrite Hrun in Hm. injection Hm as <-. exact H.
Qed.

(** X21. [compute_meta] returns only when each of the three numeric
    columns holds a number: with a column of missing cells only, the
    least value is NaN and [int] raises. The [or 0] of the budget
    bounds does not prevent it, NaN being true: a budget column
    without a number leaves no result. What [or 0] changes is a bound
    of zero, into the integer 0 that [int] gives as well. *)
Theorem compute_meta_needs_numbers (df : frame) (genres_vocab : list str)
        (class_edges : list Q) (class_labels : list str) :
  ((exists m, compute_meta df genres_vocab class_edges class_labels = Ok m) ->
   has_number (df_duration df) /\ has_number (df_budget df)
   /\ has_number (df_title_year df)) /\
  (~ has_number (df_budget df) ->
   forall m, compute_meta df genres_vocab class_edges class_labels <> Ok m) /\
  (forall x, py_int (or_zero x) = py_int x).
Proof.
  split; [|split].
  - intros [m Hm].
    destruct (has_number_dec (df_duration df)) as [Hd|Hd];
      [|rewrite compute_meta_nan in Hm by tauto; discriminate].
    destruct (has_number_dec (df_budget df)) as [Hb|Hb];
      [|rewrite compute_meta_nan in Hm by tauto; discriminate].
    destruct (has_number_dec (df_title_year df)) as [Hy|Hy];
      [|rewrite compute_meta_nan in Hm by tauto; discriminate].
    tauto.
  - intros Hb m Hm. rewrite compute_meta_nan in Hm by tauto. discriminate.
  - apply py_int_or_zero.
Qed.

(** X22. The allowed ratings [compute_meta] writes for a column that
    [load_data] has cleaned: each rating once; exactly the cleaned
    values of the cells; by falling number of rows; none with
    whitespace around it and none of the spellings [load_data]
    replaces; "Unrated" among them as soon as a cell is missing. *)
Theorem compute_meta_allowed_ratings (df : frame) (cells : list cell)
        (genres_vocab : list str) (class_edges : list Q) (class_labels : list str)
        (m : meta_doc) :
  df_content_rating df = List.map clean_content_rating cells ->
  compute_meta df genres_vocab class_edges class_labels = Ok m ->
  let allowed := meta_allowed_content_ratings m in
  NoDup allowed /\
  (forall r, r ∈ allowed <-> exists c, c ∈ cells /\ clean_content_rating c = r) /\
  (forall i j a b, (i <= j)%nat -> allowed !! i = Some a -> allowed !! j = Some b ->
                   (count_of b (df_content_rating df)
                    <= count_of a (df_content_rating df))%nat) /\
  (forall r, r ∈ allowed ->
             strip r = r /\ r ∉ [py "TV MA"; py "GP"; py "M"; py "TV-14 "]) /\
  (None ∈ cells -> py "Unrated" ∈ allowed).
Proof.
  intros Hcol Hm allowed.
  assert (Ha : allowed = List.map fst (value_counts (df_content_rating df))).
  { destruct (has_number_dec (df_duration df)) as [Hd|Hd];
      [|rewrite compute_meta_nan in Hm by tauto; discriminate].
    destruct (has_number_dec (df_budget df)) as [Hb|Hb];
      [|rewrite compute_meta_nan in Hm by tauto; discriminate].
    destruct (has_number_dec (df_title_year df)) as [Hy|Hy];
      [|rewrite compute_meta_nan in Hm by tauto; discriminate].
    destruct (compute_meta_run df genres_vocab class_edges class_labels Hd Hb Hy)
      as [dlo [dhi [blo [bhi [ylo [yhi [Hrun _]]]]]]].
    rewrite Hrun in Hm. injection Hm as <-. reflexivity. }
  assert (Hmem : forall r, r ∈ allowed
                           <-> exists c, c ∈ cells /\ clean_content_rating c = r).
  { intros r. rewrite Ha, elem_of_value_counts_index, Hcol.
    change (List.map clean_content_rating cells) with (clean_content_rating <$> cells).
    rewrite list_elem_of_fmap. split; intros [c [H1 H2]]; exists c; auto. }
  split; [rewrite Ha; apply value_counts_index_NoDup|].
  split; [exact Hmem|]. split; [|split].
  - intros i j a b Hij Hai Hbj. rewrite Ha in Hai, Hbj.
    change (List.map fst (value_counts (df_content_rating df)))
      with (fst <$> value_counts (df_content_rating df)) in Hai, Hbj.
    rewrite list_lookup_fmap in Hai, Hbj.
    destruct (value_counts (df_content_rating df) !! i) as [p|] eqn:Hp; [|discriminate].
    destruct (value_counts (df_content_rating df) !! j) as [q|] eqn:Hq; [|discriminate].
    cbn in Hai, Hbj. injection Hai as <-. injection Hbj as <-.
    rewrite <- (value_counts_entry p _ (list_elem_of_lookup_2 _ _ _ Hp)).
    rewrite <- (value_counts_entry q _ (list_elem_of_lookup_2 _ _ _ Hq)).
    destruct (decide (i = j)) as [->|Hne]; [rewrite Hp in Hq; injection Hq as ->; lia|].
    pose proof (sort_desc_sorted
                  (List.map (fun x => (x, count_of x (df_content_rating df)))
                            (first_seen (df_content_rating df)))) as Hs.
    fold (value_counts (df_content_rating df)) in Hs.
    apply (StronglySorted_lookup _ _ Hs i j p q); [lia | assumption | assumption].
  - intros r Hr. apply Hmem in Hr. destruct Hr as [c [_ <-]].
    unfold clean_content_rating.
    destruct (series_replace_trimmed (strip (default (py "Unrated") c))
                (strip_idemp _)) as [H1 [H2 _]].
    split; assumption.
  - intros Hnone. apply Hmem. exists None. split; [assumption|].
    vm_compute. reflexivity.
Qed.

End ComputeMeta.

Section ComputeMetaRuns.

Lemma compute_meta_numeric_ranges_witness :
  exists m,
    compute_meta demo_frame [] [] [] = Ok m /\
    meta_numeric_ranges m = ((90, 120), (0, 1500000), (1999, 2015))%Z /\
    covers (df_duration demo_frame) 90 120.
Proof.
  eexists. split; [reflexivity|]. split; [reflexivity|].
  apply (compute_meta_numeric_ranges demo_frame [] [] [] _ eq_refl).
Defined.

Lemma compute_meta_allowed_ratings_witness :
  exists m,
    compute_meta demo_frame [] [] [] = Ok m /\
    NoDup (meta_allowed_content_ratings m) /\
    py "Unrated" ∈ meta_allowed_content_ratings m.
Proof.
  eexists. split; [reflexivity|].
  destruct (compute_meta_allowed_ratings demo_frame
              [Some (py "PG-13"); None; Some (py " GP ")] [] [] [] _ eq_refl eq_refl)
    as [H1 [_ [_ [_ H5]]]].
  split; [exact H1|]. apply H5. right. left.
Defined.

End ComputeMetaRuns.

(** ** Quantile bins of any sample *)

Section QuantileGeneral.

Lemma nondecreasing_cons (a : Q) (l : list Q) :
  Forall (fun b => (a <= b)%Q) l -> nondecreasing l = true ->
  nondecreasing (a :: l) = true.
Proof.
  intros Hall Hl. destruct l as [|b l]; [reflexivity|].
  change (nondecreasing (a :: b :: l)) with (Qleb a b && nondecreasing (b :: l)).
  apply andb_true_intro. split; [|exact Hl].
  apply Qleb_le. inversion Hall; assumption.
Qed.

Lemma insert_sorted_perm (x : Q) (l : list Q) : insert_sorted x l ≡ₚ x :: l.
Proof.
  induction l as [|y l IH]; cbn [insert_sorted]; [reflexivity|].
  destruct (Qleb x y); [reflexivity|].
  rewrite IH. apply Permutation_swap.
Qed.

Lemma sort_perm (l : list Q) : sort l ≡ₚ l.
Proof.
  induction l as [|x l IH]; [reflexivity|].
  change (sort (x :: l)) with (insert_sorted x (sort l)).
  rewrite insert_sorted_perm, IH. reflexivity.
Qed.

Lemma insert_sorted_nondecreasing (x : Q) (l : list Q) :
  nondecreasing l = true -> nondecreasing (insert_sorted x l) = true.
Proof.
  induction l as [|y l IH]; intros Hl; [reflexivity|].
  cbn [insert_sorted]. destruct (Qleb x y) eqn:E.
  - change (nondecreasing (x :: y :: l)) with (Qleb x y && nondecreasing (y :: l)).
    rewrite E, Hl. reflexivity.
  - apply nondecreasing_cons.
    + eapply Permutation_Forall; [symmetry; apply insert_sorted_perm|].
      constructor; [|apply (nondecreasing_above y l Hl)].
      destruct (Qlt_le_dec y x) as [Hlt|Hle]; [apply Qlt_le_weak; assumption|].
      apply Qleb_le in Hle. congruence.
    + apply IH. eapply nondecreasing_tail; eassumption.
Qed.

Lemma sort_nondecreasing (l : list Q) : nondecreasing (sort l) = true.
Proof.
  induction l as [|x l IH]; [reflexivity|].
  change (sort (x :: l)) with (insert_sorted x (sort l)).
  apply insert_sorted_nondecreasing. exact IH.
Qed.

Lemma nth_nondecr (v : list Q) (i j : nat) :
  nondecreasing v = true -> (i <= j)%nat -> (j < length v)%nat ->
  (nth i v 0 <= nth j v 0)%Q.
Proof.
  intros Hv Hij Hj.
  destruct (lookup_lt_is_Some_2 v i ltac:(lia)) as [a Ha].
  destruct (lookup_lt_is_Some_2 v j Hj) as [b Hb].
  rewrite (nth_lookup_Some _ _ _ _ Ha), (nth_lookup_Some _ _ _ _ Hb).
  exact (nondecreasing_lookup v Hv i j a b Hij Ha Hb).
Qed.

Lemma last_greatest (l : list Q) (bl e : Q) :
  nondecreasing l = true -> last l = Some bl -> e ∈ l -> (e <= bl)%Q.
Proof.
  intros Hl Hlast He. rewrite last_lookup in Hlast.
  apply list_elem_of_lookup in He. destruct He as [i Hi].
  assert (Hlt : (i < length l)%nat) by (eapply lookup_lt_Some; eassumption).
  apply (nondecreasing_lookup l Hl i (pred (length l)) e bl); [lia | assumption..].
Qed.

Lemma quantile_sorted_between (v : list Q) (p : Q) :
  nondecreasing v = true -> (1 <= length v)%nat ->
  (0 <= p)%Q -> (p <= 1)%Q ->
  let m := (length v - 1)%nat in
  let pos := (p * inject_Z (Z.of_nat m))%Q in
  let lo := Z.to_nat (Qfloor pos) in
  let hi := Nat.min (S lo) m in
  (0 <= Qfloor pos)%Z /\ (lo <= m)%nat /\
  (quantile_sorted v p
   == nth lo v 0 + (nth hi v 0 - nth lo v 0) * (pos - inject_Z (Qfloor pos)))%Q /\
  (nth lo v 0 <= quantile_sorted v p)%Q /\
  (quantile_sorted v p <= nth hi v 0)%Q.
Proof.
  intros Hs Hlen Hp0 Hp1 m pos lo hi.
  assert (Hm : (0 <= inject_Z (Z.of_nat m))%Q).
  { change 0%Q with (inject_Z 0). rewrite <- Zle_Qle. lia. }
  assert (Hpos0 : (0 <= pos)%Q) by (subst pos; nra).
  assert (Hpos1 : (pos <= inject_Z (Z.of_nat m))%Q) by (subst pos; nra).
  assert (Hf0 : (0 <= Qfloor pos)%Z).
  { rewrite <- (Qfloor_Z 0). apply Qfloor_resp_le. assumption. }
  assert (Hf1 : (Qfloor pos <= Z.of_nat m)%Z).
  { rewrite <- (Qfloor_Z (Z.of_nat m)). apply Qfloor_resp_le. assumption. }
  assert (Hlo : (lo <= m)%nat) by (subst lo; lia).
  pose proof (Qfloor_le pos) as Hfl.
  pose proof (Qlt_floor pos) as Hfu. rewrite inject_Z_plus in Hfu.
  change (inject_Z 1) with 1%Q in Hfu.
  unfold quantile_sorted. fold m. fold pos. fold lo. fold hi.
  set (frac := (pos - inject_Z (Qfloor pos))%Q).
  assert (Hfr0 : (0 <= frac)%Q) by (subst frac; lra).
  assert (Hfr1 : (frac < 1)%Q) by (subst frac; lra).
  assert (Hhi : (nth lo v 0 <= nth hi v 0)%Q).
  { apply nth_nondecr; [assumption | subst hi; lia | subst hi m; lia]. }
  split; [assumption|]. split; [assumption|].
  rewrite Qred_correct. split; [reflexivity|]. split; nra.
Qed.

Lemma quantile_sorted_mono (v : list Q) (p p' : Q) :
  nondecreasing v = true -> (1 <= length v)%nat ->
  (0 <= p)%Q -> (p <= p')%Q -> (p' <= 1)%Q ->
  (quantile_sorted v p <= quantile_sorted v p')%Q.
Proof.
  intros Hs Hlen Hp0 Hpp Hp1.
  destruct (quantile_sorted_between v p Hs Hlen) as [Hf [Hlo [Heq [Hge Hle]]]];
    [assumption | lra |].
  destruct (quantile_sorted_between v p' Hs Hlen) as [Hf' [Hlo' [Heq' [Hge' Hle']]]];
    [lra | assumption |].
  set (m := (length v - 1)%nat) in *.
  set (pos := (p * inject_Z (Z.of_nat m))%Q) in *.
  set (pos' := (p' * inject_Z (Z.of_nat m))%Q) in *.
  assert (Hm : (0 <= inject_Z (Z.of_nat m))%Q).
  { change 0%Q with (inject_Z 0). rewrite <- Zle_Qle. lia. }
  assert (Hpos : (pos <= pos')%Q) by (subst pos pos'; nra).
  assert (Hfl : (Qfloor pos <= Qfloor pos')%Z) by (apply Qfloor_resp_le; assumption).
  destruct (decide (Qfloor pos = Qfloor pos')) as [Hsame|Hdiff].
  - rewrite Heq, Heq'. rewrite <- Hsame.
    assert (Hab : (nth (Z.to_nat (Qfloor pos)) v 0
                   <= nth (Nat.min (S (Z.to_nat (Qfloor pos))) m) v 0)%Q).
    { apply nth_nondecr; [assumption | lia | subst m; lia]. }
    pose proof (Qfloor_le pos) as Hfp.
    nra.
  - eapply Qle_trans; [exact Hle|]. eapply Qle_trans; [|exact Hge'].
    apply nth_nondecr; [assumption | lia | subst m; lia].
Qed.

Lemma quantile_sorted_at_index (v : list Q) (p : Q) (k : nat) :
  nondecreasing v = true -> (1 <= length v)%nat ->
  (0 <= p)%Q -> (p <= 1)%Q ->
  (p * inject_Z (Z.of_nat (length v - 1)) == inject_Z (Z.of_nat k))%Q ->
  (quantile_sorted v p == nth k v 0)%Q.
Proof.
  intros Hs Hlen Hp0 Hp1 Hk.
  destruct (quantile_sorted_between v p Hs Hlen Hp0 Hp1) as [_ [_ [Heq _]]].
  rewrite Heq. rewrite (Qfloor_comp _ _ Hk), Qfloor_Z, Nat2Z.id.
  rewrite Hk. ring.
Qed.

Lemma raw_bins_nondecreasing (v : list Q) (q : nat) :
  nondecreasing v = true -> (1 <= length v)%nat -> (1 <= q)%nat ->
  nondecreasing (raw_bins v q) = true.
Proof.
  intros Hs Hlen Hq. apply lookup_nondecreasing. intros i a b Ha Hb.
  assert (Hi : (S i <= q)%nat).
  { apply lookup_lt_Some in Hb. rewrite raw_bins_length in Hb. lia. }
  rewrite raw_bins_lookup in Ha, Hb by lia.
  injection Ha as <-. injection Hb as <-.
  apply quantile_sorted_mono; try assumption.
  - apply fraction_bounds; lia.
  - apply Qlt_le_weak. apply fraction_increasing; lia.
  - apply fraction_bounds; lia.
Qed.

Lemma raw_bins_first_last (v : list Q) (q : nat) :
  nondecreasing v = true -> (1 <= length v)%nat -> (1 <= q)%nat ->
  exists b0 bl,
    raw_bins v q !! 0%nat = Some b0 /\ last (raw_bins v q) = Some bl /\
    (b0 == nth 0 v 0)%Q /\ (bl == nth (length v - 1) v 0)%Q.
Proof.
  intros Hs Hlen Hq.
  assert (Hqq : (0 < inject_Z (Z.of_nat q))%Q).
  { change 0%Q with (inject_Z 0). rewrite <- Zlt_Qlt. lia. }
  assert (Hqne : ~ (inject_Z (Z.of_nat q) == 0)%Q).
  { intros H. rewrite H in Hqq. eapply Qlt_irrefl. eassumption. }
  eexists. eexists. split; [apply raw_bins_lookup; lia|]. split.
  { rewrite last_lookup, raw_bins_length. simpl. apply raw_bins_lookup; lia. }
  split.
  - apply quantile_sorted_at_index; try assumption;
      [apply fraction_bounds; lia | apply fraction_bounds; lia |].
    simpl. unfold Qdiv. rewrite !Qmult_0_l. reflexivity.
  - apply quantile_sorted_at_index; try assumption;
      [apply fraction_bounds; lia | apply fraction_bounds; lia |].
    unfold Qdiv. rewrite Qmult_inv_r by assumption. apply Qmult_1_l.
Qed.

Lemma unique_elem (l : list Q) (x : Q) : x ∈ unique l -> x ∈ l.
Proof.
  revert x. induction l as [|a l IH]; intros x Hx; [exact Hx|].
  cbn [unique] in Hx. apply elem_of_cons in Hx. destruct Hx as [->|Hx]; [left|].
  right. apply IH. apply list_elem_of_filter in Hx. tauto.
Qed.

Lemma unique_covers (l : list Q) (x : Q) :
  x ∈ l -> exists e, e ∈ unique l /\ (e == x)%Q.
Proof.
  induction l as [|a l IH]; intros Hx; [inversion Hx|].
  cbn [unique]. apply elem_of_cons in Hx. destruct Hx as [->|Hx].
  - exists a. split; [left | reflexivity].
  - destruct (IH Hx) as [e [He Hex]].
    destruct (Qeq_bool e a) eqn:E.
    + exists a. split; [left|]. apply Qeq_bool_iff in E. rewrite <- E. exact Hex.
    + exists e. split; [|exact Hex]. right. apply list_elem_of_filter.
      split; [|exact He]. unfold Qeqb. rewrite E. exact I.
Qed.

Lemma strictly_increasing_cons (a : Q) (l : list Q) :
  Forall (fun b => (a < b)%Q) l -> strictly_increasing l = true ->
  strictly_increasing (a :: l) = true.
Proof.
  intros Hall Hl. destruct l as [|b l]; [reflexivity|].
  change (strictly_increasing (a :: b :: l))
    with (Qltb a b && strictly_increasing (b :: l)).
  apply andb_true_intro. split; [|exact Hl].
  apply Qltb_lt. inversion Hall; assumption.
Qed.

Lemma strictly_increasing_filter (P : Q -> Prop) `{forall a, Decision (P a)}
      (l : list Q) :
  strictly_increasing l = true -> strictly_increasing (filter P l) = true.
Proof.
  induction l as [|a l IH]; intros Hl; [reflexivity|].
  pose proof (strictly_increasing_tail a l Hl) as Ht.
  destruct (decide (P a)) as [Hp|Hp].
  - rewrite filter_cons_True by assumption.
    apply strictly_increasing_cons; [|apply IH; assumption].
    apply Forall_forall. intros b Hb. apply list_elem_of_filter in Hb.
    pose proof (strictly_increasing_above a l Hl) as Hall.
    rewrite Forall_forall in Hall. apply Hall. tauto.
  - rewrite filter_cons_False by assumption. apply IH; assumption.
Qed.

Lemma unique_strict (l : list Q) :
  nondecreasing l = true -> strictly_increasing (unique l) = true.
Proof.
  induction l as [|a l IH]; intros Hl; [reflexivity|].
  cbn [unique]. apply strictly_increasing_cons.
  - apply Forall_forall. intros b Hb. apply list_elem_of_filter in Hb.
    destruct Hb as [Hne Hb]. apply unique_elem in Hb.
    pose proof (nondecreasing_above a l Hl) as Hall.
    rewrite Forall_forall in Hall. specialize (Hall b Hb).
    apply Qle_lt_or_eq in Hall. destruct Hall as [Hlt|Heq]; [assumption|].
    exfalso. symmetry in Heq. apply Qeq_bool_iff in Heq.
    unfold Qeqb in Hne. rewrite Heq in Hne. exact Hne.
  - apply strictly_increasing_filter. apply IH.
    eapply nondecreasing_tail; eassumption.
Qed.

Lemma filter_same_length {A} (P : A -> Prop) `{forall a, Decision (P a)} (l : list A) :
  length (filter P l) = length l -> filter P l = l.
Proof.
  induction l as [|a l IH]; intros Hlen; [reflexivity|].
  pose proof (length_filter P l) as Hle.
  destruct (decide (P a)) as [Hp|Hp].
  - rewrite filter_cons_True in * by assumption. cbn [length] in Hlen.
    f_equal. apply IH. lia.
  - rewrite filter_cons_False in Hlen by assumption. cbn [length] in Hlen. lia.
Qed.

Lemma unique_same_length (l : list Q) : length (unique l) = length l -> unique l = l.
Proof.
  induction l as [|a l IH]; intros Hlen; [reflexivity|].
  cbn [unique length] in *.
  pose proof (length_filter (fun y => negb (Qeqb y a)) (unique l)) as H1.
  pose proof (unique_length l) as H2.
  rewrite filter_same_length by lia. f_equal. apply IH. lia.
Qed.

Lemma qcut_code_interval (bins : list Q) (x b0 bl : Q) :
  nondecreasing bins = true ->
  bins !! 0%nat = Some b0 -> last bins = Some bl ->
  (b0 <= x)%Q -> (x <= bl)%Q ->
  (length bins = 1%nat /\ qcut_code bins x = (-1)%Z) \/
  ((2 <= length bins)%nat /\
   exists k a b,
     S k = (if Qeqb x b0 then 1%nat else searchsorted_left bins x) /\
     qcut_code bins x = Z.of_nat k /\
     bins !! k = Some a /\ bins !! S k = Some b /\
     (a <= x)%Q /\ (x <= b)%Q /\ ((a < x)%Q \/ k = 0%nat)).
Proof.
  intros Hnd H0 Hl Hlo Hhi.
  assert (Hup : (b0 < x)%Q -> (1 <= searchsorted_left bins x < length bins)%nat).
  { intros Hlt. split.
    - destruct bins as [|b bins]; [discriminate|]. injection H0 as ->.
      unfold searchsorted_left.
      rewrite filter_cons_True by (apply Is_true_true, Qltb_lt; assumption).
      simpl. lia.
    - unfold searchsorted_left. apply (length_filter_lt _ _ bl).
      + rewrite last_lookup in Hl. eapply list_elem_of_lookup_2. eassumption.
      + intros H. apply Is_true_true, Qltb_lt in H. eapply Qlt_not_le; eassumption. }
  destruct (searchsorted_left_sorted bins x Hnd) as [Hbelow Habove].
  unfold qcut_code. destruct bins as [|b bins]; [discriminate|].
  cbn [lookup list_lookup] in H0. injection H0 as ->.
  unfold Qeqb in *. destruct (Qeq_bool x b0) eqn:E.
  - apply Qeq_bool_iff in E.
    destruct bins as [|b1 bins].
    + left. split; reflexivity.
    + right. split; [simpl; lia|].
      exists 0%nat, b0, b1. split; [reflexivity|]. split; [reflexivity|].
      split; [reflexivity|]. split; [reflexivity|].
      split; [rewrite E; apply Qle_refl|]. split; [|right; reflexivity].
      rewrite E. apply (nondecreasing_lookup _ Hnd 0%nat 1%nat b0 b1); [lia|reflexivity..].
  - assert (Hlt : (b0 < x)%Q).
    { apply Qle_lt_or_eq in Hlo. destruct Hlo as [|Heq]; [assumption|].
      exfalso. symmetry in Heq. apply Qeq_bool_iff in Heq. congruence. }
    specialize (Hup Hlt). right. split; [lia|].
    set (k := searchsorted_left (b0 :: bins) x) in *.
    rewrite (proj2 (Nat.eqb_neq k (length (b0 :: bins)))) by lia.
    rewrite (proj2 (Nat.eqb_neq k 0)) by lia.
    change (false || false) with false. cbv iota.
    destruct (lookup_lt_is_Some_2 (b0 :: bins) (pred k) ltac:(lia)) as [a Ha].
    destruct (lookup_lt_is_Some_2 (b0 :: bins) k ltac:(lia)) as [b Hb].
    exists (pred k), a, b.
    split; [lia|]. split; [lia|]. split; [exact Ha|].
    split; [replace (S (pred k)) with k by lia; exact Hb|].
    assert (Hax : (a < x)%Q) by (apply (Hbelow (pred k) a); [lia | exact Ha]).
    split; [apply Qlt_le_weak; exact Hax|]. split; [|left; exact Hax].
    apply (Habove k b); [lia | exact Hb].
Qed.

Lemma searchsorted_left_mono (l : list Q) (x x' : Q) :
  (x <= x')%Q -> (searchsorted_left l x <= searchsorted_left l x')%nat.
Proof.
  intros Hx. unfold searchsorted_left.
  induction l as [|b l IH]; [reflexivity|].
  rewrite !filter_cons.
  destruct (decide (Qltb b x)) as [H|H].
  - rewrite decide_True.
    + simpl. lia.
    + apply Is_true_true, Qltb_lt in H. apply Is_true_true, Qltb_lt.
      eapply Qlt_le_trans; eassumption.
  - destruct (decide (Qltb b x')); simpl; lia.
Qed.

Lemma sample_between_ends (y : list Q) (x : Q) :
  x ∈ y ->
  (nth 0 (sort y) 0 <= x)%Q /\ (x <= nth (length y - 1) (sort y) 0)%Q.
Proof.
  intros Hx.
  assert (Hlen : length (sort y) = length y) by (apply Permutation_length, sort_perm).
  assert (Hin : x ∈ sort y) by (rewrite sort_perm; assumption).
  apply list_elem_of_lookup in Hin. destruct Hin as [i Hi].
  assert (Hlt : (i < length (sort y))%nat) by (eapply lookup_lt_Some; eassumption).
  rewrite <- (nth_lookup_Some (sort y) i 0%Q x Hi).
  split; apply nth_nondecr; try apply sort_nondecreasing; lia.
Qed.

Lemma constant_raw_bins (y : list Q) (v : Q) (q : nat) :
  y <> [] -> (forall x, x ∈ y -> (x == v)%Q) -> (1 <= q)%nat ->
  raw_bins (sort y) q = replicate (S q) (Qred v).
Proof.
  intros Hy Hall Hq.
  assert (Hlen : length (sort y) = length y) by (apply Permutation_length, sort_perm).
  assert (Hpos : (1 <= length (sort y))%nat).
  { rewrite Hlen. destruct y; [congruence | simpl; lia]. }
  assert (Hnth : forall i, (i < length (sort y))%nat -> (nth i (sort y) 0 == v)%Q).
  { intros i Hi. destruct (lookup_lt_is_Some_2 (sort y) i Hi) as [a Ha].
    rewrite (nth_lookup_Some _ _ _ _ Ha). apply Hall.
    rewrite <- (sort_perm y). eapply list_elem_of_lookup_2. eassumption. }
  apply list_eq_same_length with (n := S q);
    [apply length_replicate | apply raw_bins_length |].
  intros i a b Hi Ha Hb.
  apply lookup_replicate in Hb. destruct Hb as [-> _].
  rewrite raw_bins_lookup in Ha by lia. injection Ha as <-.
  destruct (fraction_bounds q i ltac:(lia) ltac:(lia)) as [Hp0 Hp1].
  destruct (quantile_sorted_between (sort y) _ (sort_nondecreasing y) Hpos Hp0 Hp1)
    as [_ [Hlo [_ [Hge Hle]]]].
  rewrite Hnth in Hge by lia. rewrite Hnth in Hle by lia.
  assert (Heq : (quantile_sorted (sort y)
                   (inject_Z (Z.of_nat i) / inject_Z (Z.of_nat q)) == v)%Q)
    by (apply Qle_antisym; assumption).
  unfold quantile_sorted in *. apply Qred_complete.
  rewrite Qred_correct in Heq. exact Heq.
Qed.

Lemma unique_replicate (k : nat) (a : Q) : unique (replicate (S k) a) = [a].
Proof.
  induction k as [|k IH]; [reflexivity|].
  change (replicate (S (S k)) a) with (a :: replicate (S k) a).
  cbn [unique]. rewrite IH. rewrite filter_cons_False; [reflexivity|].
  intros H. unfold Qeqb in H. rewrite (proj2 (Qeq_bool_iff a a)) in H by reflexivity.
  exact H.
Qed.

(** X25. A sample whose values are all equal. Asked for two classes
    or more, quantile mode finds a single edge: it returns no label
    and the code -1 for every value. Asked for one class, it returns
    the two equal edges, one label and the code 0 for every value. *)
Theorem make_bins_quantile_constant (y : list Q) (v : Q) (mode : str) (n : Z)
        (fe : option (list Q)) :
  mode <> py "fixed" -> y <> [] -> (forall x, x ∈ y -> (x == v)%Q) -> (1 <= n)%Z ->
  make_bins y mode n fe
  = Some (Ok (if (n =? 1)%Z
              then (List.map (fun _ => 0%Z) y, [Qred v; Qred v],
                    [py "[" ++ format_1f (Qred v) ++ py ", " ++ format_1f (Qred v)
                     ++ py "]"])
              else (List.map (fun _ => (-1)%Z) y, [Qred v], []))).
Proof.
  intros Hmode Hy Hall Hn. unfold make_bins, make_bins_with.
  rewrite bool_decide_eq_false_2 by assumption.
  unfold qcut, qcut_with, exact_edges. destruct y as [|x0 y0] eqn:Ey; [congruence|]. rewrite <- Ey in *.
  rewrite (proj2 (Z.ltb_ge n (-1))) by lia.
  rewrite (proj2 (Z.eqb_neq n (-1))) by lia.
  fold (raw_bins (sort y) (Z.to_nat n)).
  rewrite (constant_raw_bins y v (Z.to_nat n) Hy Hall) by lia.
  rewrite unique_replicate. rewrite length_replicate.
  assert (Hcode1 : forall x, x ∈ y -> qcut_code [Qred v] x = (-1)%Z).
  { intros x Hx. unfold qcut_code, Qeqb.
    rewrite (proj2 (Qeq_bool_iff x (Qred v)))
      by (rewrite Qred_correct; apply Hall; assumption).
    reflexivity. }
  assert (Hcode2 : forall x, x ∈ y -> qcut_code [Qred v; Qred v] x = 0%Z).
  { intros x Hx. unfold qcut_code, Qeqb.
    rewrite (proj2 (Qeq_bool_iff x (Qred v)))
      by (rewrite Qred_correct; apply Hall; assumption).
    reflexivity. }
  destruct (Z.eqb_spec n 1) as [->|Hne].
  - cbn [Z.to_nat Pos.to_nat Pos.iter_op Nat.add replicate length Nat.ltb Nat.leb
         Nat.eqb negb andb].
    rewrite (map_ext_in (qcut_code [Qred v; Qred v]) (fun _ => 0%Z))
      by (intros x Hx; apply Hcode2, list_elem_of_In; assumption).
    reflexivity.
  - assert (Hcase : (length [Qred v] <? S (Z.to_nat n))%nat
                    && negb (S (Z.to_nat n) =? 2)%nat = true).
    { apply andb_true_intro. split.
      - apply Nat.ltb_lt. simpl. lia.
      - apply negb_true_iff, Nat.eqb_neq. lia. }
    rewrite Hcase.
    rewrite (map_ext_in (qcut_code [Qred v]) (fun _ => (-1)%Z))
      by (intros x Hx; apply Hcode1, list_elem_of_In; assumption).
    reflexivity.
Qed.

End QuantileGeneral.

Section QuantileGeneralRuns.

Lemma make_bins_quantile_constant_witness :
  make_bins [7; 7; 7]%Q (py "quantile") N_CLASSES FIXED_EDGES
  = Some (Ok ([-1; -1; -1]%Z, [7%Q], [])).
Proof.
  apply (make_bins_quantile_constant [7; 7; 7]%Q 7%Q (py "quantile") N_CLASSES
           FIXED_EDGES); [discriminate | discriminate | | unfold N_CLASSES; lia].
  intros x Hx. repeat (apply elem_of_cons in Hx; destruct Hx as [->|Hx]; [reflexivity|]).
  inversion Hx.
Defined.

End QuantileGeneralRuns.

(** ** Quantile mode, over the quantile routine *)

Section QuantileMode.

Variable edges_of : list Q -> nat -> list Q.

Lemma edges_fit_spec (raw y : list Q) (q : nat) :
  edges_fit raw y q = true ->
  length raw = S q /\ nondecreasing raw = true /\
  exists lo hi,
    raw !! 0%nat = Some lo /\ last raw = Some hi /\
    forall x, x ∈ y -> (lo <= x)%Q /\ (x <= hi)%Q.
Proof.
  unfold edges_fit. intros H.
  apply andb_true_iff in H. destruct H as [H H3].
  apply andb_true_iff in H. destruct H as [H1 H2].
  apply Nat.eqb_eq in H1.
  split; [assumption|]. split; [assumption|].
  destruct raw as [|lo raw']; [discriminate|].
  destruct (last (lo :: raw')) as [hi|] eqn:El; [|discriminate].
  exists lo, hi. split; [reflexivity|]. split; [reflexivity|].
  intros x Hx. rewrite forallb_forall in H3.
  apply list_elem_of_In in Hx. specialize (H3 x Hx).
  apply andb_true_iff in H3. destruct H3 as [Ha Hb].
  split; apply Qleb_le; assumption.
Qed.

(** The edges [pd.qcut] keeps of the array [raw]. *)
Lemma dropped_duplicates (raw : list Q) (r0 rl : Q) :
  nondecreasing raw = true -> raw !! 0%nat = Some r0 -> last raw = Some rl ->
  let bins := if (length (unique raw) <? length raw)%nat && negb (length raw =? 2)%nat
              then unique raw else raw in
  nondecreasing bins = true /\
  ((length bins <> 2%nat \/ (r0 < rl)%Q) -> strictly_increasing bins = true) /\
  (length raw <> 2%nat -> strictly_increasing bins = true) /\
  (forall e, e ∈ bins -> e ∈ raw) /\
  (forall r, r ∈ raw -> exists e, e ∈ bins /\ (e == r)%Q) /\
  (strictly_increasing raw = true -> bins = raw) /\
  (length raw <> 2%nat -> length bins = length raw -> strictly_increasing raw = true) /\
  (1 <= length bins <= length raw)%nat /\
  exists bl, bins !! 0%nat = Some r0 /\ last bins = Some bl /\ (bl == rl)%Q.
Proof.
  intros Hraw Hr0 Hrl bins.
  assert (Hne : raw <> []) by (intros ->; discriminate).
  assert (Hpos : (1 <= length raw)%nat) by (destruct raw; [congruence | simpl; lia]).
  pose proof (unique_length raw) as Hul.
  pose proof (unique_strict raw Hraw) as Hstrict.
  assert (Hsame : (length raw <= length (unique raw))%nat ->
                  strictly_increasing raw = true).
  { intros Hle. rewrite <- (unique_same_length raw) by lia. assumption. }
  subst bins.
  destruct ((length (unique raw) <? length raw)%nat && negb (length raw =? 2)%nat)
    eqn:Ecase.
  - apply andb_true_iff in Ecase. destruct Ecase as [Ec1 Ec2].
    apply Nat.ltb_lt in Ec1.
    assert (Hu0 : unique raw !! 0%nat = Some r0).
    { destruct raw as [|a raw']; [discriminate|]. injection Hr0 as ->. reflexivity. }
    destruct (last (unique raw)) as [ul|] eqn:Hul'.
    2:{ apply last_None in Hul'. rewrite Hul' in Hu0. discriminate. }
    assert (Hulin : ul ∈ unique raw).
    { rewrite last_lookup in Hul'. eapply list_elem_of_lookup_2. eassumption. }
    assert (Hrlin : rl ∈ raw).
    { rewrite last_lookup in Hrl. eapply list_elem_of_lookup_2. eassumption. }
    destruct (unique_covers raw rl Hrlin) as [e [He Hee]].
    pose proof (last_greatest (unique raw) ul e
                  (strictly_increasing_nondecreasing _ Hstrict) Hul' He) as H1.
    pose proof (last_greatest raw rl ul Hraw Hrl (unique_elem _ _ Hulin)) as H2.
    split; [apply strictly_increasing_nondecreasing; assumption|].
    split; [intros _; assumption|]. split; [intros _; assumption|].
    split; [apply unique_elem|]. split; [apply unique_covers|].
    split; [intros Hs; apply unique_increasing; assumption|].
    split; [intros _ Hlen; lia|].
    split.
    { split; [|assumption].
      destruct (unique raw) eqn:E; [|simpl; lia].
      exfalso. eapply unique_not_nil; eassumption. }
    exists ul. split; [assumption|]. split; [reflexivity|].
    apply Qle_antisym; [assumption|]. rewrite <- Hee. assumption.
  - assert (Hor : (length raw <> 2%nat \/ (r0 < rl)%Q) ->
                  strictly_increasing raw = true).
    { intros Hor. apply andb_false_iff in Ecase. destruct Ecase as [Ec|Ec].
      - apply Nat.ltb_ge in Ec. apply Hsame. assumption.
      - apply negb_false_iff, Nat.eqb_eq in Ec.
        destruct Hor as [Hn|Hlt]; [congruence|].
        destruct raw as [|a [|b [|c raw']]]; try discriminate.
        cbn in Hr0, Hrl. injection Hr0 as ->. injection Hrl as ->.
        cbn. rewrite (proj2 (Qltb_lt _ _) Hlt). reflexivity. }
    split; [assumption|]. split; [assumption|].
    split; [intros Hn; apply Hor; left; assumption|].
    split; [auto|].
    split; [intros r Hr; exists r; split; [assumption | reflexivity]|].
    split; [reflexivity|].
    split; [intros Hn _; apply Hor; left; assumption|].
    split; [lia|].
    exists rl. split; [assumption|]. split; [assumption | reflexivity].
Qed.

Lemma qcut_with_run (y : list Q) (q : Z) :
  y <> [] -> (0 <= q)%Z ->
  qcut_with edges_of y q
  = Some (Ok (let raw := edges_of y (Z.to_nat q) in
              let bins :=
                if (length (unique raw) <? length raw)%nat
                   && negb (length raw =? 2)%nat
                then unique raw else raw in
              (List.map (qcut_code bins) y, bins))).
Proof.
  intros Hy Hq. unfold qcut_with. destruct y as [|x y]; [congruence|].
  rewrite (proj2 (Z.ltb_ge q (-1))) by lia.
  rewrite (proj2 (Z.eqb_neq q (-1))) by lia.
  reflexivity.
Qed.

Lemma make_bins_with_quantile (y : list Q) (mode : str) (n : Z)
      (fe : option (list Q)) :
  mode <> py "fixed" -> y <> [] -> (0 <= n)%Z ->
  let raw := edges_of y (Z.to_nat n) in
  let bins := if (length (unique raw) <? length raw)%nat && negb (length raw =? 2)%nat
              then unique raw else raw in
  (1 <= length bins)%nat ->
  exists labels,
    make_bins_with edges_of y mode n fe
    = Some (Ok (List.map (qcut_code bins) y, bins, labels)) /\
    length bins = S (length labels) /\
    forall i a b,
      bins !! i = Some a -> bins !! S i = Some b ->
      labels !! i
      = Some (py "[" ++ format_1f a ++ py ", " ++ format_1f b
              ++ (if (Z.of_nat i <? Z.of_nat (length labels) - 1)%Z
                  then py ")" else py "]")).
Proof.
  intros Hmode Hy Hn raw bins Hlen. unfold make_bins_with.
  rewrite bool_decide_eq_false_2 by assumption.
  rewrite (qcut_with_run y n Hy Hn). cbv zeta. fold raw. fold bins. cbn [rbind].
  destruct (render_labels_ok bins (Z.of_nat (length bins) - 1))
    as [labels [Hlab [Hlablen Hfmt]]]; [lia | lia |].
  rewrite Hlab. cbn [rbind].
  exists labels. split; [reflexivity|]. split; [lia|].
  intros i a b Ha Hb.
  replace (Z.of_nat (length labels)) with (Z.of_nat (length bins) - 1)%Z by lia.
  apply Hfmt; [assumption | rewrite Nat.add_1_r; assumption |].
  apply lookup_lt_Some in Hb. lia.
Qed.

Lemma make_bins_with_inv (y : list Q) (mode : str) (n : Z) (fe : option (list Q))
      (codes : list Z) (edges : list Q) (labels : list str) :
  mode <> py "fixed" -> (0 <= n)%Z ->
  make_bins_with edges_of y mode n fe = Some (Ok (codes, edges, labels)) ->
  let raw := edges_of y (Z.to_nat n) in
  y <> [] /\
  edges = (if (length (unique raw) <? length raw)%nat && negb (length raw =? 2)%nat
           then unique raw else raw) /\
  codes = List.map (qcut_code edges) y.
Proof.
  intros Hmode Hn Hmk raw.
  assert (Hy : y <> []).
  { intros ->. unfold make_bins_with in Hmk.
    rewrite bool_decide_eq_false_2 in Hmk by assumption. discriminate. }
  split; [assumption|].
  unfold make_bins_with in Hmk.
  rewrite bool_decide_eq_false_2 in Hmk by assumption.
  rewrite (qcut_with_run y n Hy Hn) in Hmk. cbv zeta in Hmk. fold raw in Hmk.
  cbn [rbind] in Hmk.
  destruct (render_labels _ _) as [labels'|err]; [|discriminate].
  cbn [rbind] in Hmk. injection Hmk as <- <- _. split; reflexivity.
Qed.

Lemma codes_in_range (bins y : list Q) (r0 bl : Q) :
  nondecreasing bins = true ->
  bins !! 0%nat = Some r0 -> last bins = Some bl ->
  (forall x, x ∈ y -> (r0 <= x)%Q /\ (x <= bl)%Q) ->
  (2 <= length bins)%nat ->
  Forall (fun c => (0 <= c <= Z.of_nat (length bins) - 2)%Z)
         (List.map (qcut_code bins) y).
Proof.
  intros Hnd H0 Hl Hb Hlen. apply Forall_forall. intros c Hc.
  apply list_elem_of_fmap in Hc. destruct Hc as [x [-> Hx]].
  destruct (Hb x Hx) as [H1 H2].
  destruct (qcut_code_interval bins x r0 bl Hnd H0 Hl H1 H2)
    as [[Hone _]|[_ [k [a [b [_ [Hcode [_ [Hk _]]]]]]]]]; [lia|].
  rewrite Hcode. apply lookup_lt_Some in Hk. lia.
Qed.

(** C3, as amended. Quantile mode on a non-empty sample, for which
    the quantile routine returns [n_classes + 1] edges in
    non-decreasing order, from the least to the greatest value of the
    sample. [make_bins] returns, with one label less than edges and
    at most [n_classes] labels. The edges returned are those of the
    routine with repeated ones dropped: every edge returned is one of
    them, every one of them is an edge returned, and the edges
    returned increase strictly (unless the routine gives two equal
    ones for one class). When the edges of the routine are pairwise
    distinct, and for two classes or more only then, the count of
    labels is [n_classes], 5 for 5. With a label at all, every code
    is between 0 and the count of labels less 1, and the value lies
    between the edges of its code. Label [i] reads
    "[a, b)" and the last one "[a, b]", with [a] and [b] the edges
    [i] and [i + 1] to one decimal. *)
Theorem make_bins_quantile (y : list Q) (mode : str) (n : Z)
        (fe : option (list Q)) :
  mode <> py "fixed" -> y <> [] -> (1 <= n)%Z ->
  edges_fit (edges_of y (Z.to_nat n)) y (Z.to_nat n) = true ->
  let raw := edges_of y (Z.to_nat n) in
  exists codes edges labels,
    make_bins_with edges_of y mode n fe = Some (Ok (codes, edges, labels)) /\
    length codes = length y /\
    length edges = S (length labels) /\
    (Z.of_nat (length labels) <= n)%Z /\
    (forall e, e ∈ edges -> e ∈ raw) /\
    (forall r, r ∈ raw -> exists e, e ∈ edges /\ (e == r)%Q) /\
    (length raw <> 2%nat -> strictly_increasing edges = true) /\
    (strictly_increasing raw = true ->
     edges = raw /\ Z.of_nat (length labels) = n /\
     (n = 5%Z -> length labels = 5%nat)) /\
    ((2 <= n)%Z -> Z.of_nat (length labels) = n -> strictly_increasing raw = true) /\
    ((1 <= length labels)%nat ->
     Forall (fun c => (0 <= c <= Z.of_nat (length labels) - 1)%Z) codes /\
     forall j x c, y !! j = Some x -> codes !! j = Some c ->
       exists k a b,
         c = Z.of_nat k /\ edges !! k = Some a /\ edges !! S k = Some b /\
         (a <= x)%Q /\ (x <= b)%Q /\ ((a < x)%Q \/ k = 0%nat)) /\
    (forall i a b,
       edges !! i = Some a -> edges !! (S i) = Some b ->
       labels !! i
       = Some (py "[" ++ format_1f a ++ py ", " ++ format_1f b
               ++ (if (Z.of_nat i <? Z.of_nat (length labels) - 1)%Z
                   then py ")" else py "]")) /\
       exists whole_a da whole_b db,
         format_1f a = whole_a ++ py "." ++ [da] /\
         format_1f b = whole_b ++ py "." ++ [db]).
Proof.
  intros Hmode Hy Hn Hfit raw.
  destruct (edges_fit_spec _ _ _ Hfit) as [Hlen [Hnd [lo [hi [H0 [Hl Hbetween]]]]]].
  fold raw in Hlen, Hnd, H0, Hl.
  destruct (dropped_duplicates raw lo hi Hnd H0 Hl)
    as [Hnd' [_ [Hstrict [Hsub [Hcov [Hkeep [Hfull [Hlens [bl [H0' [Hl' Hbl]]]]]]]]]]].
  destruct (make_bins_with_quantile y mode n fe Hmode Hy ltac:(lia))
    as [labels [Hrun [Hll Hfmt]]]; [fold raw; lia|].
  fold raw in Hrun, Hll, Hfmt.
  set (bins := if (length (unique raw) <? length raw)%nat && negb (length raw =? 2)%nat
               then unique raw else raw) in *.
  eexists. exists bins, labels.
  split; [exact Hrun|]. split; [apply length_map|].
  split; [exact Hll|]. split; [lia|].
  split; [exact Hsub|]. split; [exact Hcov|]. split; [exact Hstrict|].
  split.
  { intros Hs. pose proof (Hkeep Hs) as Heq. split; [exact Heq|].
    rewrite Heq in Hll. split; [lia|]. intros ->. simpl in Hlen. lia. }
  split.
  { intros Hn2 Hcount. apply Hfull; lia. }
  split.
  { intros Hlab.
    assert (Hbetween' : forall x, x ∈ y -> (lo <= x)%Q /\ (x <= bl)%Q).
    { intros x Hx. destruct (Hbetween x Hx). rewrite Hbl. split; assumption. }
    pose proof (codes_in_range bins y lo bl Hnd' H0' Hl' Hbetween' ltac:(lia)) as Hr.
    split; [eapply Forall_impl; [exact Hr|]; intros c Hc; simpl in Hc; lia|].
    intros j x c Hj Hc.
    change (List.map (qcut_code bins) y) with (qcut_code bins <$> y) in Hc.
    rewrite list_lookup_fmap, Hj in Hc. cbn in Hc. injection Hc as <-.
    destruct (Hbetween' x (list_elem_of_lookup_2 _ _ _ Hj)) as [Hx1 Hx2].
    destruct (qcut_code_interval bins x lo bl Hnd' H0' Hl' Hx1 Hx2)
      as [[Hone _]|[_ [k [a [b [_ [Hcode H]]]]]]]; [lia|].
    exists k, a, b. split; [assumption|]. exact H. }
  intros i a b Ha Hb. split; [apply Hfmt; assumption|].
  destruct (format_1f_one_decimal a) as [wa [da [Ha' _]]].
  destruct (format_1f_one_decimal b) as [wb [db [Hb' _]]].
  exists wa, da, wb, db. split; assumption.
Qed.

(** X23. Quantile mode on any sample, repeated values included, when
    the quantile routine returns its edges in non-decreasing order,
    from the least to the greatest value of the sample. The edges
    returned do not decrease, and increase strictly unless they are
    two equal ones; every value of the sample is between the first and
    the last. A value of class [k] lies in the interval from edge [k]
    to edge [k + 1], open on the left except for class 0; with a
    single edge there is no interval and every value has code -1. *)
Theorem make_bins_quantile_intervals (y : list Q) (mode : str) (n : Z)
        (fe : option (list Q)) (codes : list Z) (edges : list Q)
        (labels : list str) :
  mode <> py "fixed" -> (1 <= n)%Z ->
  edges_fit (edges_of y (Z.to_nat n)) y (Z.to_nat n) = true ->
  make_bins_with edges_of y mode n fe = Some (Ok (codes, edges, labels)) ->
  nondecreasing edges = true /\
  exists lo hi,
    edges !! 0%nat = Some lo /\ last edges = Some hi /\
    ((length edges <> 2%nat \/ (lo < hi)%Q) -> strictly_increasing edges = true) /\
    (forall x, x ∈ y -> (lo <= x)%Q /\ (x <= hi)%Q) /\
    forall j x c, y !! j = Some x -> codes !! j = Some c ->
      (length edges = 1%nat /\ c = (-1)%Z) \/
      ((2 <= length edges)%nat /\
       exists k a b,
         c = Z.of_nat k /\ edges !! k = Some a /\ edges !! S k = Some b /\
         (a <= x)%Q /\ (x <= b)%Q /\ ((a < x)%Q \/ k = 0%nat)).
Proof.
  intros Hmode Hn Hfit Hmk.
  destruct (edges_fit_spec _ _ _ Hfit) as [Hlen [Hnd [lo [hi [H0 [Hl Hbetween]]]]]].
  destruct (make_bins_with_inv y mode n fe codes edges labels Hmode ltac:(lia) Hmk)
    as [Hy [Hedges Hcodes]].
  destruct (dropped_duplicates _ lo hi Hnd H0 Hl)
    as [Hnd' [Hstrict [_ [_ [_ [_ [_ [_ [bl [H0' [Hl' Hbl]]]]]]]]]]].
  rewrite <- Hedges in Hnd', Hstrict, H0', Hl'.
  assert (Hbetween' : forall x, x ∈ y -> (lo <= x)%Q /\ (x <= bl)%Q).
  { intros x Hx. destruct (Hbetween x Hx). rewrite Hbl. split; assumption. }
  split; [exact Hnd'|]. exists lo, bl.
  split; [exact H0'|]. split; [exact Hl'|].
  split.
  { intros [Hne|Hlt]; apply Hstrict; [left; assumption|].
    right. rewrite <- Hbl. assumption. }
  split; [exact Hbetween'|].
  intros j x c Hj Hc. rewrite Hcodes in Hc.
  change (List.map (qcut_code edges) y) with (qcut_code edges <$> y) in Hc.
  rewrite list_lookup_fmap, Hj in Hc. cbn in Hc. injection Hc as <-.
  destruct (Hbetween' x (list_elem_of_lookup_2 _ _ _ Hj)) as [H1 H2].
  destruct (qcut_code_interval edges x lo bl Hnd' H0' Hl' H1 H2)
    as [[Hone Hcode]|[Htwo [k [a [b [_ [Hcode H]]]]]]].
  - left. split; assumption.
  - right. split; [assumption|]. exists k, a, b. split; [assumption|]. exact H.
Qed.

(** X24. Quantile mode keeps the order of the values, when the
    quantile routine returns its edges in non-decreasing order, from
    the least to the greatest value of the sample: of two values of
    the sample, the larger never gets the lower code. *)
Theorem make_bins_quantile_monotone (y : list Q) (mode : str) (n : Z)
        (fe : option (list Q)) (codes : list Z) (edges : list Q)
        (labels : list str) (i j : nat) (x x' : Q) (c c' : Z) :
  mode <> py "fixed" -> (1 <= n)%Z ->
  edges_fit (edges_of y (Z.to_nat n)) y (Z.to_nat n) = true ->
  make_bins_with edges_of y mode n fe = Some (Ok (codes, edges, labels)) ->
  y !! i = Some x -> y !! j = Some x' -> (x <= x')%Q ->
  codes !! i = Some c -> codes !! j = Some c' ->
  (c <= c')%Z.
Proof.
  intros Hmode Hn Hfit Hmk Hi Hj Hxx Hc Hc'.
  destruct (edges_fit_spec _ _ _ Hfit) as [Hlen [Hnd [lo [hi [H0 [Hl Hbetween]]]]]].
  destruct (make_bins_with_inv y mode n fe codes edges labels Hmode ltac:(lia) Hmk)
    as [Hy [Hedges Hcodes]].
  destruct (dropped_duplicates _ lo hi Hnd H0 Hl)
    as [Hnd' [_ [_ [_ [_ [_ [_ [_ [bl [H0' [Hl' Hbl]]]]]]]]]]].
  rewrite <- Hedges in Hnd', H0', Hl'.
  assert (Hbetween' : forall x, x ∈ y -> (lo <= x)%Q /\ (x <= bl)%Q).
  { intros z Hz. destruct (Hbetween z Hz). rewrite Hbl. split; assumption. }
  rewrite Hcodes in Hc, Hc'.
  change (List.map (qcut_code edges) y) with (qcut_code edges <$> y) in Hc, Hc'.
  rewrite list_lookup_fmap, Hi in Hc. rewrite list_lookup_fmap, Hj in Hc'.
  cbn in Hc, Hc'. injection Hc as <-. injection Hc' as <-.
  destruct (Hbetween' x (list_elem_of_lookup_2 _ _ _ Hi)) as [H1 H2].
  destruct (Hbetween' x' (list_elem_of_lookup_2 _ _ _ Hj)) as [H1' H2'].
  destruct (qcut_code_interval edges x lo bl Hnd' H0' Hl' H1 H2)
    as [[Hone Hcode]|[Htwo [k [a [b [Hk [Hcode _]]]]]]];
    destruct (qcut_code_interval edges x' lo bl Hnd' H0' Hl' H1' H2')
      as [[Hone' Hcode']|[Htwo' [k' [a' [b' [Hk' [Hcode' _]]]]]]];
    rewrite Hcode, Hcode'; try lia.
  assert (Hss : (searchsorted_left edges x <= searchsorted_left edges x')%nat).
  { apply searchsorted_left_mono. assumption. }
  unfold Qeqb in *.
  destruct (Qeq_bool x lo) eqn:E; destruct (Qeq_bool x' lo) eqn:E'; try lia.
  exfalso. apply Qeq_bool_iff in E'.
  assert (Heq : (x == lo)%Q) by lra.
  apply Qeq_bool_iff in Heq. congruence.
Qed.

(** No double lies between 1.0 and the double after it. *)
Lemma doubles_from_one (e : Q) :
  fl e = e -> (1 <= e)%Q -> (e <= 4503599627370497 # 4503599627370496)%Q ->
  (e == 1)%Q \/ (e == 4503599627370497 # 4503599627370496)%Q.
Proof.
  intros Hfl H1 H2.
  assert (Hb : binade (Qabs e) = 0%Z).
  { destruct e as [n d]. unfold Qle in H1, H2. cbn in H1, H2.
    assert (Hn : (0 < n)%Z) by lia.
    unfold Qabs. rewrite Z.abs_eq by lia. unfold binade. cbn [Qnum Qden].
    assert (Hlo : (Z.log2 (Z.pos d) <= Z.log2 n)%Z) by (apply Z.log2_le_mono; lia).
    assert (Hhi : (Z.log2 n <= Z.log2 (Z.pos d) + 1)%Z).
    { pose proof (Z.log2_double (Z.pos d) ltac:(lia)) as Hd.
      pose proof (Z.log2_le_mono n (2 * Z.pos d) ltac:(lia)). lia. }
    destruct (Z.eq_dec (Z.log2 n - Z.log2 (Z.pos d))%Z 0%Z) as [E|E].
    - rewrite E. replace (Qle_bool (pow2 0) (n # d)) with true; [reflexivity|].
      symmetry. apply Qle_bool_iff. unfold Qle. cbn. lia.
    - assert (E1 : (Z.log2 n - Z.log2 (Z.pos d) = 1)%Z) by lia.
      rewrite E1. replace (Qle_bool (pow2 1) (n # d)) with false; [reflexivity|].
      symmetry. apply not_true_is_false. intros H. apply Qle_bool_iff in H.
      unfold Qle in H. cbn in H. lia. }
  unfold fl in Hfl.
  replace (Qeq_bool e 0) with false in Hfl.
  2:{ symmetry. apply not_true_is_false. intros H. apply Qeq_bool_iff in H.
      rewrite H in H1. lra. }
  rewrite Hb in Hfl. change (Z.max 0 (-1022)) with 0%Z in Hfl.
  change (pow2 (0 - 52)) with (1 # 4503599627370496)%Q in Hfl.
  set (k := round_half_even (e / (1 # 4503599627370496))) in Hfl.
  assert (He : (e == inject_Z k * (1 # 4503599627370496))%Q).
  { rewrite <- Hfl at 1. apply Qred_correct. }
  assert (Hk : (4503599627370496 <= k <= 4503599627370497)%Z).
  { rewrite He in H1, H2. unfold Qle, Qmult, inject_Z in H1, H2. cbn in H1, H2. lia. }
  destruct (Z.eq_dec k 4503599627370496%Z) as [E|E].
  - left. rewrite He, E. reflexivity.
  - right. rewrite He. replace k with 4503599627370497%Z by lia. reflexivity.
Qed.

(** So whatever quantile routine returns doubles from the least to the
    greatest value of the sample: on the sample of these two doubles,
    asked for 5 classes, [make_bins] returns one. *)
Lemma adjacent_doubles_one_class (codes : list Z) (edges : list Q)
      (labels : list str) :
  let y := [1; 4503599627370497 # 4503599627370496]%Q in
  let raw := edges_of y 5 in
  edges_fit raw y 5 = true ->
  raw !! 0%nat = Some 1%Q -> last raw = Some (4503599627370497 # 4503599627370496)%Q ->
  Forall (fun e => fl e = e) raw ->
  make_bins_with edges_of y (py "quantile") 5 None = Some (Ok (codes, edges, labels)) ->
  length labels = 1%nat.
Proof.
  intros y raw Hfit H0 Hl Hdbl Hmk.
  destruct (edges_fit_spec _ _ _ Hfit) as [Hlen [Hnd _]].
  destruct (make_bins_with_inv y (py "quantile") 5 None codes edges labels
              ltac:(discriminate) ltac:(lia) Hmk) as [Hy [Hedges Hcodes]].
  change (Z.to_nat 5) with 5%nat in Hedges. fold raw in Hedges.
  destruct (dropped_duplicates raw 1 (4503599627370497 # 4503599627370496) Hnd H0 Hl)
    as [_ [_ [Hstrict [Hsub [Hcov [_ [_ [_ _]]]]]]]].
  rewrite <- Hedges in Hstrict, Hsub, Hcov.
  specialize (Hstrict ltac:(rewrite Hlen; discriminate)).
  assert (Htwo : forall e, e ∈ edges ->
             (e == 1)%Q \/ (e == 4503599627370497 # 4503599627370496)%Q).
  { intros e He. pose proof (Hsub e He) as Hr.
    apply doubles_from_one.
    - rewrite Forall_forall in Hdbl. apply Hdbl. assumption.
    - apply list_elem_of_lookup in Hr. destruct Hr as [i Hi].
      apply (nondecreasing_lookup raw Hnd 0%nat i 1%Q e); [lia | assumption..].
    - apply (last_greatest raw _ e Hnd Hl Hr). }
  destruct (Hcov 1%Q) as [e1 [He1 Hq1]].
  { eapply list_elem_of_lookup_2. exact H0. }
  destruct (Hcov (4503599627370497 # 4503599627370496)%Q) as [e2 [He2 Hq2]].
  { rewrite last_lookup in Hl. eapply list_elem_of_lookup_2. exact Hl. }
  assert (Hlen2 : length edges = 2%nat).
  { destruct edges as [|a [|b [|c rest]]].
    - inversion He1.
    - exfalso. apply elem_of_cons in He1. apply elem_of_cons in He2.
      destruct He1 as [->|He1]; [|inversion He1].
      destruct He2 as [->|He2]; [|inversion He2].
      rewrite Hq1 in Hq2. lra.
    - reflexivity.
    - exfalso.
      pose proof (strictly_increasing_lookup _ Hstrict 0%nat 1%nat a b
                    ltac:(lia) eq_refl eq_refl) as Hab.
      pose proof (strictly_increasing_lookup _ Hstrict 1%nat 2%nat b c
                    ltac:(lia) eq_refl eq_refl) as Hbc.
      destruct (Htwo a) as [Ha|Ha]; [left|..];
        destruct (Htwo b) as [Hb'|Hb']; try (right; left);
        destruct (Htwo c) as [Hc|Hc]; try (right; right; left);
        lra. }
  unfold make_bins_with in Hmk.
  rewrite bool_decide_eq_false_2 in Hmk by discriminate.
  rewrite (qcut_with_run y 5 Hy ltac:(lia)) in Hmk. cbv zeta in Hmk.
  change (Z.to_nat 5) with 5%nat in Hmk. fold raw in Hmk. rewrite <- Hedges in Hmk.
  cbn [rbind] in Hmk. rewrite Hlen2 in Hmk.
  destruct edges as [|a [|b rest]]; try discriminate.
  destruct rest; [|discriminate].
  cbn in Hmk. injection Hmk as _ <-. reflexivity.
Qed.

End QuantileMode.

(** Interpolation without rounding error returns edges as the
    statements above ask them, pairwise distinct ones for a sample of
    two or more strictly increasing values. *)
Section ExactEdges.

Lemma exact_edges_fit (y : list Q) (q : nat) :
  y <> [] -> (1 <= q)%nat -> edges_fit (exact_edges y q) y q = true.
Proof.
  intros Hy Hq. unfold exact_edges. fold (raw_bins (sort y) q).
  assert (Hlen : length (sort y) = length y) by (apply Permutation_length, sort_perm).
  assert (Hpos : (1 <= length (sort y))%nat).
  { rewrite Hlen. destruct y; [congruence | simpl; lia]. }
  pose proof (sort_nondecreasing y) as Hs.
  destruct (raw_bins_first_last (sort y) q Hs Hpos Hq) as [b0 [bl [H0 [Hl [Hb0 Hbl]]]]].
  rewrite Hlen in Hbl.
  unfold edges_fit. rewrite raw_bins_length, Nat.eqb_refl.
  rewrite (raw_bins_nondecreasing (sort y) q Hs Hpos Hq). cbn [andb].
  remember (raw_bins (sort y) q) as raw eqn:Eraw.
  destruct raw as [|lo raw']; [discriminate|].
  rewrite Hl. cbn in H0. injection H0 as ->.
  apply forallb_forall. intros x Hx. apply list_elem_of_In in Hx.
  destruct (sample_between_ends y x Hx) as [H1 H2].
  apply andb_true_intro. split; apply Qleb_le.
  - rewrite Hb0. assumption.
  - rewrite Hbl. assumption.
Qed.

Lemma exact_edges_increasing (y : list Q) (q : nat) :
  strictly_increasing y = true -> (2 <= length y)%nat -> (1 <= q)%nat ->
  strictly_increasing (exact_edges y q) = true.
Proof.
  intros Hs Hlen Hq. unfold exact_edges. rewrite sort_increasing by assumption.
  apply (raw_bins_increasing y q Hs Hlen Hq).
Qed.

End ExactEdges.

Section QuantileModeRuns.

Lemma make_bins_quantile_witness :
  exists codes edges labels,
    make_bins_with f64_edges [11; 1; 2; 3; 4; 5; 6; 7; 8; 9; 10]%Q (py "quantile") 5 None
    = Some (Ok (codes, edges, labels)) /\
    edges = f64_edges [11; 1; 2; 3; 4; 5; 6; 7; 8; 9; 10]%Q 5 /\
    length labels = 5%nat /\
    Forall (fun c => (0 <= c <= Z.of_nat (length labels) - 1)%Z) codes.
Proof.
  destruct (make_bins_quantile f64_edges [11; 1; 2; 3; 4; 5; 6; 7; 8; 9; 10]%Q
              (py "quantile") 5 None)
    as [codes [edges [labels [H1 [_ [_ [_ [_ [_ [_ [H2 [_ [H3 _]]]]]]]]]]]]].
  - vm_compute. discriminate.
  - discriminate.
  - lia.
  - vm_compute. reflexivity.
  - exists codes, edges, labels. split; [exact H1|].
    destruct H2 as [He [_ H5]]; [vm_compute; reflexivity|].
    split; [exact He|]. split; [apply H5; reflexivity|].
    apply H3. rewrite (H5 eq_refl). lia.
Defined.

(** C3 as stated fails on the class count: the sample of the two
    doubles 1.0 and 1.0000000000000002 increases strictly, no double
    lies between them, every quantile is one or the other, and
    [make_bins] asked for 5 classes returns one. *)
Lemma make_bins_quantile_counterexample :
  strictly_increasing [1; 4503599627370497 # 4503599627370496]%Q = true /\
  fl (4503599627370497 # 4503599627370496) = (4503599627370497 # 4503599627370496)%Q /\
  f64_edges [1; 4503599627370497 # 4503599627370496]%Q 5
  = [1; 1; 1; 4503599627370497 # 4503599627370496;
     4503599627370497 # 4503599627370496; 4503599627370497 # 4503599627370496]%Q /\
  make_bins_with f64_edges [1; 4503599627370497 # 4503599627370496]%Q
                 (py "quantile") 5 None
  = Some (Ok ([0; 0]%Z, [1; 4503599627370497 # 4503599627370496]%Q,
              [py "[1.0, 1.0]"])).
Proof.
  repeat split; vm_compute; reflexivity.
Qed.

(** On samples of whole numbers whose quantiles fall on dyadic
    positions every step of the interpolation is exact: the routine in
    doubles returns the edges free of rounding error, and [make_bins]
    the same result. *)
Lemma dyadic_samples_in_doubles :
  f64_edges [1; 2; 3]%Q 2 = exact_edges [1; 2; 3]%Q 2 /\
  f64_edges [1; 2; 3; 4; 5; 6; 7; 8; 9]%Q 4
  = exact_edges [1; 2; 3; 4; 5; 6; 7; 8; 9]%Q 4 /\
  make_bins_with f64_edges [1; 2; 3]%Q (py "quantile") 2 None
  = make_bins [1; 2; 3]%Q (py "quantile") 2 None /\
  make_bins_with f64_edges [1; 2; 3; 4; 5; 6; 7; 8; 9]%Q (py "quantile") 4 None
  = make_bins [1; 2; 3; 4; 5; 6; 7; 8; 9]%Q (py "quantile") 4 None /\
  make_bins_with f64_edges [7; 7; 7]%Q (py "quantile") 5 None
  = make_bins [7; 7; 7]%Q (py "quantile") 5 None.
Proof. repeat split; vm_compute; reflexivity. Qed.

Lemma make_bins_quantile_intervals_witness :
  exists lo hi,
    [1; (5 # 4); 2; 4]%Q !! 0%nat = Some lo /\ last [1; (5 # 4); 2; 4]%Q = Some hi /\
    forall x, x ∈ [2; 1; 2; 2; 4; 1]%Q -> (lo <= x)%Q /\ (x <= hi)%Q.
Proof.
  destruct (make_bins_quantile_intervals f64_edges [2; 1; 2; 2; 4; 1]%Q
              (py "quantile") 4 None
              [1; 0; 1; 1; 2; 0]%Z [1; (5 # 4); 2; 4]%Q
              [py "[1.0, 1.2)"; py "[1.2, 2.0)"; py "[2.0, 4.0]"]
              ltac:(discriminate) ltac:(lia) ltac:(vm_compute; reflexivity)
              ltac:(vm_compute; reflexivity))
    as [_ [lo [hi [H0 [Hl [_ [Hb _]]]]]]].
  exists lo, hi. auto.
Defined.

Lemma make_bins_quantile_monotone_witness : (0 <= 2)%Z.
Proof.
  exact (make_bins_quantile_monotone f64_edges [2; 1; 2; 2; 4; 1]%Q
           (py "quantile") 4 None
           [1; 0; 1; 1; 2; 0]%Z [1; (5 # 4); 2; 4]%Q
           [py "[1.0, 1.2)"; py "[1.2, 2.0)"; py "[2.0, 4.0]"]
           1%nat 4%nat 1%Q 4%Q 0%Z 2%Z
           ltac:(discriminate) ltac:(lia) ltac:(vm_compute; reflexivity)
           ltac:(vm_compute; reflexivity)
           eq_refl eq_refl ltac:(vm_compute; discriminate) eq_refl eq_refl).
Defined.

End QuantileModeRuns.
